(** * onetl FileDownloader: a shallow embedding of the transfer engine

    The development follows [onetl/core/file_downloader/file_downloader.py].
    Paths follow [pathlib.PurePosixPath]; the file connection, the local file
    system, the HWM store and the strategy manager are collaborators of the
    downloader and are modelled as one explicit world that every operation
    threads through, together with an oracle that lets any external call
    raise. *)

From Stdlib Require Import ZArith DecimalString.
From stdpp Require Import gmap strings list fin_maps.

Open Scope string_scope.
Open Scope list_scope.
Open Scope nat_scope.
Set Warnings "-register-all,-clear-no-such-hyp".

(** ** Path model (PurePosixPath) *)

Module PathModel.

(** Modelled from the spec: [RemotePath] and [LocalPath] of [onetl.impl] are
    absent from the sources; the spec gives their operations ([is_absolute],
    [relative_to], parent and name, joining), which are those of
    [pathlib.PurePosixPath]. A path is its anchor (absolute or not) and its
    components: [/] is [Path true []] and [.] is [Path false []]. *)
Record path := Path { is_absolute : bool; parts : list string }.

#[global] Instance path_eq_dec : EqDecision path.
Proof. solve_decision. Defined.

#[global] Instance path_countable : Countable path.
Proof.
  refine (inj_countable' (fun p => (is_absolute p, parts p))
                         (fun t => Path (fst t) (snd t)) _).
  intros [a l]. reflexivity.
Defined.

(** [a / b]: an absolute right operand replaces the left one. *)
Definition joinpath (a b : path) : path :=
  if is_absolute b then b
  else Path (is_absolute a) (parts a ++ parts b).

(** [p.name]: the last component, or the empty string. *)
Definition name (p : path) : string := List.last (parts p) EmptyString.

(** [p.parent]: the path without its last component. *)
Definition parent (p : path) : path :=
  Path (is_absolute p) (removelast (parts p)).

(** [p.parents]: the proper ancestors, nearest first. *)
Definition parents (p : path) : list path :=
  map (fun k => Path (is_absolute p) (take k (parts p)))
      (rev (seq 0 (length (parts p)))).

(** [p.relative_to(base)]: [None] stands for pathlib's [ValueError]. *)
Definition relative_to (p base : path) : option path :=
  if bool_decide (is_absolute p = is_absolute base
                  /\ take (length (parts base)) (parts p) = parts base)
  then Some (Path false (drop (length (parts base)) (parts p)))
  else None.

(** [p] and every ancestor of it, used by [mkdir(parents=True)]. *)
Definition self_and_parents (p : path) : list path := p :: parents p.

(** [d] is [p] or an ancestor of [p]: what [rmtree d] removes. *)
Definition is_under (d p : path) : bool :=
  bool_decide (d = p) || bool_decide (d ∈ parents p).

End PathModel.
Export PathModel.

Notation "a // b" := (joinpath a b) (at level 40, left associativity).

Definition abs_path (l : list string) : path := Path true l.
Definition rel_path (l : list string) : path := Path false l.

(** ** Values exchanged with the collaborators *)

(** Exceptions. [ExternalError] stands for whatever else a collaborator may
    raise (network, permissions, disk). All of them derive from Python's
    [Exception], so [except Exception] catches every one. *)
Inductive exn :=
| ValueError (msg : string)
| TypeError (msg : string)
| RuntimeError (msg : string)
| UnboundLocalError (var : string)
| FileExistsError (p : path)
| FileNotFoundError (p : path)
| NotADirectoryError (p : path)
| NotAFileError (p : path)
| DirectoryNotFoundError (p : path)
| ShutilError (p : path)
| ExternalError (tag : string).

#[global] Instance exn_eq_dec : EqDecision exn.
Proof. solve_decision. Defined.

Record Stat := { st_size : N; st_mtime : N }.

#[global] Instance Stat_eq_dec : EqDecision Stat.
Proof. solve_decision. Defined.

(** Modelled from the spec: [RemoteFile] and [FailedRemoteFile] of
    [onetl.impl] are absent from the sources: a path with its stats, and for
    a failure the exception caught. *)
Record RemoteFile := { rf_path : path; rf_stats : Stat }.

#[global] Instance RemoteFile_eq_dec : EqDecision RemoteFile.
Proof. solve_decision. Defined.

Record FailedRemoteFile :=
  { ff_path : path; ff_stats : Stat; ff_exception : exn }.

#[global] Instance FailedRemoteFile_eq_dec : EqDecision FailedRemoteFile.
Proof. solve_decision. Defined.

(** [OrderedSet.add] / [FileSet.add]: append unless already present. *)
Definition oset_add {A} `{EqDecision A} (x : A) (l : list A) : list A :=
  if decide (x ∈ l) then l else l ++ [x].

(** Modelled from the spec: [DownloadResult] is absent from the sources; the
    spec gives its four buckets: [successful] holds local paths, the other
    three hold references to the source file. *)
Record DownloadResult := {
  successful : list path;
  failed : list FailedRemoteFile;
  skipped : list RemoteFile;
  missing : list path
}.

Definition empty_result : DownloadResult :=
  {| successful := []; failed := []; skipped := []; missing := [] |}.

Definition add_successful (p : path) (r : DownloadResult) : DownloadResult :=
  {| successful := oset_add p (successful r); failed := failed r;
     skipped := skipped r; missing := missing r |}.
Definition add_failed (f : FailedRemoteFile) (r : DownloadResult) : DownloadResult :=
  {| successful := successful r; failed := oset_add f (failed r);
     skipped := skipped r; missing := missing r |}.
Definition add_skipped (f : RemoteFile) (r : DownloadResult) : DownloadResult :=
  {| successful := successful r; failed := failed r;
     skipped := oset_add f (skipped r); missing := missing r |}.
Definition add_missing (p : path) (r : DownloadResult) : DownloadResult :=
  {| successful := successful r; failed := failed r;
     skipped := skipped r; missing := oset_add p (missing r) |}.

(** [FileWriteMode], with the four values the [Options] docstring lists. *)
Inductive FileWriteMode := ERROR | IGNORE | OVERWRITE | DELETE_ALL.

#[global] Instance FileWriteMode_eq_dec : EqDecision FileWriteMode.
Proof. solve_decision. Defined.

(** What a filter or a limit is shown during enumeration. *)
Inductive entity := EDir (p : path) | EFile (p : path) (st : Stat).

(** Modelled from the spec: [BaseFileFilter] is absent from the sources; the
    spec gives it as a predicate over a file entity. *)
Definition BaseFileFilter := entity -> bool.

(** Modelled from the spec: [BaseFileLimit] is absent from the sources; the
    spec gives it as a stateful counter with [observe] and [is_exhausted]. *)
Record BaseFileLimit := {
  limit_state : Type;
  limit_reset : limit_state;
  limit_observe : entity -> limit_state -> limit_state;
  limit_is_reached : limit_state -> bool
}.

(** Modelled from the spec: [FileLimit] is absent from the sources; it counts
    the files it is shown and is exhausted once [count_limit] were seen. The
    downloader's docstring gives the default: "Default file count limit is
    100". *)
Definition FileLimit (count_limit : nat) : BaseFileLimit :=
  {| limit_state := nat;
     limit_reset := 0;
     limit_observe := fun e c => match e with EFile _ _ => S c | EDir _ => c end;
     limit_is_reached := fun c => count_limit <=? c |}.

Definition default_count_limit : nat := 100.

(** Modelled from the spec: the file HWM of [etl_entities], absent from the
    sources: a qualified name and the files seen so far. [hwm_is_file] tells
    a [FileHWM] from any other HWM class a store may hand back. *)
Record HWM := {
  hwm_is_file : bool;
  qualified_name : string;
  hwm_value : list path
}.

#[global] Instance HWM_eq_dec : EqDecision HWM.
Proof. solve_decision. Defined.

(** [hwm.update(file)] adds the file to the value, in place. *)
Definition hwm_updated (p : path) (h : HWM) : HWM :=
  {| hwm_is_file := hwm_is_file h; qualified_name := qualified_name h;
     hwm_value := oset_add p (hwm_value h) |}.

(** [FileHWMFilter]: files the HWM already covers are rejected. *)
Definition FileHWMFilter (h : HWM) : BaseFileFilter :=
  fun e => match e with
           | EDir _ => true
           | EFile p _ => bool_decide (p ∉ hwm_value h)
           end.

(** Modelled from the spec: the strategy classes are absent from the
    sources; [_check_strategy] asks three things of the current strategy:
    whether it is an [HWMStrategy], whether it is a [BatchHWMStrategy], and
    its [offset] if it has one. *)
Record Strategy := {
  is_HWMStrategy : bool;
  is_BatchHWMStrategy : bool;
  offset : option Z
}.

(** Python truthiness of [getattr(strategy, "offset", None)]. *)
Definition truthy (o : option Z) : bool :=
  match o with Some z => negb (z =? 0)%Z | None => false end.

(** ** The world *)

(** Remote tree: a file carries its stats and content. *)
Inductive rnode :=
| RFile (nm : string) (st : Stat) (data : string)
| RDir (nm : string) (children : list rnode).

Definition rname (n : rnode) : string :=
  match n with RFile nm _ _ => nm | RDir nm _ => nm end.

Definition has_name (x : string) (n : rnode) : bool := bool_decide (rname n = x).

Fixpoint rlookup (ps : list string) (n : rnode) : option rnode :=
  match ps with
  | [] => Some n
  | x :: ps' =>
      match n with
      | RFile _ _ _ => None
      | RDir _ ch =>
          match List.find (has_name x) ch with
          | Some c => rlookup ps' c
          | None => None
          end
      end
  end.

Fixpoint rremove (ps : list string) (n : rnode) : rnode :=
  match ps, n with
  | [], _ => n
  | _, RFile _ _ _ => n
  | [x], RDir nm ch => RDir nm (List.filter (fun c => negb (has_name x c)) ch)
  | x :: ps', RDir nm ch =>
      RDir nm (map (fun c => if has_name x c then rremove ps' c else c) ch)
  end.

(** Content of a local file: whole, or cut short by an interrupted write. *)
Inductive file_data := Complete (s : string) | Truncated (s : string).

#[global] Instance file_data_eq_dec : EqDecision file_data.
Proof. solve_decision. Defined.

(** Every call that leaves the downloader. *)
Inductive Op :=
| ConnCheck
| ConnPathExists (p : path)
| ConnGetFile (p : path)
| ConnGetDirectory (p : path)
| ConnWalk (root : path)
| ConnDownloadFile (src dst : path) (replace : bool)
| ConnRemoveFile (p : path)
| LocalExists (p : path)
| LocalIsDir (p : path)
| LocalMkdir (p : path) (with_parents exist_ok : bool)
| LocalUnlink (p : path)
| LocalMove (src dst : path)
| LocalRmtree (p : path)
| StoreGet (nm : string)
| StoreSave (h : HWM)
| HwmUpdate (p : path).

#[global] Instance Op_eq_dec : EqDecision Op.
Proof. solve_decision. Defined.

(** An injected failure; [FailsMidway] leaves a download cut short. *)
Inductive fault := Fails (e : exn) | FailsMidway (e : exn).

Definition fault_exn (f : fault) : exn :=
  match f with Fails e => e | FailsMidway e => e end.

(** The oracle: whether the [n]-th external call, being [op], fails. *)
Definition Faults := nat -> Op -> option fault.

Definition no_faults : Faults := fun _ _ => None.

Record World := {
  remote : rnode;                       (* the remote root directory *)
  local_files : gmap path file_data;
  local_dirs : gset path;
  hwm_store : gmap string HWM;          (* HWMStoreManager.get_current() *)
  current_strategy : Strategy;          (* StrategyManager.get_current() *)
  hwm_cell : option HWM;                (* the in-memory [file_hwm] object *)
  calls : list (Op * option exn)        (* external calls, newest first *)
}.

Definition set_remote (x : rnode) (w : World) : World :=
  {| remote := x; local_files := local_files w; local_dirs := local_dirs w;
     hwm_store := hwm_store w; current_strategy := current_strategy w;
     hwm_cell := hwm_cell w; calls := calls w |}.
Definition set_local_files (x : gmap path file_data) (w : World) : World :=
  {| remote := remote w; local_files := x; local_dirs := local_dirs w;
     hwm_store := hwm_store w; current_strategy := current_strategy w;
     hwm_cell := hwm_cell w; calls := calls w |}.
Definition set_local_dirs (x : gset path) (w : World) : World :=
  {| remote := remote w; local_files := local_files w; local_dirs := x;
     hwm_store := hwm_store w; current_strategy := current_strategy w;
     hwm_cell := hwm_cell w; calls := calls w |}.
Definition set_hwm_store (x : gmap string HWM) (w : World) : World :=
  {| remote := remote w; local_files := local_files w; local_dirs := local_dirs w;
     hwm_store := x; current_strategy := current_strategy w;
     hwm_cell := hwm_cell w; calls := calls w |}.
Definition set_hwm_cell (x : option HWM) (w : World) : World :=
  {| remote := remote w; local_files := local_files w; local_dirs := local_dirs w;
     hwm_store := hwm_store w; current_strategy := current_strategy w;
     hwm_cell := x; calls := calls w |}.
Definition log_call (op : Op) (err : option exn) (w : World) : World :=
  {| remote := remote w; local_files := local_files w; local_dirs := local_dirs w;
     hwm_store := hwm_store w; current_strategy := current_strategy w;
     hwm_cell := hwm_cell w; calls := (op, err) :: calls w |}.

(** ** State and exceptions *)

(** A computation runs from a world and either returns a value or raises;
    both leave a world behind. *)
Inductive outcome (A : Type) :=
| Ok (a : A) (w : World)
| Raise (e : exn) (w : World).
Arguments Ok {A} a w.
Arguments Raise {A} e w.

Definition M (A : Type) : Type := World -> outcome A.

Definition ret {A} (a : A) : M A := fun w => Ok a w.
Definition raise {A} (e : exn) : M A := fun w => Raise e w.
Definition bind {A B} (m : M A) (k : A -> M B) : M B :=
  fun w => match m w with
           | Ok a w' => k a w'
           | Raise e w' => Raise e w'
           end.
(** [try: m except Exception as e: h e]. *)
Definition try_except {A} (m : M A) (h : exn -> M A) : M A :=
  fun w => match m w with
           | Ok a w' => Ok a w'
           | Raise e w' => h e w'
           end.

Declare Scope m_scope.
Delimit Scope m_scope with m.
Notation "x <- m ;; k" := (bind m (fun x => k))
  (at level 100, m at next level, right associativity) : m_scope.
Notation "m ;; k" := (bind m (fun _ => k))
  (at level 100, right associativity) : m_scope.
Open Scope m_scope.

(** ** The collaborators *)

Section Collaborators.
Context (faults : Faults).

(** One external call: the oracle may make it raise; otherwise [sem]
    decides. Every call is logged, with the exception it raised if any. *)
Definition call {A} (op : Op) (sem : World -> exn + (A * World)) : M A :=
  fun w =>
    match faults (length (calls w)) op with
    | Some f => Raise (fault_exn f) (log_call op (Some (fault_exn f)) w)
    | None =>
        match sem w with
        | inl e => Raise e (log_call op (Some e) w)
        | inr (a, w') => Ok a (log_call op None w')
        end
    end.

(** *** File connection
    Modelled from the spec: the base file connection ([path_exists],
    [get_file], [get_directory], [download_file], [remove_file], [check])
    is absent from the sources. A relative remote path is read from the
    remote root. *)

Definition conn_check : M unit :=
  call ConnCheck (fun w => inr (tt, w)).

Definition conn_path_exists (p : path) : M bool :=
  call (ConnPathExists p)
       (fun w => inr (bool_decide (is_Some (rlookup (parts p) (remote w))), w)).

Definition conn_get_file (p : path) : M RemoteFile :=
  call (ConnGetFile p)
       (fun w => match rlookup (parts p) (remote w) with
                 | Some (RFile _ st _) => inr ({| rf_path := p; rf_stats := st |}, w)
                 | Some (RDir _ _) => inl (NotAFileError p)
                 | None => inl (FileNotFoundError p)
                 end).

Definition conn_get_directory (p : path) : M unit :=
  call (ConnGetDirectory p)
       (fun w => match rlookup (parts p) (remote w) with
                 | Some (RDir _ _) => inr (tt, w)
                 | Some (RFile _ _ _) => inl (NotADirectoryError p)
                 | None => inl (DirectoryNotFoundError p)
                 end).

Definition write_local (p : path) (d : file_data) (w : World) : World :=
  set_local_files (<[p := d]> (local_files w)) w.

(** [download_file(src, dst, replace)]: the destination holds the whole
    source content afterwards. A failure midway leaves it cut short. *)
Definition conn_download_file (src : RemoteFile) (dst : path) (replace : bool) : M unit :=
  let op := ConnDownloadFile (rf_path src) dst replace in
  fun w =>
    match faults (length (calls w)) op with
    | Some (Fails e) => Raise e (log_call op (Some e) w)
    | Some (FailsMidway e) =>
        Raise e (log_call op (Some e) (write_local dst (Truncated EmptyString) w))
    | None =>
        match rlookup (parts (rf_path src)) (remote w) with
        | Some (RFile _ _ data) =>
            if bool_decide (dst ∈ local_dirs w)
            then Raise (NotAFileError dst) (log_call op (Some (NotAFileError dst)) w)
            else if bool_decide (is_Some (local_files w !! dst)) && negb replace
            then Raise (FileExistsError dst) (log_call op (Some (FileExistsError dst)) w)
            else Ok tt (log_call op None (write_local dst (Complete data) w))
        | Some (RDir _ _) =>
            Raise (NotAFileError (rf_path src))
                  (log_call op (Some (NotAFileError (rf_path src))) w)
        | None =>
            Raise (FileNotFoundError (rf_path src))
                  (log_call op (Some (FileNotFoundError (rf_path src))) w)
        end
    end.

Definition conn_remove_file (src : RemoteFile) : M unit :=
  call (ConnRemoveFile (rf_path src))
       (fun w => match rlookup (parts (rf_path src)) (remote w) with
                 | Some (RFile _ _ _) =>
                     inr (tt, set_remote (rremove (parts (rf_path src)) (remote w)) w)
                 | Some (RDir _ _) => inl (NotAFileError (rf_path src))
                 | None => inl (FileNotFoundError (rf_path src))
                 end).

(** *** Local file system ([pathlib.Path], [shutil]) *)

Definition local_exists (p : path) : M bool :=
  call (LocalExists p)
       (fun w => inr (bool_decide (is_Some (local_files w !! p))
                      || bool_decide (p ∈ local_dirs w), w)).

Definition local_is_dir (p : path) : M bool :=
  call (LocalIsDir p) (fun w => inr (bool_decide (p ∈ local_dirs w), w)).

(** [p.mkdir(parents=.., exist_ok=..)]. *)
Definition local_mkdir (p : path) (with_parents exist_ok : bool) : M unit :=
  call (LocalMkdir p with_parents exist_ok)
       (fun w =>
          if bool_decide (p ∈ local_dirs w)
          then (if exist_ok then inr (tt, w) else inl (FileExistsError p))
          else if bool_decide (is_Some (local_files w !! p))
          then inl (FileExistsError p)
          else if bool_decide (parent p ∈ local_dirs w) || bool_decide (parts p = [])
          then inr (tt, set_local_dirs ({[ p ]} ∪ local_dirs w) w)
          else if with_parents
          then inr (tt, set_local_dirs (list_to_set (self_and_parents p) ∪ local_dirs w) w)
          else inl (FileNotFoundError p)).

Definition local_unlink (p : path) : M unit :=
  call (LocalUnlink p)
       (fun w => match local_files w !! p with
                 | Some _ => inr (tt, set_local_files (delete p (local_files w)) w)
                 | None => inl (FileNotFoundError p)
                 end).

(** [shutil.move(src, dst)] of a file: into [dst] when that is a
    directory, else onto [dst], replacing a file already there. *)
Definition local_move (src dst : path) : M unit :=
  call (LocalMove src dst)
       (fun w =>
          match local_files w !! src with
          | None => inl (FileNotFoundError src)
          | Some d =>
              let real_dst :=
                if bool_decide (dst ∈ local_dirs w)
                then dst // rel_path [name src] else dst in
              if bool_decide (dst ∈ local_dirs w)
                 && bool_decide (is_Some (local_files w !! real_dst))
              then inl (ShutilError real_dst)
              else inr (tt, set_local_files
                              (<[real_dst := d]> (delete src (local_files w))) w)
          end).

(** [shutil.rmtree(p)]: the directory and everything below it. *)
Definition local_rmtree (p : path) : M unit :=
  call (LocalRmtree p)
       (fun w =>
          if bool_decide (p ∈ local_dirs w)
          then inr (tt, set_local_dirs
                          (filter (fun q => is_under p q = false) (local_dirs w))
                          (set_local_files
                             (filter (fun kv => is_under p kv.1 = false) (local_files w))
                             w))
          else if bool_decide (is_Some (local_files w !! p))
          then inl (NotADirectoryError p)
          else inl (FileNotFoundError p)).

(** *** HWM store and the in-memory HWM
    Modelled from the spec: the HWM store is absent from the sources; the
    spec gives [get(qualified_name)] and [save(hwm)]. *)

Definition store_get (nm : string) : M (option HWM) :=
  call (StoreGet nm) (fun w => inr (hwm_store w !! nm, w)).

(** [hwm_store.save(file_hwm)]: stores what the object holds now. *)
Definition store_save : M unit :=
  fun w =>
    match hwm_cell w with
    | Some h =>
        call (StoreSave h)
             (fun w => inr (tt, set_hwm_store (<[qualified_name h := h]> (hwm_store w)) w)) w
    | None => Raise (TypeError "file_hwm") w
    end.

(** [file_hwm.update(remote_file)]: changes the object in place. *)
Definition hwm_update (f : RemoteFile) : M unit :=
  call (HwmUpdate (rf_path f))
       (fun w => inr (tt, set_hwm_cell (hwm_updated (rf_path f) <$> hwm_cell w) w)).

End Collaborators.

(** ** Directory walk *)

(** Modelled from the spec: [connection.walk(root, filters, limits)] is
    absent from the sources. Following the spec: a top-down walk yielding
    [(directory, subdirectories, files)]; a directory a filter rejects is not
    descended into, a file a filter rejects is not listed; limits are shown
    what passed the filters, in enumeration order, and once a limit reports
    exhaustion nothing more is listed or visited. *)

(** Several limits act as one: each is shown every entity, any of them
    exhausted stops the walk. *)
Definition no_limit : BaseFileLimit :=
  {| limit_state := unit; limit_reset := tt;
     limit_observe := fun _ s => s; limit_is_reached := fun _ => false |}.

Definition both_limits (a b : BaseFileLimit) : BaseFileLimit :=
  {| limit_state := limit_state a * limit_state b;
     limit_reset := (limit_reset a, limit_reset b);
     limit_observe := fun e s => (limit_observe a e s.1, limit_observe b e s.2);
     limit_is_reached := fun s => limit_is_reached a s.1 || limit_is_reached b s.2 |}.

Definition all_limits (limits : list BaseFileLimit) : BaseFileLimit :=
  foldr both_limits no_limit limits.

Definition walk_item : Type := path * list string * list (string * Stat).

Section Walk.
Context (filters : list BaseFileFilter) (L : BaseFileLimit).

Definition accepted (e : entity) : bool := forallb (fun f => f e) filters.

(** The entries of one directory, until a limit is exhausted. *)
Fixpoint scan (root : path) (entries : list rnode) (st : limit_state L)
  : list string * list (string * Stat) * limit_state L :=
  match entries with
  | [] => ([], [], st)
  | e :: rest =>
      if limit_is_reached L st then ([], [], st)
      else
        match e with
        | RDir nm _ =>
            let d := EDir (root // rel_path [nm]) in
            if accepted d
            then let '(ds, fs, st') := scan root rest (limit_observe L d st) in
                 (nm :: ds, fs, st')
            else scan root rest st
        | RFile nm stt _ =>
            let f := EFile (root // rel_path [nm]) stt in
            if accepted f
            then let '(ds, fs, st') := scan root rest (limit_observe L f st) in
                 (ds, (nm, stt) :: fs, st')
            else scan root rest st
        end
  end.

Definition selected_dir (root : path) (c : rnode) : bool :=
  match c with
  | RDir nm _ => accepted (EDir (root // rel_path [nm]))
  | RFile _ _ _ => false
  end.

(** The selected subdirectories, one after the other, while no limit is
    exhausted; [walk] is the walk of one of them. *)
Fixpoint descend (walk : path -> rnode -> limit_state L -> list walk_item * limit_state L)
    (root : path) (cs : list rnode) (st : limit_state L)
  : list walk_item * limit_state L :=
  match cs with
  | [] => ([], st)
  | c :: cs' =>
      if selected_dir root c && negb (limit_is_reached L st)
      then let '(ys, st') := walk (root // rel_path [rname c]) c st in
           let '(zs, st'') := descend walk root cs' st' in
           (ys ++ zs, st'')
      else descend walk root cs' st
  end.

Fixpoint walk_node (root : path) (n : rnode) (st : limit_state L) {struct n}
  : list walk_item * limit_state L :=
  match n with
  | RFile _ _ _ => ([], st)
  | RDir _ ch =>
      let '(ds, fs, st1) := scan root ch st in
      let '(below, st2) := descend walk_node root ch st1 in
      ((root, ds, fs) :: below, st2)
  end.
End Walk.

Definition conn_walk (faults : Faults) (root : path)
  (filters : list BaseFileFilter) (limits : list BaseFileLimit) : M (list walk_item) :=
  call faults (ConnWalk root)
       (fun w => match rlookup (parts root) (remote w) with
                 | Some (RDir nm ch) =>
                     inr ((walk_node filters (all_limits limits) root (RDir nm ch)
                                     (limit_reset (all_limits limits))).1, w)
                 | Some (RFile _ _ _) => inl (NotADirectoryError root)
                 | None => inl (DirectoryNotFoundError root)
                 end).

(** ** The downloader *)

Module FileDownloader.

Record Options := { mode : FileWriteMode; delete_source : bool }.

Definition default_options : Options := {| mode := ERROR; delete_source := false |}.

(** A class handed in as [hwm_type]; [_check_hwm_type] asks whether it
    derives from [FileHWM]. *)
Record hwm_class := { class_name : string; class_is_FileHWM : bool }.

(** The connection object: its behaviour lives in the world, its identity
    is [instance_url]. *)
Record BaseFileConnection := { instance_url : string }.

Record t := {
  connection : BaseFileConnection;
  local_path : path;
  source_path : option path;
  temp_path : option path;
  filter : option BaseFileFilter;
  limit : option BaseFileLimit;
  hwm_type : option hwm_class;
  options : Options
}.

(** [DOWNLOAD_ITEMS_TYPE]: source, target, temp. *)
Definition item : Type := path * path * option path.

Definition item_source (i : item) : path := i.1.1.
Definition item_target (i : item) : path := i.1.2.
Definition item_temp (i : item) : option path := i.2.

(** The reference [_download_files] passes around as [file_hwm]; the object
    itself is [hwm_cell] of the world. *)
Inductive hwm_ref := FileHwmObject.

Definition _check_hwm_type (c : hwm_class) : exn + unit :=
  if class_is_FileHWM c then inr tt
  else inl (ValueError "`hwm_type` class should be a inherited from FileHWM").

(** [limit: Optional[BaseFileLimit] = FileLimit()]. *)
Definition default_limit : option BaseFileLimit :=
  Some (FileLimit default_count_limit).

(** Construction. An argument the caller leaves out is [None] here; for
    [limit] and [options] the field default then applies, and passing
    [limit=None] explicitly is [Some None]. The [hwm_type] validator is the
    only one that can refuse. Paths are taken as already resolved. *)
Definition create (connection : BaseFileConnection) (local_path : path)
    (source_path temp_path : option path) (filter : option BaseFileFilter)
    (limit : option (option BaseFileLimit)) (hwm_type : option hwm_class)
    (options : option Options) : exn + t :=
  let self :=
    {| connection := connection; local_path := local_path;
       source_path := source_path; temp_path := temp_path;
       filter := filter; limit := default default_limit limit;
       hwm_type := hwm_type; options := default default_options options |} in
  match hwm_type with
  | Some c =>
      match source_path with
      | None => inl (ValueError "If `hwm_type` is passed, `source_path` must be specified")
      | Some _ =>
          match _check_hwm_type c with
          | inl e => inl e
          | inr _ => inr self
          end
      end
  | None => inr self
  end.

(** A one-component string read as a path, as [base / text] does. *)
Definition str_path (s : string) : path :=
  if decide (s = EmptyString) then rel_path [] else rel_path [s].

Fixpoint render_parts (l : list string) : string :=
  match l with
  | [] => EmptyString
  | [x] => x
  | x :: l' => x +:+ "/" +:+ render_parts l'
  end.

Definition render (p : path) : string :=
  (if is_absolute p then "/" else EmptyString) +:+ render_parts (parts p).

Section Methods.
Context (faults : Faults).
(** [generate_temp_path] of [onetl._internal] is absent from the sources. *)
Context (generate_temp_path : path -> path).
Context (self : t).

Definition _check_strategy : M unit :=
  fun w =>
    let strategy := current_strategy w in
    match hwm_type self with
    | Some _ =>
        if negb (is_HWMStrategy strategy)
        then Raise (ValueError "`hwm_type` cannot be used in snapshot strategy.") w
        else if truthy (offset strategy)
        then Raise (ValueError "If `hwm_type` is passed you can't specify an `offset`") w
        else if is_BatchHWMStrategy strategy
        then Raise (ValueError "`hwm_type` cannot be used in batch strategy.") w
        else Ok tt w
    | None => Ok tt w
    end.

Definition _check_source_path : M unit :=
  match source_path self with
  | Some sp => conn_get_directory faults sp
  | None => raise (TypeError "source_path")
  end.

Definition _check_local_path : M unit :=
  ex <- local_exists faults (local_path self) ;;
  (if ex
   then isd <- local_is_dir faults (local_path self) ;;
        if negb isd then raise (NotADirectoryError (local_path self)) else ret tt
   else ret tt) ;;
  local_mkdir faults (local_path self) true true.

Definition _get_hwm : M HWM :=
  match hwm_type self, source_path self with
  | Some c, Some sp =>
      let file_hwm_name :=
        class_name c +:+ "#" +:+ render sp +:+ "@" +:+ instance_url (connection self) in
      let file_hwm_empty :=
        {| hwm_is_file := class_is_FileHWM c; qualified_name := file_hwm_name;
           hwm_value := [] |} in
      stored <- store_get faults file_hwm_name ;;
      let file_hwm := default file_hwm_empty stored in
      if hwm_is_file file_hwm then ret file_hwm
      else raise (ValueError "`hwm_type` class should be a inherited from FileHWM")
  | _, _ => raise (TypeError "hwm_type")
  end.

(** The body of the loop of [_validate_files] up to the first call of the
    connection: the three paths of one file, or the [ValueError]. *)
Definition resolve_item (current_temp_dir : option path) (remote_file_path : path)
  : exn + item :=
  match source_path self with
  | None =>
      if negb (is_absolute remote_file_path)
      then inl (ValueError "Cannot pass relative file path with empty ``source_path``")
      else
        let filename := str_path (name remote_file_path) in
        inr (remote_file_path, local_path self // filename,
             (fun d => d // filename) <$> current_temp_dir)
  | Some sp =>
      if bool_decide (sp ∈ parents remote_file_path)
      then
        match relative_to remote_file_path sp with
        | Some rel =>
            inr (remote_file_path, local_path self // rel,
                 (fun d => d // rel) <$> current_temp_dir)
        | None => inl (ValueError "relative_to")
        end
      else if negb (is_absolute remote_file_path)
      then inr (sp // remote_file_path, local_path self // remote_file_path,
                (fun d => d // remote_file_path) <$> current_temp_dir)
      else inl (ValueError "File path does not match source_path")
  end.

Fixpoint validate_loop (remote_files : list path) (current_temp_dir : option path)
    (result : list item) : M (list item) :=
  match remote_files with
  | [] => ret result
  | file :: rest =>
      match resolve_item current_temp_dir file with
      | inl e => raise e
      | inr (remote_file, local_file, tmp_file) =>
          ex <- conn_path_exists faults remote_file ;;
          (if ex then (_ <- conn_get_file faults remote_file ;; ret tt) else ret tt) ;;
          validate_loop rest current_temp_dir
                        (oset_add (remote_file, local_file, tmp_file) result)
      end
  end.

Definition _validate_files (remote_files : list path) (current_temp_dir : option path)
  : M (list item) :=
  validate_loop remote_files current_temp_dir [].

(** What the [try] block of [_download_file] decides once the conflict
    check is done: [return] after a skip, or go on, replacing or not. *)
Inductive conflict := Skip | Proceed (replace : bool).

Definition check_conflict (local_file : path) : M conflict :=
  ex <- local_exists faults local_file ;;
  if ex then
    if decide (mode (options self) = ERROR) then raise (FileExistsError local_file)
    else if decide (mode (options self) = IGNORE) then ret Skip
    else ret (Proceed true)
  else ret (Proceed false).

Definition transfer (remote_file : RemoteFile) (local_file : path)
    (tmp_file : option path) (replace : bool) : M unit :=
  match tmp_file with
  | Some tmp =>
      conn_download_file faults remote_file tmp replace ;;
      (if replace
       then ex <- local_exists faults local_file ;;
            if ex then local_unlink faults local_file else ret tt
       else ret tt) ;;
      local_mkdir faults (parent local_file) true true ;;
      local_move faults tmp local_file
  | None => conn_download_file faults remote_file local_file replace
  end.

Definition after_transfer (remote_file : RemoteFile) (file_hwm : option hwm_ref)
  : M unit :=
  (match file_hwm with
   | Some _ => hwm_update faults remote_file ;; store_save faults
   | None => ret tt
   end) ;;
  (if delete_source (options self)
   then conn_remove_file faults remote_file
   else ret tt).

(** The [try] block after [remote_file] is bound. *)
Definition try_body (remote_file : RemoteFile) (local_file : path)
    (tmp_file : option path) (result : DownloadResult)
    (file_hwm : option hwm_ref) : M DownloadResult :=
  c <- check_conflict local_file ;;
  match c with
  | Skip => ret (add_skipped remote_file result)
  | Proceed replace =>
      transfer remote_file local_file tmp_file replace ;;
      after_transfer remote_file file_hwm ;;
      ret (add_successful local_file result)
  end.

(** [_download_file]. [result] is the object the caller shares; it comes
    back changed. The handler reads [remote_file]: when [get_file] itself
    raised, that name is not bound yet and the handler raises
    [UnboundLocalError] in turn. *)
Definition _download_file (source_file local_file : path) (tmp_file : option path)
    (result : DownloadResult) (file_hwm : option hwm_ref) : M DownloadResult :=
  ex <- conn_path_exists faults source_file ;;
  if negb ex then ret (add_missing source_file result)
  else
    fun w =>
      match conn_get_file faults source_file w with
      | Raise e w' => Raise (UnboundLocalError "remote_file") w'
      | Ok remote_file w' =>
          try_except
            (try_body remote_file local_file tmp_file result file_hwm)
            (fun e => ret (add_failed {| ff_path := rf_path remote_file;
                                         ff_stats := rf_stats remote_file;
                                         ff_exception := e |} result))
            w'
      end.

Fixpoint download_loop (to_download : list item) (result : DownloadResult)
    (file_hwm : option hwm_ref) : M DownloadResult :=
  match to_download with
  | [] => ret result
  | (source_file, local_file, tmp_file) :: rest =>
      result' <- _download_file source_file local_file tmp_file result file_hwm ;;
      download_loop rest result' file_hwm
  end.

Definition _download_files (to_download : list item) (file_hwm : option hwm_ref)
  : M DownloadResult :=
  download_loop to_download empty_result file_hwm.

Definition _hwm_processing (to_download : list item) : M DownloadResult :=
  file_hwm <- _get_hwm ;;
  (fun w => Ok tt (set_hwm_cell (Some file_hwm) w)) ;;
  _download_files to_download (Some FileHwmObject).

Definition _remove_temp_dir (temp_dir : path) : M unit :=
  try_except (local_rmtree faults temp_dir) (fun _ => ret tt).

Definition collect (walked : list walk_item) : list RemoteFile :=
  fold_left
    (fun result '(root, _, files) =>
       fold_left
         (fun result '(file, stats) =>
            oset_add {| rf_path := root // rel_path [file]; rf_stats := stats |} result)
         files result)
    walked [].

Definition view_files : M (list RemoteFile) :=
  _check_source_path ;;
  hwm_filters <- (match hwm_type self with
                  | Some _ => h <- _get_hwm ;; ret [FileHWMFilter h]
                  | None => ret []
                  end) ;;
  let filters := match filter self with Some f => [f] | None => [] end ++ hwm_filters in
  let limits := match limit self with Some l => [l] | None => [] end in
  try_except
    (match source_path self with
     | Some sp => walked <- conn_walk faults sp filters limits ;; ret (collect walked)
     | None => raise (TypeError "source_path")
     end)
    (fun e => raise (RuntimeError "Couldn't read directory tree from remote dir")).

Definition run (files : option (list path)) : M DownloadResult :=
  _check_strategy ;;
  if bool_decide (files = None) && bool_decide (source_path self = None)
  then raise (ValueError "Neither file collection nor ``source_path`` are passed")
  else
    _check_local_path ;;
    conn_check faults ;;
    (match source_path self with
     | Some _ => _check_source_path
     | None => ret tt
     end) ;;
    files <- (match files with
              | None => fs <- view_files ;; ret (map rf_path fs)
              | Some fs => ret fs
              end) ;;
    match files with
    | [] => ret empty_result
    | _ :: _ =>
        let current_temp_dir := generate_temp_path <$> temp_path self in
        to_download <- _validate_files files current_temp_dir ;;
        (if decide (mode (options self) = DELETE_ALL)
         then ex <- local_exists faults (local_path self) ;;
              (if ex then local_rmtree faults (local_path self) else ret tt) ;;
              local_mkdir faults (local_path self) false false
         else ret tt) ;;
        result <- (match hwm_type self with
                   | Some _ => _hwm_processing to_download
                   | None => _download_files to_download None
                   end) ;;
        (match current_temp_dir with
         | Some d => _remove_temp_dir d
         | None => ret tt
         end) ;;
        ret result
    end.

End Methods.

End FileDownloader.

(** ** Reading outcomes *)

Definition world_of {A} (o : outcome A) : World :=
  match o with Ok _ w => w | Raise _ w => w end.

Definition returned {A} (o : outcome A) : option A :=
  match o with Ok a _ => Some a | Raise _ _ => None end.

Definition raised {A} (o : outcome A) : option exn :=
  match o with Ok _ _ => None | Raise e _ => Some e end.

(** An oracle under which no external call fails for reasons outside the
    world. *)
Definition never_fails (faults : Faults) : Prop := forall n op, faults n op = None.

Definition is_download (c : Op * option exn) : bool :=
  match c.1 with ConnDownloadFile _ _ _ => true | _ => false end.

(** [run] up to the point where the candidate files are known: the checks,
    and the enumeration when no file collection was passed. *)
Definition run_candidates (faults : Faults) (self : FileDownloader.t)
    (files : option (list path)) : M (list path) :=
  FileDownloader._check_strategy self ;;
  if bool_decide (files = None) && bool_decide (FileDownloader.source_path self = None)
  then raise (ValueError "Neither file collection nor ``source_path`` are passed")
  else
    FileDownloader._check_local_path faults self ;;
    conn_check faults ;;
    (match FileDownloader.source_path self with
     | Some _ => FileDownloader._check_source_path faults self
     | None => ret tt
     end) ;;
    match files with
    | None => fs <- FileDownloader.view_files faults self ;; ret (map rf_path fs)
    | Some fs => ret fs
    end.

(** [run] from the point where the candidate files are known and there is
    at least one. *)
Definition run_transfer (faults : Faults) (generate_temp_path : path -> path)
    (self : FileDownloader.t) (files : list path) : M DownloadResult :=
  let current_temp_dir := generate_temp_path <$> FileDownloader.temp_path self in
  to_download <- FileDownloader._validate_files faults self files current_temp_dir ;;
  (if decide (FileDownloader.mode (FileDownloader.options self) = DELETE_ALL)
   then ex <- local_exists faults (FileDownloader.local_path self) ;;
        (if ex then local_rmtree faults (FileDownloader.local_path self) else ret tt) ;;
        local_mkdir faults (FileDownloader.local_path self) false false
   else ret tt) ;;
  result <- (match FileDownloader.hwm_type self with
             | Some _ => FileDownloader._hwm_processing faults self to_download
             | None => FileDownloader._download_files faults self to_download None
             end) ;;
  (match current_temp_dir with
   | Some d => FileDownloader._remove_temp_dir faults d
   | None => ret tt
   end) ;;
  ret result.

(** ** Vocabulary of the statements *)

(** The strategies [_check_strategy] refuses once [hwm_type] is set. *)
Definition strategy_refused (s : Strategy) : Prop :=
  is_HWMStrategy s = false \/ is_BatchHWMStrategy s = true \/ truthy (offset s) = true.

Inductive bucket := Successful | Failed | Skipped | Missing.

#[global] Instance bucket_eq_dec : EqDecision bucket.
Proof. solve_decision. Defined.

(** The paths a bucket holds: targets in [successful], sources elsewhere. *)
Definition bucket_paths (r : DownloadResult) (b : bucket) : list path :=
  match b with
  | Successful => successful r
  | Failed => map ff_path (failed r)
  | Skipped => map rf_path (skipped r)
  | Missing => missing r
  end.

(** The path under which a candidate shows in a bucket. *)
Definition item_key (i : FileDownloader.item) (b : bucket) : path :=
  match b with
  | Successful => FileDownloader.item_target i
  | _ => FileDownloader.item_source i
  end.

Definition in_bucket (i : FileDownloader.item) (r : DownloadResult) (b : bucket) : Prop :=
  item_key i b ∈ bucket_paths r b.

Definition total_entries (r : DownloadResult) : nat :=
  length (successful r) + length (failed r) + length (skipped r) + length (missing r).

(** The partition of P1: every candidate is in exactly one bucket, every
    entry of a bucket is a candidate, the buckets of source references are
    pairwise disjoint, and there are as many entries as candidates. *)
Definition partitions (items : list FileDownloader.item) (r : DownloadResult) : Prop :=
  (forall i, i ∈ items -> exists b, in_bucket i r b /\ forall b', in_bucket i r b' -> b' = b)
  /\ (forall b p, p ∈ bucket_paths r b -> exists i, i ∈ items /\ item_key i b = p)
  /\ (forall b b' p, b <> Successful -> b' <> Successful ->
        p ∈ bucket_paths r b -> p ∈ bucket_paths r b' -> b = b')
  /\ total_entries r = length items.

(** The invariant of the loop, over the candidates processed so far. *)
Definition covers (done : list FileDownloader.item) (r : DownloadResult) : Prop :=
  (forall i, i ∈ done -> exists b, in_bucket i r b /\ forall b', in_bucket i r b' -> b' = b)
  /\ (forall b p, p ∈ bucket_paths r b -> exists i, i ∈ done /\ item_key i b = p)
  /\ total_entries r = length done.

Definition resolved (self : FileDownloader.t) (tmp : option path)
    (items : list FileDownloader.item) : Prop :=
  forall i, i ∈ items -> exists f, FileDownloader.resolve_item self tmp f = inr i.

(** [m] relates every world it starts from to the world it leaves,
    returning or raising. *)
Definition keeps {A} (R : World -> World -> Prop) (m : M A) : Prop :=
  forall w, R w (world_of (m w)).

(** The calls made from [w] to [w'] all satisfy [P]. *)
Definition logs (P : Op -> Prop) (w w' : World) : Prop :=
  exists new, calls w' = new ++ calls w /\ Forall (fun c => P c.1) new.

(** Calls that only look, or at most create a directory. *)
Definition is_check (op : Op) : Prop :=
  match op with
  | ConnCheck | ConnPathExists _ | ConnGetFile _ | ConnGetDirectory _ | ConnWalk _
  | LocalExists _ | LocalIsDir _ | LocalMkdir _ _ _ | StoreGet _ => True
  | _ => False
  end.

(** From [w] to [w'] only checks were made: no local file, no remote file
    and no stored HWM changed, and the only directories that may have
    appeared are [lp] and its ancestors, and none when [lp] was there. *)
Definition only_checks (lp : path) (w w' : World) : Prop :=
  local_files w' = local_files w
  /\ remote w' = remote w
  /\ hwm_store w' = hwm_store w
  /\ local_dirs w ⊆ local_dirs w'
  /\ local_dirs w' ⊆ local_dirs w ∪ list_to_set (self_and_parents lp)
  /\ (lp ∈ local_dirs w -> local_dirs w' = local_dirs w)
  /\ logs is_check w w'.

(** The shapes [_validate_files] refuses. *)
Definition bad_shape (self : FileDownloader.t) (f : path) : Prop :=
  match FileDownloader.source_path self with
  | Some sp => is_absolute f = true /\ sp ∉ parents f
  | None => is_absolute f = false
  end.

(** The part of [run] that transfers: the loop, with or without HWM. *)
Definition download_phase (faults : Faults) (self : FileDownloader.t)
    (items : list FileDownloader.item) : M DownloadResult :=
  match FileDownloader.hwm_type self with
  | Some _ => FileDownloader._hwm_processing faults self items
  | None => FileDownloader._download_files faults self items None
  end.

(** [run] from the loop on. *)
Definition run_download (faults : Faults) (gtp : path -> path) (self : FileDownloader.t)
    (items : list FileDownloader.item) : M DownloadResult :=
  result <- download_phase faults self items ;;
  (match gtp <$> FileDownloader.temp_path self with
   | Some d => FileDownloader._remove_temp_dir faults d
   | None => ret tt
   end) ;;
  ret result.

(** Calls that are not [rmtree]. *)
Definition not_rmtree (op : Op) : Prop :=
  match op with LocalRmtree _ => False | _ => True end.

(** What [rmtree p] leaves. *)
Definition cleared (p : path) (w : World) : World :=
  set_local_dirs (filter (fun q => is_under p q = false) (local_dirs w))
    (set_local_files (filter (fun kv => is_under p kv.1 = false) (local_files w)) w).

(** Calls that only look. *)
Definition is_look (op : Op) : Prop :=
  match op with
  | ConnPathExists _ | ConnGetFile _ | LocalExists _ => True
  | _ => False
  end.

(** The target holds what it held, or nothing, or the whole source. *)
Definition target_kept (local_file : path) (data : string) (w w' : World) : Prop :=
  local_files w' !! local_file = local_files w !! local_file
  \/ local_files w' !! local_file = None
  \/ local_files w' !! local_file = Some (Complete data).

(** The calls from [w] to [w']. *)
Definition extends (w w' : World) : Prop := exists post, calls w' = post ++ calls w.

(** What [transfer] does after the download into the temporary path. *)
Definition swap_in (faults : Faults) (local_file tmp : path) (replace : bool) : M unit :=
  (if replace
   then ex <- local_exists faults local_file ;;
        if ex then local_unlink faults local_file else ret tt
   else ret tt) ;;
  local_mkdir faults (parent local_file) true true ;;
  local_move faults tmp local_file.

(** The local files are the same and calls were only added. *)
Definition local_same (w w' : World) : Prop :=
  local_files w' = local_files w /\ extends w w'.

(** Induction over a remote tree, children included. *)
Fixpoint rnode_ind' (P : rnode -> Prop)
    (HF : forall nm st data, P (RFile nm st data))
    (HD : forall nm ch, Forall P ch -> P (RDir nm ch)) (n : rnode) : P n :=
  match n with
  | RFile nm st data => HF nm st data
  | RDir nm ch =>
      HD nm ch
         ((fix all (l : list rnode) : Forall P l :=
             match l with
             | [] => @List.Forall_nil _ P
             | c :: l' => @List.Forall_cons _ P c l' (rnode_ind' P HF HD c) (all l')
             end) ch)
  end.

(** The files a walk listed. *)
Definition total_files (items : list walk_item) : nat :=
  foldr (fun it acc => length it.2 + acc) 0 items.

(** The world once the source and the target were looked at. *)
Definition looked_at (source_file local_file : path) (w : World) : World :=
  log_call (LocalExists local_file) None
    (log_call (ConnGetFile source_file) None
       (log_call (ConnPathExists source_file) None w)).

(** A limit that counts files up to [n]: from the state [st], [listed]
    more files lead to [st'], and the count stays within [n]. *)
Definition counted {S : Type} (count : S -> nat) (n : nat)
    (st : S) (listed : nat) (st' : S) : Prop :=
  count st' = count st + listed /\ (count st <= n -> count st' <= n).

(** ** Concrete worlds used in examples *)

Module Examples.

Definition stat1 : Stat := {| st_size := 3%N; st_mtime := 0%N |}.

(** [/remote/a.txt], [/remote/b.txt], [/remote/sub/b.txt], [/other/a.txt]
    and [/data/x.txt]. *)
Definition remote_tree : rnode :=
  RDir EmptyString
    [RDir "remote" [RFile "a.txt" stat1 "AAA"; RFile "b.txt" stat1 "BBB";
                    RDir "sub" [RFile "b.txt" stat1 "SUB"]];
     RDir "other" [RFile "a.txt" stat1 "ZZZ"];
     RDir "data" [RFile "x.txt" stat1 "XXX"]].

Definition snapshot : Strategy :=
  {| is_HWMStrategy := false; is_BatchHWMStrategy := false; offset := None |}.
Definition incremental : Strategy :=
  {| is_HWMStrategy := true; is_BatchHWMStrategy := false; offset := None |}.
Definition incremental_batch : Strategy :=
  {| is_HWMStrategy := true; is_BatchHWMStrategy := true; offset := None |}.

Definition world (s : Strategy) (files : gmap path file_data) (dirs : gset path) : World :=
  {| remote := remote_tree; local_files := files; local_dirs := dirs;
     hwm_store := ∅; current_strategy := s; hwm_cell := None; calls := [] |}.

Definition temp_dir (p : path) : path := p // rel_path ["onetl"; "run"].

Definition ftp : FileDownloader.BaseFileConnection :=
  {| FileDownloader.instance_url := "ftp://host:21" |}.

Definition file_list : FileDownloader.hwm_class :=
  {| FileDownloader.class_name := "file_list"; FileDownloader.class_is_FileHWM := true |}.

Definition downloader (source_path temp_path : option path) (m : FileWriteMode)
    (delete_source : bool) (hwm_type : option FileDownloader.hwm_class) : FileDownloader.t :=
  {| FileDownloader.connection := ftp;
     FileDownloader.local_path := abs_path ["local"];
     FileDownloader.source_path := source_path;
     FileDownloader.temp_path := temp_path;
     FileDownloader.filter := None;
     FileDownloader.limit := FileDownloader.default_limit;
     FileDownloader.hwm_type := hwm_type;
     FileDownloader.options :=
       {| FileDownloader.mode := m; FileDownloader.delete_source := delete_source |} |}.

Definition remote_dir : path := abs_path ["remote"].
Definition a_txt : path := abs_path ["remote"; "a.txt"].
Definition b_txt : path := abs_path ["remote"; "b.txt"].
Definition other_a_txt : path := abs_path ["other"; "a.txt"].
Definition local_dir : path := abs_path ["local"].
Definition local_a_txt : path := abs_path ["local"; "a.txt"].
Definition local_b_txt : path := abs_path ["local"; "b.txt"].

(** The connection drops while [a.txt] is being transferred: [get_file]
    answered during validation and raises from the eighth call on. *)
Definition get_file_drops : Faults :=
  fun n op =>
    if bool_decide (op = ConnGetFile a_txt) && bool_decide (8 <= n)
    then Some (Fails (ExternalError "connection reset"))
    else None.

(** Two files of the same name, downloaded flat into [/local]. *)
Definition flat : FileDownloader.t := downloader None None OVERWRITE false None.
Definition empty_world : World := world snapshot ∅ ∅.
Definition same_name_files : list path := [a_txt; other_a_txt].
Definition same_name_items : list FileDownloader.item :=
  [(a_txt, local_a_txt, None); (other_a_txt, local_a_txt, None)].
Definition same_name_result : DownloadResult :=
  {| successful := [local_a_txt]; failed := []; skipped := []; missing := [] |}.

Definition flat_error : FileDownloader.t := downloader None None ERROR false None.
Definition same_name_error_result : DownloadResult :=
  {| successful := [local_a_txt];
     failed := [{| ff_path := other_a_txt; ff_stats := stat1;
                   ff_exception := FileExistsError local_a_txt |}];
     skipped := []; missing := [] |}.

(** Scenario B of the spec: one file is there, one is not. *)
Definition mirror : FileDownloader.t := downloader (Some remote_dir) None ERROR false None.
Definition gone_txt : path := abs_path ["remote"; "gone.txt"].
Definition scenario_b_files : list path := [a_txt; gone_txt].
Definition scenario_b_items : list FileDownloader.item :=
  [(a_txt, local_a_txt, None); (gone_txt, abs_path ["local"; "gone.txt"], None)].
Definition scenario_b_result : DownloadResult :=
  {| successful := [local_a_txt]; failed := []; skipped := []; missing := [gone_txt] |}.

(** Scenario C of the spec: [/local/a.txt] is there with other content. *)
Definition overwriting : FileDownloader.t :=
  downloader (Some remote_dir) None OVERWRITE false None.
Definition stale_world : World :=
  world snapshot {[ local_a_txt := (Complete "old") ]} {[ local_dir; abs_path [] ]}.

Definition hwm0 : HWM :=
  {| hwm_is_file := true; qualified_name := "file_list#/remote@ftp://host:21";
     hwm_value := [] |}.
Definition tracked_world : World :=
  {| remote := remote_tree; local_files := ∅; local_dirs := {[ local_dir; abs_path [] ]};
     hwm_store := ∅; current_strategy := incremental; hwm_cell := Some hwm0;
     calls := [] |}.

(** The disk fills up while [a.txt] is being staged. *)
Definition disk_full : Faults :=
  fun _ op =>
    match op with
    | ConnDownloadFile _ _ _ => Some (FailsMidway (ExternalError "disk full"))
    | _ => None
    end.
Definition tmp_a_txt : path := abs_path ["tmp"; "onetl"; "run"; "a.txt"].
Definition staging_out : outcome DownloadResult :=
  FileDownloader._download_file disk_full overwriting a_txt local_a_txt (Some tmp_a_txt)
    empty_result None stale_world.

(** A remote directory of 150 files. *)
Definition crowded_tree : rnode :=
  RDir EmptyString
    [RDir "remote"
       (map (fun i => RFile (String (Ascii.ascii_of_nat (40 + i)) ".txt") stat1 "data")
            (seq 0 150))].
Definition crowded_world : World :=
  {| remote := crowded_tree; local_files := ∅; local_dirs := ∅; hwm_store := ∅;
     current_strategy := snapshot; hwm_cell := None; calls := [] |}.

End Examples.

(** ** Vocabulary of the further properties *)

(** *** Calls a run may make *)

(** [m] keeps [R], and what it returns satisfies [Q]. *)
Definition keeps_post {A} (R : World -> World -> Prop) (Q : A -> Prop) (m : M A) : Prop :=
  keeps R m /\ forall w a w', m w = Ok a w' -> Q a.

(** From [w] to [w'] only calls that [P] allows were made, and what no
    allowed call can change is as it was: the remote tree when no
    [remove_file] is allowed, the HWM store when no [save] is, the
    in-memory HWM when no [update] is. *)
Definition within (P : Op -> Prop) (w w' : World) : Prop :=
  logs P w w'
  /\ current_strategy w' = current_strategy w
  /\ ((forall p, ~ P (ConnRemoveFile p)) -> remote w' = remote w)
  /\ ((forall h, ~ P (StoreSave h)) -> hwm_store w' = hwm_store w)
  /\ ((forall p, ~ P (HwmUpdate p)) -> hwm_cell w' = hwm_cell w).

(** The external calls [run] can make, by the configuration of the
    downloader and by whether a file collection was passed. *)
Definition may_call (gtp : path -> path) (self : FileDownloader.t)
    (files : option (list path)) (op : Op) : Prop :=
  let opts := FileDownloader.options self in
  let replacing :=
    FileDownloader.mode opts = OVERWRITE \/ FileDownloader.mode opts = DELETE_ALL in
  match op with
  | ConnCheck | ConnPathExists _ | ConnGetFile _ | LocalExists _ | LocalIsDir _
  | LocalMkdir _ _ _ => True
  | ConnGetDirectory p => FileDownloader.source_path self = Some p
  | ConnWalk p => files = None /\ FileDownloader.source_path self = Some p
  | ConnDownloadFile _ _ replace => replace = true -> replacing
  | ConnRemoveFile _ => FileDownloader.delete_source opts = true
  | LocalUnlink _ => replacing /\ is_Some (FileDownloader.temp_path self)
  | LocalMove _ _ => is_Some (FileDownloader.temp_path self)
  | LocalRmtree p =>
      (FileDownloader.mode opts = DELETE_ALL /\ p = FileDownloader.local_path self)
      \/ gtp <$> FileDownloader.temp_path self = Some p
  | StoreGet _ | StoreSave _ | HwmUpdate _ => is_Some (FileDownloader.hwm_type self)
  end.


(** Calls that reach the HWM store or the in-memory HWM. *)
Definition is_hwm_call (op : Op) : Prop :=
  match op with StoreGet _ | StoreSave _ | HwmUpdate _ => True | _ => False end.

(** Calls that put a file where one may be already, or take one away. *)
Definition is_replacing (op : Op) : Prop :=
  match op with
  | ConnDownloadFile _ _ replace => replace = true
  | LocalUnlink _ => True
  | _ => False
  end.

(** The last external call made, with the exception it raised if any. *)
Definition last_call (w : World) : option (Op * option exn) := head (calls w).

(** [p] is [base] or lies below it, component by component. *)
Definition extends_path (base p : path) : Prop :=
  is_absolute p = is_absolute base /\ exists l, parts p = parts base ++ l.

(** *** Enumeration and the file HWM *)

(** What a walk lists of one directory [root]: the directory lies at or
    below [base], and every file listed passed the filters. *)
Definition listed_below (filters : list BaseFileFilter) (base : path) (it : walk_item)
  : Prop :=
  extends_path base it.1.1
  /\ forall nm st, (nm, st) ∈ it.2 -> accepted filters (EFile (it.1.1 // rel_path [nm]) st) = true.

(** The qualified name of the file HWM of a downloader, as [_get_hwm]
    builds it from the HWM class, the source path and the connection. *)
Definition file_hwm_name (self : FileDownloader.t) (c : FileDownloader.hwm_class)
    (sp : path) : string :=
  FileDownloader.class_name c +:+ "#" +:+ FileDownloader.render sp +:+ "@"
  +:+ FileDownloader.instance_url (FileDownloader.connection self).

(** The HWM without any file yet. *)
Definition file_hwm_empty (self : FileDownloader.t) (c : FileDownloader.hwm_class)
    (sp : path) : HWM :=
  {| hwm_is_file := FileDownloader.class_is_FileHWM c;
     qualified_name := file_hwm_name self c sp; hwm_value := [] |}.

(** The two calls by which [_validate_files] looks at a candidate. *)
Definition is_validation_call (op : Op) : Prop :=
  match op with ConnPathExists _ | ConnGetFile _ => True | _ => False end.

(** A downloader that stages its files below [/tmp]. *)
Definition staged_downloader : FileDownloader.t :=
  Examples.downloader (Some Examples.remote_dir) (Some (abs_path ["tmp"])) ERROR false None.

(** *** Order of removal and download *)

(** A stretch of the call log, newest call first, in which every
    [remove_file] of a source comes after a [download_file] of that source
    that returned, with no call failing in between. *)
Definition removes_follow_downloads (new : list (Op * option exn)) : Prop :=
  forall post p e pre,
    new = post ++ (ConnRemoveFile p, e) :: pre ->
    exists mid dst replace pre',
      pre = mid ++ (ConnDownloadFile p dst replace, None) :: pre'
      /\ Forall (fun c => c.2 = None) mid.

(** The calls from [w] to [w'] are such a stretch. *)
Definition removes_after_downloads (w w' : World) : Prop :=
  exists new, calls w' = new ++ calls w /\ removes_follow_downloads new.

Definition not_remove (op : Op) : Prop := forall p, op <> ConnRemoveFile p.

(** *** The file HWM in memory and in the store *)

(** An incremental downloader that leaves the source files where they are. *)
Definition incremental_mirror : FileDownloader.t :=
  Examples.downloader (Some Examples.remote_dir) None ERROR false (Some Examples.file_list).


(** The file HWM stored under [nm] covers the path [x]. *)
Definition covered (nm : string) (w : World) (x : path) : Prop :=
  exists h, hwm_store w !! nm = Some h /\ hwm_is_file h = true /\ x ∈ hwm_value h.

(** The in-memory HWM is a file HWM named [nm] and holds every file the
    HWM stored under [nm] holds. *)
Definition hwm_ahead (nm : string) (w : World) : Prop :=
  exists h, hwm_cell w = Some h /\ qualified_name h = nm /\ hwm_is_file h = true
            /\ forall h', hwm_store w !! nm = Some h' ->
                          hwm_is_file h' = true
                          /\ forall x, x ∈ hwm_value h' -> x ∈ hwm_value h.

(** From [w] to [w'] the in-memory HWM stays ahead of the store and the
    store loses no file. *)
Definition hwm_grows (nm : string) (w w' : World) : Prop :=
  hwm_ahead nm w ->
  hwm_ahead nm w' /\ forall x, covered nm w x -> covered nm w' x.

(** ** The HDFS connection

    After [onetl/connection/file_connection/hdfs_connection.py]. The
    clients of the [hdfs] library and [kinit] are outside the sources: they
    are parameters here, each a function of the state of the cluster. *)

Module HDFS.

Inductive error :=
| ValueError (msg : string)
| HdfsError (msg : string)
| ClientError (tag : string).

(** The dataclass; [host] and [password] are fields of the base. *)
Record t := {
  host : string;
  password : option string;
  port : Z;
  user : string;
  keytab : option string;
  timeout : option Z
}.

(** Python truthiness of an optional string. *)
Definition given (s : option string) : bool :=
  match s with
  | Some x => negb (bool_decide (x = EmptyString))
  | None => false
  end.

Definition __post_init__ (self : t) : error + unit :=
  if given (password self) && given (keytab self)
  then inl (ValueError "Please provide only `keytab` or only `password` for kinit")
  else inr tt.

(** Construction: the fields left out take their defaults, then
    [__post_init__] runs. *)
Definition create (host : string) (password : option string) (port : option Z)
    (user : option string) (keytab : option string) (timeout : option Z) : error + t :=
  let self := {| host := host; password := password; port := default 50070%Z port;
                 user := default EmptyString user; keytab := keytab;
                 timeout := timeout |} in
  match __post_init__ self with
  | inl e => inl e
  | inr _ => inr self
  end.

(** The two clients of the library. *)
Inductive client :=
| KerberosClient (url : string) (timeout : option Z)
| InsecureClient (url : string) (user : string).

(** What [client.status] answers for a path that is there. *)
Record FileStatus := { fs_type : string }.

Definition conn_str (self : t) : string :=
  "http://" +:+ host self +:+ ":" +:+ NilZero.string_of_int (Z.to_int (port self)).

Section Methods.
(** The state of the cluster and of the Kerberos ticket cache. *)
Context {S : Type}.
Context (kinit : string -> option string -> option string -> S -> (error + unit) * S).
Context (status : client -> path -> bool -> S -> (error + option FileStatus) * S).
Context (delete : client -> path -> bool -> S -> (error + bool) * S).

Definition get_client (self : t) (s : S) : (error + client) * S :=
  let after_kinit :=
    if given (keytab self) || given (password self)
    then match kinit (user self) (keytab self) (password self) s with
         | (inl e, s1) => (inl e, s1)
         | (inr _, s1) => (inr (KerberosClient (conn_str self) (timeout self)), s1)
         end
    else (inr (InsecureClient (conn_str self) (user self)), s) in
  match after_kinit with
  | (inl e, s1) => (inl e, s1)
  | (inr cl, s1) =>
      match status cl (abs_path []) true s1 with
      | (inl e, s2) => (inl e, s2)
      | (inr _, s2) => (inr cl, s2)
      end
  end.

(** [path_exists]: what [status(path, strict=False)] answers, [None] for
    a path that is not there. *)
Definition path_exists (cl : client) (target_hdfs_path : path) (s : S)
  : (error + option FileStatus) * S :=
  status cl target_hdfs_path false s.

Definition remove_file (cl : client) (remote_file_path : path) (s : S)
  : (error + unit) * S :=
  match path_exists cl remote_file_path s with
  | (inl e, s1) => (inl e, s1)
  | (inr None, s1) => (inl (HdfsError "doesn`t exists"), s1)
  | (inr (Some _), s1) =>
      match delete cl remote_file_path false s1 with
      | (inl e, s2) => (inl e, s2)
      | (inr _, s2) => (inr tt, s2)
      end
  end.

End Methods.

End HDFS.

(** *** The local side of one transfer *)

(** What the transfer of one candidate with target [l] and temporary file
    [t] may change on the local side: directories are only added, and only
    the parent of [l] with its ancestors; when [l] is no directory, every
    file but [l] and [t] is as it was. *)
Definition touches_only (l : path) (t : option path) (w w' : World) : Prop :=
  local_dirs w ⊆ local_dirs w'
  /\ local_dirs w' ⊆ local_dirs w ∪ list_to_set (self_and_parents (parent l))
  /\ (l ∉ local_dirs w -> parts l <> [] ->
      forall q, q <> l -> t <> Some q -> local_files w' !! q = local_files w !! q).

(** The target of candidate [i] holds a whole file in [w]; without
    [delete_source] it is the content the source had in [w0]. *)
Definition holds_source (self : FileDownloader.t) (w0 w : World) (i : FileDownloader.item)
  : Prop :=
  exists data,
    local_files w !! FileDownloader.item_target i = Some (Complete data)
    /\ (FileDownloader.delete_source (FileDownloader.options self) = false ->
        exists nm st, rlookup (parts (FileDownloader.item_source i)) (remote w0)
                      = Some (RFile nm st data)).

(** The connection answers [path_exists] but every [get_file] fails. *)
Definition get_file_fails : Faults :=
  fun _ op =>
    match op with
    | ConnGetFile _ => Some (Fails (ExternalError "connection reset"))
    | _ => None
    end.

(** A downloader that removes the source files it has downloaded. *)
Definition moving_downloader : FileDownloader.t :=
  Examples.downloader (Some Examples.remote_dir) None ERROR true None.

(** * Properties *)

(** ** The monad and the primitive calls *)

Lemma bind_Ok {A B} (m : M A) (k : A -> M B) w a w' :
  m w = Ok a w' -> bind m k w = k a w'.
Proof. intros H. unfold bind. rewrite H. reflexivity. Qed.

Lemma bind_Raise {A B} (m : M A) (k : A -> M B) w e w' :
  m w = Raise e w' -> bind m k w = Raise e w'.
Proof. intros H. unfold bind. rewrite H. reflexivity. Qed.

Lemma bind_bind {A B C} (m : M A) (k1 : A -> M B) (k2 : B -> M C) w :
  bind (bind m k1) k2 w = bind m (fun a => bind (k1 a) k2) w.
Proof. unfold bind. destruct (m w); reflexivity. Qed.

Lemma try_bind_Ok {A B} (m : M A) (k : A -> M B) (h : exn -> M B) w a w1 :
  m w = Ok a w1 -> try_except (bind m k) h w = try_except (k a) h w1.
Proof. intros H. unfold try_except, bind. rewrite H. reflexivity. Qed.

Lemma try_bind_Raise {A B} (m : M A) (k : A -> M B) (h : exn -> M B) w e w1 :
  m w = Raise e w1 -> try_except (bind m k) h w = h e w1.
Proof. intros H. unfold try_except, bind. rewrite H. reflexivity. Qed.

Lemma try_bind_bind {A B C} (m : M A) (k1 : A -> M B) (k2 : B -> M C) h w :
  try_except (bind (bind m k1) k2) h w
  = try_except (bind m (fun a => bind (k1 a) k2)) h w.
Proof. unfold try_except. rewrite bind_bind. reflexivity. Qed.

Lemma call_quiet {A} faults op (sem : World -> exn + (A * World)) w :
  faults (length (calls w)) op = None ->
  call faults op sem w =
  match sem w with
  | inl e => Raise e (log_call op (Some e) w)
  | inr (a, w') => Ok a (log_call op None w')
  end.
Proof. intros H. unfold call. rewrite H. reflexivity. Qed.

(** [run] is its two halves, one after the other. *)
Lemma run_split faults gtp self files w :
  FileDownloader.run faults gtp self files w =
  match run_candidates faults self files w with
  | Raise e w' => Raise e w'
  | Ok [] w' => Ok empty_result w'
  | Ok (f :: fs) w' => run_transfer faults gtp self (f :: fs) w'
  end.
Proof.
  unfold FileDownloader.run, run_candidates, run_transfer, bind.
  destruct (FileDownloader._check_strategy self w) as [[] w1|e w1]; [|reflexivity].
  destruct (bool_decide (files = None) && _); [reflexivity|].
  destruct (FileDownloader._check_local_path faults self w1) as [[] w2|e w2]; [|reflexivity].
  destruct (conn_check faults w2) as [[] w3|e w3]; [|reflexivity].
  set (chk := match FileDownloader.source_path self with
              | Some _ => FileDownloader._check_source_path faults self
              | None => ret tt
              end).
  destruct (chk w3) as [[] w4|e w4]; [|reflexivity].
  destruct files as [fs|].
  - unfold ret. destruct fs; reflexivity.
  - destruct (FileDownloader.view_files faults self w4) as [fs w5|e w5]; [|reflexivity].
    unfold ret. destruct (map rf_path fs); reflexivity.
Qed.

(** ** C5: strategy check *)

(** C5. With [hwm_type] set, [run] raises [ValueError] whenever the current
    strategy is not an HWM strategy, is a batch strategy, or carries an
    offset that Python takes as true; the world it leaves is the one it
    started from, so no external call was made at all. *)
Theorem run_refuses_strategy (faults : Faults) (gtp : path -> path)
    (self : FileDownloader.t) (files : option (list path)) (w : World) :
  is_Some (FileDownloader.hwm_type self) ->
  strategy_refused (current_strategy w) ->
  exists msg, FileDownloader.run faults gtp self files w = Raise (ValueError msg) w.
Proof.
  intros [c Hc] Href.
  unfold FileDownloader.run, bind, FileDownloader._check_strategy.
  rewrite Hc.
  destruct (is_HWMStrategy (current_strategy w)) eqn:Hh; simpl.
  - destruct (truthy (offset (current_strategy w))) eqn:Ho; [eauto|].
    destruct (is_BatchHWMStrategy (current_strategy w)) eqn:Hb; [eauto|].
    destruct Href as [?|[?|?]]; congruence.
  - eauto.
Qed.

(** ** C7: a source file that vanished *)

(** C7. When the source file is gone at transfer time, [_download_file]
    records the candidate as missing and nothing else: the failed bucket is
    as it was, the world only gained the logged [path_exists] call, and the
    loop goes on with the remaining candidates. *)
Theorem vanished_source_is_missing (faults : Faults) (self : FileDownloader.t)
    (source_file local_file : path) (tmp_file : option path)
    (result : DownloadResult) (file_hwm : option FileDownloader.hwm_ref)
    (rest : list FileDownloader.item) (w : World) :
  faults (length (calls w)) (ConnPathExists source_file) = None ->
  rlookup (parts source_file) (remote w) = None ->
  let w' := log_call (ConnPathExists source_file) None w in
  let result' := add_missing source_file result in
  FileDownloader._download_file faults self source_file local_file tmp_file
    result file_hwm w = Ok result' w'
  /\ source_file ∈ missing result'
  /\ failed result' = failed result
  /\ successful result' = successful result
  /\ skipped result' = skipped result
  /\ FileDownloader.download_loop faults self
       ((source_file, local_file, tmp_file) :: rest) result file_hwm w
     = FileDownloader.download_loop faults self rest result' file_hwm w'.
Proof.
  intros Hq Hgone w' result'.
  assert (Hstep : FileDownloader._download_file faults self source_file local_file
                    tmp_file result file_hwm w = Ok result' w').
  { unfold FileDownloader._download_file, bind, conn_path_exists.
    rewrite call_quiet by exact Hq. rewrite Hgone. reflexivity. }
  split; [exact Hstep|].
  split.
  { subst result'. unfold add_missing, oset_add. simpl.
    destruct (decide (source_file ∈ missing result)) as [Hin|Hnin]; [exact Hin|].
    apply elem_of_app. right. apply list_elem_of_singleton. reflexivity. }
  repeat (split; [reflexivity|]).
  simpl. unfold bind at 1. rewrite Hstep. reflexivity.
Qed.

Lemma vanished_source_is_missing_witness :
  FileDownloader._download_file no_faults Examples.mirror Examples.gone_txt
    Examples.local_a_txt None empty_result None Examples.empty_world
  = Ok (add_missing Examples.gone_txt empty_result)
       (log_call (ConnPathExists Examples.gone_txt) None Examples.empty_world).
Proof.
  apply (vanished_source_is_missing no_faults Examples.mirror Examples.gone_txt
           Examples.local_a_txt None empty_result None [] Examples.empty_world);
    reflexivity.
Defined.

(** ** C2: an exception of [get_file] *)

(** C2, at the failing input. The file collection is [/remote/a.txt],
    [/remote/b.txt]; both validate; while [a.txt] is transferred [get_file]
    raises. The handler of [_download_file] then reads the unbound
    [remote_file]: [run] raises [UnboundLocalError], returns no result at
    all, and [b.txt] is never attempted. *)
Theorem get_file_failure_aborts_run :
  let self := Examples.downloader (Some Examples.remote_dir) None ERROR false None in
  let w := Examples.world Examples.snapshot ∅ ∅ in
  let out := FileDownloader.run Examples.get_file_drops Examples.temp_dir self
               (Some [Examples.a_txt; Examples.b_txt]) w in
  raised out = Some (UnboundLocalError "remote_file")
  /\ returned out = None
  /\ forallb (fun c => negb (is_download c)) (calls (world_of out)) = true
  /\ local_files (world_of out) = ∅.
Proof. vm_compute. repeat split; reflexivity. Qed.

(** ** What one call of [_download_file] can return *)

Lemma bind_inv_Ok {A B} (m : M A) (k : A -> M B) w b w' :
  bind m k w = Ok b w' -> exists a w1, m w = Ok a w1 /\ k a w1 = Ok b w'.
Proof.
  unfold bind. destruct (m w) as [a w1|e w1]; [eauto|discriminate].
Qed.

Lemma call_inv_Ok {A} faults op (sem : World -> exn + (A * World)) w a w' :
  call faults op sem w = Ok a w' ->
  exists w1, sem w = inr (a, w1) /\ w' = log_call op None w1.
Proof.
  unfold call. destruct (faults _ _); [discriminate|].
  destruct (sem w) as [e|[a1 w1]]; [discriminate|].
  intros [= <- <-]. eauto.
Qed.

Lemma conn_get_file_path faults p w f w' :
  conn_get_file faults p w = Ok f w' -> rf_path f = p.
Proof.
  unfold conn_get_file. intros H. apply call_inv_Ok in H as (w1 & Hsem & _).
  destruct (rlookup _ _) as [[nm st data|nm ch]|]; try discriminate.
  injection Hsem as <- _. reflexivity.
Qed.

Lemma try_body_Ok faults self f local_file tmp_file result file_hwm w r w' :
  FileDownloader.try_body faults self f local_file tmp_file result file_hwm w = Ok r w' ->
  r = add_skipped f result \/ r = add_successful local_file result.
Proof.
  unfold FileDownloader.try_body. intros H.
  apply bind_inv_Ok in H as (c & w1 & _ & H).
  destruct c as [|replace].
  - injection H as <- _. left; reflexivity.
  - apply bind_inv_Ok in H as (? & w2 & _ & H).
    apply bind_inv_Ok in H as (? & w3 & _ & H).
    injection H as <- _. right; reflexivity.
Qed.

(** Every call of [_download_file] that returns has put the candidate into
    one bucket. *)
Lemma download_file_outcome faults self source_file local_file tmp_file result file_hwm w r w' :
  FileDownloader._download_file faults self source_file local_file tmp_file
    result file_hwm w = Ok r w' ->
  r = add_missing source_file result
  \/ (exists st, r = add_skipped {| rf_path := source_file; rf_stats := st |} result)
  \/ (exists st e, r = add_failed {| ff_path := source_file; ff_stats := st;
                                     ff_exception := e |} result)
  \/ r = add_successful local_file result.
Proof.
  unfold FileDownloader._download_file. intros H.
  apply bind_inv_Ok in H as (ex & w1 & _ & H).
  destruct ex; simpl in H.
  - destruct (conn_get_file faults source_file w1) as [f w2|e w2] eqn:Hget; [|discriminate].
    apply conn_get_file_path in Hget as Hp.
    destruct f as [p st]; simpl in Hp; subst p.
    unfold try_except in H.
    destruct (FileDownloader.try_body _ _ _ _ _ _ _ w2) as [r2 w3|e w3] eqn:Hbody.
    + injection H as <- _. apply try_body_Ok in Hbody as [->| ->]; eauto.
    + injection H as <- _. simpl. right; right; left; eauto.
  - injection H as <- _. left; reflexivity.
Qed.

(** After [get_file] has answered, whatever the [try] block raises is
    caught and recorded in the failed bucket with the exception. *)
Lemma download_file_captures faults self source_file local_file tmp_file result file_hwm
    w w1 f w2 e w3 :
  conn_path_exists faults source_file w = Ok true w1 ->
  conn_get_file faults source_file w1 = Ok f w2 ->
  FileDownloader.try_body faults self f local_file tmp_file result file_hwm w2 = Raise e w3 ->
  FileDownloader._download_file faults self source_file local_file tmp_file
    result file_hwm w
  = Ok (add_failed {| ff_path := rf_path f; ff_stats := rf_stats f; ff_exception := e |}
                   result) w3.
Proof.
  intros H1 H2 H3. unfold FileDownloader._download_file.
  rewrite (bind_Ok _ _ _ _ _ H1). simpl. rewrite H2.
  unfold try_except. rewrite H3. reflexivity.
Qed.

(** When [get_file] itself raises, nothing is recorded: the handler fails. *)
Lemma download_file_get_file_raises faults self source_file local_file tmp_file result
    file_hwm w w1 e w2 :
  conn_path_exists faults source_file w = Ok true w1 ->
  conn_get_file faults source_file w1 = Raise e w2 ->
  FileDownloader._download_file faults self source_file local_file tmp_file
    result file_hwm w
  = Raise (UnboundLocalError "remote_file") w2.
Proof.
  intros H1 H2. unfold FileDownloader._download_file.
  rewrite (bind_Ok _ _ _ _ _ H1). simpl. rewrite H2. reflexivity.
Qed.

(** ** C1: the buckets partition the candidates *)

Lemma oset_add_fresh {A} `{EqDecision A} (x : A) (l : list A) :
  x ∉ l -> oset_add x l = l ++ [x].
Proof. intros H. unfold oset_add. destruct (decide (x ∈ l)); [contradiction|reflexivity]. Qed.

Lemma map_fresh {A B} (f : A -> B) (x : A) (l : list A) :
  f x ∉ map f l -> x ∉ l.
Proof.
  intros H Hin. apply H. apply list_elem_of_In, in_map, list_elem_of_In, Hin.
Qed.

(** A call that returns appends the candidate's key to one bucket, when
    that key is new to every bucket. *)
Lemma download_file_appends faults self s l t result file_hwm w r w' :
  (forall b, item_key (s, l, t) b ∉ bucket_paths result b) ->
  FileDownloader._download_file faults self s l t result file_hwm w = Ok r w' ->
  exists b, bucket_paths r b = bucket_paths result b ++ [item_key (s, l, t) b]
            /\ (forall b', b' <> b -> bucket_paths r b' = bucket_paths result b')
            /\ total_entries r = S (total_entries result).
Proof.
  intros Hfresh H.
  apply download_file_outcome in H as [->|[[st ->]|[[st [e ->]]| ->]]].
  - exists Missing. pose proof (Hfresh Missing) as Hf. simpl in Hf.
    unfold total_entries; simpl. rewrite (oset_add_fresh _ _ Hf).
    split; [reflexivity|]. split; [intros [] ?; try reflexivity; congruence|].
    rewrite length_app; simpl; lia.
  - exists Skipped. pose proof (Hfresh Skipped) as Hf. simpl in Hf.
    unfold total_entries; simpl.
    rewrite (oset_add_fresh {| rf_path := s; rf_stats := st |} (skipped result))
      by (apply (map_fresh rf_path); exact Hf).
    rewrite map_app. split; [reflexivity|].
    split; [intros [] ?; try reflexivity; congruence|].
    rewrite length_app; simpl; lia.
  - exists Failed. pose proof (Hfresh Failed) as Hf. simpl in Hf.
    unfold total_entries; simpl.
    rewrite (oset_add_fresh {| ff_path := s; ff_stats := st; ff_exception := e |}
                            (failed result))
      by (apply (map_fresh ff_path); exact Hf).
    rewrite map_app. split; [reflexivity|].
    split; [intros [] ?; try reflexivity; congruence|].
    rewrite length_app; simpl; lia.
  - exists Successful. pose proof (Hfresh Successful) as Hf. simpl in Hf.
    unfold total_entries; simpl. rewrite (oset_add_fresh _ _ Hf).
    split; [reflexivity|]. split; [intros [] ?; try reflexivity; congruence|].
    rewrite length_app; simpl; lia.
Qed.

Lemma item_key_in_keys (i : FileDownloader.item) (l : list FileDownloader.item) b :
  i ∈ l ->
  item_key i b ∈ map (if decide (b = Successful) then FileDownloader.item_target
                      else FileDownloader.item_source) l.
Proof.
  intros Hin. apply list_elem_of_In. apply list_elem_of_In in Hin.
  destruct b; simpl; apply (in_map _ _ _ Hin).
Qed.

Lemma covers_step done i r r' :
  FileDownloader.item_source i ∉ map FileDownloader.item_source done ->
  FileDownloader.item_target i ∉ map FileDownloader.item_target done ->
  covers done r ->
  (exists b, bucket_paths r' b = bucket_paths r b ++ [item_key i b]
             /\ (forall b', b' <> b -> bucket_paths r' b' = bucket_paths r b')
             /\ total_entries r' = S (total_entries r)) ->
  covers (done ++ [i]) r'.
Proof.
  intros Hs Ht (Hone & Hfrom & Hlen) (b & Hb & Hother & Hlen').
  assert (Hfresh : forall b0 j, j ∈ done -> item_key j b0 <> item_key i b0).
  { intros b0 j Hj Heq.
    pose proof (item_key_in_keys j done b0 Hj) as Hk. rewrite Heq in Hk.
    destruct b0; simpl in Hk; contradiction. }
  assert (Hnew : forall b0, item_key i b0 ∉ bucket_paths r b0).
  { intros b0 Hin. destruct (Hfrom _ _ Hin) as (j & Hj & Heq).
    exact (Hfresh b0 j Hj Heq). }
  assert (Hmem : forall j b0, in_bucket j r' b0 <->
                              in_bucket j r b0 \/ (b0 = b /\ item_key j b = item_key i b)).
  { intros j b0. unfold in_bucket. destruct (decide (b0 = b)) as [->|Hne].
    - rewrite Hb, elem_of_app, list_elem_of_singleton. tauto.
    - rewrite (Hother _ Hne). split; [tauto|]. intros [?|[? _]]; [assumption|contradiction]. }
  split; [|split].
  - intros j Hj. apply elem_of_app in Hj as [Hj|Hj].
    + destruct (Hone j Hj) as (bj & Hin & Huniq). exists bj. split.
      * apply Hmem. left; exact Hin.
      * intros b' Hb'. apply Hmem in Hb' as [Hb'|[_ Heq]]; [exact (Huniq _ Hb')|].
        exfalso. exact (Hfresh b j Hj Heq).
    + apply list_elem_of_singleton in Hj as ->. exists b. split.
      * apply Hmem. right; split; reflexivity.
      * intros b' Hb'. apply Hmem in Hb' as [Hb'|[Heq _]]; [|exact Heq].
        exfalso. exact (Hnew b' Hb').
  - intros b0 p Hp. destruct (decide (b0 = b)) as [->|Hne].
    + rewrite Hb in Hp. apply elem_of_app in Hp as [Hp|Hp].
      * destruct (Hfrom _ _ Hp) as (j & Hj & Heq). exists j. split; [|exact Heq].
        apply elem_of_app; left; exact Hj.
      * apply list_elem_of_singleton in Hp as ->. exists i. split; [|reflexivity].
        apply elem_of_app; right. apply list_elem_of_singleton. reflexivity.
    + rewrite (Hother _ Hne) in Hp. destruct (Hfrom _ _ Hp) as (j & Hj & Heq).
      exists j. split; [|exact Heq]. apply elem_of_app; left; exact Hj.
  - rewrite Hlen', Hlen, length_app. simpl. lia.
Qed.

Lemma download_loop_covers faults self file_hwm items :
  forall done r w r' w',
    NoDup (map FileDownloader.item_source (done ++ items)) ->
    NoDup (map FileDownloader.item_target (done ++ items)) ->
    covers done r ->
    FileDownloader.download_loop faults self items r file_hwm w = Ok r' w' ->
    covers (done ++ items) r'.
Proof.
  induction items as [|[[s l] t] rest IH]; intros done r w r' w' Hs Ht Hcov Hrun.
  - simpl in Hrun. injection Hrun as <- _. rewrite app_nil_r. exact Hcov.
  - simpl in Hrun. apply bind_inv_Ok in Hrun as (r1 & w1 & Hstep & Hrun).
    assert (Hs' : s ∉ map FileDownloader.item_source done).
    { rewrite map_app in Hs. apply NoDup_app in Hs as (_ & Hd & _).
      intros Hin. apply (Hd _ Hin). simpl. apply list_elem_of_here. }
    assert (Ht' : l ∉ map FileDownloader.item_target done).
    { rewrite map_app in Ht. apply NoDup_app in Ht as (_ & Hd & _).
      intros Hin. apply (Hd _ Hin). simpl. apply list_elem_of_here. }
    assert (Hnew : forall b, item_key (s, l, t) b ∉ bucket_paths r b).
    { intros b Hin. destruct Hcov as (_ & Hfrom & _).
      destruct (Hfrom _ _ Hin) as (j & Hj & Heq).
      pose proof (item_key_in_keys j done b Hj) as Hk. rewrite Heq in Hk.
      destruct b; simpl in Hk; contradiction. }
    pose proof (download_file_appends _ _ _ _ _ _ _ _ _ _ Hnew Hstep) as Happ.
    pose proof (covers_step done (s, l, t) r r1 Hs' Ht' Hcov Happ) as Hcov1.
    pose proof (IH (done ++ [(s, l, t)]) r1 w1 r' w') as IH'.
    rewrite <- !app_assoc in IH'. simpl in IH'.
    exact (IH' Hs Ht Hcov1 Hrun).
Qed.

Lemma covers_partitions items r :
  NoDup (map FileDownloader.item_source items) -> covers items r -> partitions items r.
Proof.
  intros Hnd (Hone & Hfrom & Hlen). split; [exact Hone|]. split; [exact Hfrom|].
  split; [|exact Hlen].
  intros b b' p Hb Hb' Hp Hp'.
  destruct (Hfrom _ _ Hp) as (i & Hi & Hki).
  destruct (Hfrom _ _ Hp') as (j & Hj & Hkj).
  assert (Hsi : FileDownloader.item_source i = p) by (destruct b; [congruence|exact Hki..]).
  assert (Hsj : FileDownloader.item_source j = p) by (destruct b'; [congruence|exact Hkj..]).
  assert (i = j) as <-.
  { apply list_elem_of_lookup in Hi as (n & Hn). apply list_elem_of_lookup in Hj as (m & Hm).
    assert (n = m) as <-.
    { apply (NoDup_lookup _ n m p Hnd); rewrite list_lookup_fmap.
      - rewrite Hn. simpl. congruence.
      - rewrite Hm. simpl. congruence. }
    congruence. }
  destruct (Hone i Hi) as (bi & _ & Huniq).
  assert (in_bucket i r b) as H1 by (unfold in_bucket; rewrite Hki; exact Hp).
  assert (in_bucket i r b') as H2 by (unfold in_bucket; rewrite Hkj; exact Hp').
  rewrite (Huniq _ H1), (Huniq _ H2). reflexivity.
Qed.

(** When the candidates have pairwise distinct sources and pairwise
    distinct targets, every [_download_files] that returns has partitioned
    them over the four buckets. *)
Theorem download_files_partition (faults : Faults) (self : FileDownloader.t)
    (to_download : list FileDownloader.item) (file_hwm : option FileDownloader.hwm_ref)
    (w : World) (r : DownloadResult) (w' : World) :
  NoDup (map FileDownloader.item_source to_download) ->
  NoDup (map FileDownloader.item_target to_download) ->
  FileDownloader._download_files faults self to_download file_hwm w = Ok r w' ->
  partitions to_download r.
Proof.
  intros Hs Ht Hrun. apply covers_partitions; [exact Hs|].
  apply (download_loop_covers faults self file_hwm to_download [] empty_result w r w');
    try assumption.
  split; [|split].
  - intros i Hi. inversion Hi.
  - intros [] p Hp; inversion Hp.
  - reflexivity.
Qed.

(** ** The candidates [_validate_files] hands to the loop *)

Lemma joinpath_relative (a x : path) :
  is_absolute x = false -> a // x = Path (is_absolute a) (parts a ++ parts x).
Proof. intros H. unfold joinpath. rewrite H. reflexivity. Qed.

Lemma joinpath_inj (a x y : path) :
  is_absolute x = false -> is_absolute y = false -> a // x = a // y -> x = y.
Proof.
  intros Hx Hy. rewrite (joinpath_relative a x Hx), (joinpath_relative a y Hy).
  intros [= H]. apply app_inv_head in H.
  destruct x as [ax px], y as [ay py]; simpl in *. congruence.
Qed.

Lemma relative_to_Some p base rel :
  relative_to p base = Some rel ->
  is_absolute rel = false /\ base // rel = p.
Proof.
  unfold relative_to. case_bool_decide as H; [|discriminate].
  destruct H as [Habs Hpre]. intros [= <-]. split; [reflexivity|].
  rewrite joinpath_relative by reflexivity. simpl.
  rewrite <- Hpre at 1. rewrite take_drop. rewrite <- Habs.
  destruct p; reflexivity.
Qed.

(** With a source path, every candidate sits at the same relative position
    below [source_path], [local_path] and the temporary directory. *)
Lemma resolve_item_below self tmp f i sp :
  FileDownloader.source_path self = Some sp ->
  FileDownloader.resolve_item self tmp f = inr i ->
  exists x, is_absolute x = false
            /\ i = (sp // x, FileDownloader.local_path self // x,
                    (fun d => d // x) <$> tmp).
Proof.
  intros Hsp. unfold FileDownloader.resolve_item. rewrite Hsp.
  case_bool_decide as Hin.
  - destruct (relative_to f sp) as [rel|] eqn:Hrel; [|discriminate].
    apply relative_to_Some in Hrel as [Hr Hj]. intros [= <-].
    exists rel. rewrite Hj. split; [exact Hr|reflexivity].
  - destruct (is_absolute f) eqn:Habs; simpl; [discriminate|].
    intros [= <-]. exists f. split; [exact Habs|reflexivity].
Qed.

Lemma resolve_item_flat self tmp f i :
  FileDownloader.source_path self = None ->
  FileDownloader.resolve_item self tmp f = inr i ->
  is_absolute f = true
  /\ i = (f, FileDownloader.local_path self // FileDownloader.str_path (name f),
          (fun d => d // FileDownloader.str_path (name f)) <$> tmp).
Proof.
  intros Hsp. unfold FileDownloader.resolve_item. rewrite Hsp.
  destruct (is_absolute f); simpl; [|discriminate].
  intros [= <-]. split; reflexivity.
Qed.

(** The source decides the whole candidate. *)
Lemma resolve_item_source self tmp f g i j :
  FileDownloader.resolve_item self tmp f = inr i ->
  FileDownloader.resolve_item self tmp g = inr j ->
  FileDownloader.item_source i = FileDownloader.item_source j -> i = j.
Proof.
  intros Hi Hj. destruct (FileDownloader.source_path self) as [sp|] eqn:Hsp.
  - destruct (resolve_item_below _ _ _ _ _ Hsp Hi) as (x & Hx & ->).
    destruct (resolve_item_below _ _ _ _ _ Hsp Hj) as (y & Hy & ->).
    unfold FileDownloader.item_source; simpl. intros Heq.
    apply joinpath_inj in Heq; [subst y; reflexivity|assumption..].
  - destruct (resolve_item_flat _ _ _ _ Hsp Hi) as (_ & ->).
    destruct (resolve_item_flat _ _ _ _ Hsp Hj) as (_ & ->).
    unfold FileDownloader.item_source; simpl. intros ->. reflexivity.
Qed.

(** With a source path, the target decides the source. *)
Lemma resolve_item_target self tmp f g i j :
  is_Some (FileDownloader.source_path self) ->
  FileDownloader.resolve_item self tmp f = inr i ->
  FileDownloader.resolve_item self tmp g = inr j ->
  FileDownloader.item_target i = FileDownloader.item_target j -> i = j.
Proof.
  intros [sp Hsp] Hi Hj.
  destruct (resolve_item_below _ _ _ _ _ Hsp Hi) as (x & Hx & ->).
  destruct (resolve_item_below _ _ _ _ _ Hsp Hj) as (y & Hy & ->).
  unfold FileDownloader.item_target; simpl. intros Heq.
  apply joinpath_inj in Heq; [subst y; reflexivity|assumption..].
Qed.

Lemma oset_add_NoDup {A} `{EqDecision A} (x : A) (l : list A) :
  NoDup l -> NoDup (oset_add x l).
Proof.
  intros H. unfold oset_add. destruct (decide (x ∈ l)) as [|Hn]; [exact H|].
  apply NoDup_app. split; [exact H|]. split; [|apply NoDup_singleton].
  intros y Hy Hy'. apply list_elem_of_singleton in Hy' as ->. contradiction.
Qed.

Lemma elem_of_oset_add {A} `{EqDecision A} (x y : A) (l : list A) :
  y ∈ oset_add x l <-> y ∈ l \/ y = x.
Proof.
  unfold oset_add. destruct (decide (x ∈ l)) as [Hin|Hn].
  - split; [tauto|]. intros [?| ->]; assumption.
  - rewrite elem_of_app, list_elem_of_singleton. tauto.
Qed.

Lemma validate_loop_resolved faults self tmp files :
  forall acc w items w',
    NoDup acc -> resolved self tmp acc ->
    FileDownloader.validate_loop faults self files tmp acc w = Ok items w' ->
    NoDup items /\ resolved self tmp items.
Proof.
  induction files as [|f rest IH]; intros acc w items w' Hnd Hres Hrun; simpl in Hrun.
  - injection Hrun as <- _. split; assumption.
  - destruct (FileDownloader.resolve_item self tmp f) as [e|[[s l] t]] eqn:Hf;
      [discriminate|].
    apply bind_inv_Ok in Hrun as (ex & w1 & _ & Hrun).
    apply bind_inv_Ok in Hrun as (? & w2 & _ & Hrun).
    apply (IH _ _ _ _ (oset_add_NoDup _ _ Hnd)) in Hrun; [exact Hrun|].
    intros i Hi. apply elem_of_oset_add in Hi as [Hi| ->]; [exact (Hres i Hi)|eauto].
Qed.

Lemma NoDup_map_resolved {B} (g : FileDownloader.item -> B) self tmp items :
  (forall f f' i j, FileDownloader.resolve_item self tmp f = inr i ->
                    FileDownloader.resolve_item self tmp f' = inr j ->
                    g i = g j -> i = j) ->
  NoDup items -> resolved self tmp items -> NoDup (map g items).
Proof.
  intros Hinj Hnd. induction Hnd as [|i l Hni Hnd IH]; intros Hres; simpl.
  - apply NoDup_nil_2.
  - apply NoDup_cons. split.
    + intros Hin. apply list_elem_of_fmap in Hin as (j & Heq & Hj).
      destruct (Hres i) as (f & Hf); [apply list_elem_of_here|].
      destruct (Hres j) as (f' & Hf'); [apply list_elem_of_further, Hj|].
      rewrite (Hinj _ _ _ _ Hf Hf' Heq) in Hni. contradiction.
    + apply IH. intros j Hj. apply Hres. apply list_elem_of_further, Hj.
Qed.

(** What [_validate_files] returns has pairwise distinct sources, and with
    a source path pairwise distinct targets as well. *)
Lemma validate_files_distinct faults self tmp files w items w' :
  FileDownloader._validate_files faults self files tmp w = Ok items w' ->
  NoDup (map FileDownloader.item_source items)
  /\ (is_Some (FileDownloader.source_path self) ->
      NoDup (map FileDownloader.item_target items)).
Proof.
  intros Hrun. unfold FileDownloader._validate_files in Hrun.
  apply validate_loop_resolved in Hrun as [Hnd Hres].
  - split.
    + apply (NoDup_map_resolved _ self tmp); [|assumption..].
      intros f f' i j. apply resolve_item_source.
    + intros Hsp. apply (NoDup_map_resolved _ self tmp); [|assumption..].
      intros f f' i j. apply resolve_item_target. exact Hsp.
  - apply NoDup_nil_2.
  - intros i Hi. inversion Hi.
Qed.

Lemma run_transfer_Ok faults gtp self fs w r w' :
  run_transfer faults gtp self fs w = Ok r w' ->
  exists items w2 file_hwm w3 w4,
    FileDownloader._validate_files faults self fs
      (gtp <$> FileDownloader.temp_path self) w = Ok items w2
    /\ FileDownloader._download_files faults self items file_hwm w3 = Ok r w4.
Proof.
  unfold run_transfer. intros H.
  apply bind_inv_Ok in H as (items & w2 & Hval & H).
  apply bind_inv_Ok in H as (? & w3 & _ & H).
  apply bind_inv_Ok in H as (r1 & w4 & Hdl & H).
  apply bind_inv_Ok in H as (? & w5 & _ & H).
  injection H as <- _.
  exists items, w2.
  destruct (FileDownloader.hwm_type self).
  - unfold FileDownloader._hwm_processing in Hdl.
    apply bind_inv_Ok in Hdl as (hw & w6 & _ & Hdl).
    apply bind_inv_Ok in Hdl as (? & w7 & _ & Hdl).
    eauto 6.
  - eauto 6.
Qed.

Lemma partitions_nil : partitions [] empty_result.
Proof.
  split; [|split; [|split]].
  - intros i Hi. inversion Hi.
  - intros [] p Hp; inversion Hp.
  - intros [] [] p ? ? Hp; inversion Hp.
  - reflexivity.
Qed.

(** C1, amended. Take a [run] that returns; its candidates are what
    [_validate_files] made of the files [run] resolved. When a source path
    is configured, or else when the candidates have pairwise distinct
    targets, the four buckets partition the candidates: each candidate is
    in exactly one bucket, each bucket entry is a candidate, the buckets do
    not overlap and hold as many entries as there are candidates. *)
Theorem run_partition (faults : Faults) (gtp : path -> path) (self : FileDownloader.t)
    (files : option (list path)) (w : World) (fs : list path) (w1 : World)
    (items : list FileDownloader.item) (w2 : World) (r : DownloadResult) (w' : World) :
  run_candidates faults self files w = Ok fs w1 ->
  FileDownloader._validate_files faults self fs
    (gtp <$> FileDownloader.temp_path self) w1 = Ok items w2 ->
  is_Some (FileDownloader.source_path self)
  \/ NoDup (map FileDownloader.item_target items) ->
  FileDownloader.run faults gtp self files w = Ok r w' ->
  partitions items r.
Proof.
  intros Hcand Hval Htargets Hrun.
  rewrite run_split, Hcand in Hrun.
  destruct fs as [|f fs].
  - injection Hrun as <- _. injection Hval as <- _. apply partitions_nil.
  - apply run_transfer_Ok in Hrun as (items' & w2' & file_hwm & w3 & w4 & Hval' & Hdl).
    rewrite Hval in Hval'. injection Hval' as <- _.
    destruct (validate_files_distinct _ _ _ _ _ _ _ Hval) as [Hs Ht].
    apply (download_files_partition faults self items file_hwm w3 r w4 Hs); [|exact Hdl].
    destruct Htargets as [Hsp|Hnd]; [exact (Ht Hsp)|exact Hnd].
Qed.

Lemma run_partition_witness :
  partitions Examples.scenario_b_items Examples.scenario_b_result.
Proof.
  apply (run_partition no_faults Examples.temp_dir Examples.mirror
           (Some Examples.scenario_b_files) Examples.empty_world
           Examples.scenario_b_files
           (world_of (run_candidates no_faults Examples.mirror
                        (Some Examples.scenario_b_files) Examples.empty_world))
           Examples.scenario_b_items
           (world_of (FileDownloader._validate_files no_faults Examples.mirror
                        Examples.scenario_b_files None
                        (world_of (run_candidates no_faults Examples.mirror
                                     (Some Examples.scenario_b_files)
                                     Examples.empty_world))))
           Examples.scenario_b_result
           (world_of (FileDownloader.run no_faults Examples.temp_dir Examples.mirror
                        (Some Examples.scenario_b_files) Examples.empty_world))).
  - vm_compute. reflexivity.
  - vm_compute. reflexivity.
  - left. exists Examples.remote_dir. reflexivity.
  - vm_compute. reflexivity.
Defined.

(** C1 as stated fails: without a source path two candidates of the same
    name share one target. Under [overwrite] both are transferred, and the
    buckets hold one entry for two candidates. Under [error] the second one
    is recorded as failed while its target stands in the successful bucket. *)
Lemma run_partition_fails_on_shared_target :
  returned (run_candidates no_faults Examples.flat (Some Examples.same_name_files)
              Examples.empty_world) = Some Examples.same_name_files
  /\ returned (FileDownloader._validate_files no_faults Examples.flat
                 Examples.same_name_files None
                 (world_of (run_candidates no_faults Examples.flat
                              (Some Examples.same_name_files) Examples.empty_world)))
     = Some Examples.same_name_items
  /\ returned (FileDownloader.run no_faults Examples.temp_dir Examples.flat
                 (Some Examples.same_name_files) Examples.empty_world)
     = Some Examples.same_name_result
  /\ ~ partitions Examples.same_name_items Examples.same_name_result
  /\ returned (FileDownloader._validate_files no_faults Examples.flat_error
                 Examples.same_name_files None
                 (world_of (run_candidates no_faults Examples.flat_error
                              (Some Examples.same_name_files) Examples.empty_world)))
     = Some Examples.same_name_items
  /\ returned (FileDownloader.run no_faults Examples.temp_dir Examples.flat_error
                 (Some Examples.same_name_files) Examples.empty_world)
     = Some Examples.same_name_error_result
  /\ in_bucket (Examples.other_a_txt, Examples.local_a_txt, None)
               Examples.same_name_error_result Successful
  /\ in_bucket (Examples.other_a_txt, Examples.local_a_txt, None)
               Examples.same_name_error_result Failed
  /\ ~ partitions Examples.same_name_items Examples.same_name_error_result.
Proof.
  assert (H1 : in_bucket (Examples.other_a_txt, Examples.local_a_txt, None)
                         Examples.same_name_error_result Successful).
  { apply list_elem_of_here. }
  assert (H2 : in_bucket (Examples.other_a_txt, Examples.local_a_txt, None)
                         Examples.same_name_error_result Failed).
  { apply list_elem_of_here. }
  split; [vm_compute; reflexivity|].
  split; [vm_compute; reflexivity|].
  split; [vm_compute; reflexivity|].
  split; [intros (_ & _ & _ & Hlen); vm_compute in Hlen; discriminate|].
  split; [vm_compute; reflexivity|].
  split; [vm_compute; reflexivity|].
  split; [exact H1|]. split; [exact H2|].
  intros (Hone & _).
  destruct (Hone (Examples.other_a_txt, Examples.local_a_txt, None)) as (b & _ & Hb).
  { apply list_elem_of_further, list_elem_of_here. }
  pose proof (Hb _ H1) as E1. pose proof (Hb _ H2) as E2. congruence.
Qed.

Lemma run_refuses_strategy_witness :
  exists msg,
    FileDownloader.run no_faults Examples.temp_dir
      (Examples.downloader (Some Examples.remote_dir) None ERROR false
                           (Some Examples.file_list))
      None Examples.empty_world
    = Raise (ValueError msg) Examples.empty_world.
Proof.
  apply (run_refuses_strategy no_faults Examples.temp_dir
           (Examples.downloader (Some Examples.remote_dir) None ERROR false
                                (Some Examples.file_list))
           None Examples.empty_world).
  - exists Examples.file_list. reflexivity.
  - left. reflexivity.
Defined.

(** ** What a computation leaves of the world *)

Section Keeps.
Context (R : World -> World -> Prop).
Context (R_refl : forall w, R w w).
Context (R_trans : forall w1 w2 w3, R w1 w2 -> R w2 w3 -> R w1 w3).

Lemma keeps_ret {A} (a : A) : keeps R (ret a).
Proof. intros w. apply R_refl. Qed.

Lemma keeps_raise {A} (e : exn) : keeps R (@raise A e).
Proof. intros w. apply R_refl. Qed.

Lemma keeps_bind {A B} (m : M A) (k : A -> M B) :
  keeps R m -> (forall a, keeps R (k a)) -> keeps R (bind m k).
Proof.
  intros Hm Hk w. unfold bind. specialize (Hm w).
  destruct (m w) as [a w1|e w1]; simpl in *; [|exact Hm].
  exact (R_trans _ _ _ Hm (Hk a w1)).
Qed.

Lemma keeps_try_except {A} (m : M A) (h : exn -> M A) :
  keeps R m -> (forall e, keeps R (h e)) -> keeps R (try_except m h).
Proof.
  intros Hm Hh w. unfold try_except. specialize (Hm w).
  destruct (m w) as [a w1|e w1]; simpl in *; [exact Hm|].
  exact (R_trans _ _ _ Hm (Hh e w1)).
Qed.

Lemma keeps_call {A} faults op (sem : World -> exn + (A * World)) :
  (forall w e, R w (log_call op e w)) ->
  (forall w a w1, sem w = inr (a, w1) -> R w (log_call op None w1)) ->
  keeps R (call faults op sem).
Proof.
  intros Hlog Hsem w. unfold call.
  destruct (faults _ _); simpl; [apply Hlog|].
  destruct (sem w) as [e|[a w1]] eqn:Hs; simpl; [apply Hlog|].
  exact (Hsem _ _ _ Hs).
Qed.
End Keeps.

Lemma logs_refl P w : logs P w w.
Proof. exists []. split; [reflexivity|constructor]. Qed.

Lemma logs_trans P w1 w2 w3 : logs P w1 w2 -> logs P w2 w3 -> logs P w1 w3.
Proof.
  intros (n1 & H1 & F1) (n2 & H2 & F2). exists (n2 ++ n1). split.
  - rewrite H2, H1, app_assoc. reflexivity.
  - apply Forall_app. split; assumption.
Qed.

Lemma logs_one P op e w w1 : P op -> calls w1 = calls w -> logs P w (log_call op e w1).
Proof.
  intros HP Hc. exists [(op, e)]. split; [simpl; rewrite Hc; reflexivity|].
  constructor; [exact HP|constructor].
Qed.

(** ** The checks before the transfer *)

Lemma only_checks_refl lp w : only_checks lp w w.
Proof.
  unfold only_checks. split; [reflexivity|]. split; [reflexivity|].
  split; [reflexivity|]. split; [reflexivity|]. split; [set_solver|].
  split; [reflexivity|]. apply logs_refl.
Qed.

Lemma only_checks_trans lp w1 w2 w3 :
  only_checks lp w1 w2 -> only_checks lp w2 w3 -> only_checks lp w1 w3.
Proof.
  intros (F1 & R1 & S1 & D1 & U1 & K1 & L1) (F2 & R2 & S2 & D2 & U2 & K2 & L2).
  unfold only_checks. split; [congruence|]. split; [congruence|].
  split; [congruence|]. split; [set_solver|]. split; [set_solver|].
  split; [|exact (logs_trans _ _ _ _ L1 L2)].
  intros Hin. rewrite <- (K1 Hin). apply K2. rewrite (K1 Hin). exact Hin.
Qed.

Lemma only_checks_log lp op e w : is_check op -> only_checks lp w (log_call op e w).
Proof.
  intros H. unfold only_checks. simpl. split; [reflexivity|]. split; [reflexivity|].
  split; [reflexivity|]. split; [reflexivity|]. split; [set_solver|].
  split; [reflexivity|]. apply logs_one; [exact H|reflexivity].
Qed.

(** A call whose meaning leaves the world as it is. *)
Lemma keeps_probe {A} lp faults op (sem : World -> exn + (A * World)) :
  is_check op ->
  (forall w a w1, sem w = inr (a, w1) -> w1 = w) ->
  keeps (only_checks lp) (call faults op sem).
Proof.
  intros Hop Hsem. apply keeps_call.
  - intros w e. apply only_checks_log, Hop.
  - intros w a w1 Hs. rewrite (Hsem _ _ _ Hs). apply only_checks_log, Hop.
Qed.

Ltac probe :=
  apply keeps_probe; [exact I|];
  let w := fresh in let a := fresh in let w1 := fresh in let H := fresh in
  intros w a w1 H;
  repeat match type of H with
         | context [match ?x with _ => _ end] => destruct x; try discriminate
         end;
  injection H as _ <-; reflexivity.

Lemma keeps_conn_check lp faults : keeps (only_checks lp) (conn_check faults).
Proof. unfold conn_check. probe. Qed.

Lemma keeps_conn_path_exists lp faults p : keeps (only_checks lp) (conn_path_exists faults p).
Proof. unfold conn_path_exists. probe. Qed.

Lemma keeps_conn_get_file lp faults p : keeps (only_checks lp) (conn_get_file faults p).
Proof. unfold conn_get_file. probe. Qed.

Lemma keeps_conn_get_directory lp faults p :
  keeps (only_checks lp) (conn_get_directory faults p).
Proof. unfold conn_get_directory. probe. Qed.

Lemma keeps_conn_walk lp faults root filters limits :
  keeps (only_checks lp) (conn_walk faults root filters limits).
Proof. unfold conn_walk. probe. Qed.

Lemma keeps_local_exists lp faults p : keeps (only_checks lp) (local_exists faults p).
Proof. unfold local_exists. probe. Qed.

Lemma keeps_local_is_dir lp faults p : keeps (only_checks lp) (local_is_dir faults p).
Proof. unfold local_is_dir. probe. Qed.

Lemma keeps_store_get lp faults nm : keeps (only_checks lp) (store_get faults nm).
Proof. unfold store_get. probe. Qed.

Lemma keeps_local_mkdir lp faults b1 b2 :
  keeps (only_checks lp) (local_mkdir faults lp b1 b2).
Proof.
  unfold local_mkdir. apply keeps_call.
  - intros w e. apply only_checks_log. exact I.
  - intros w a w1 Hs.
    assert (lp ∈ (list_to_set (self_and_parents lp) : gset path)) as Hself.
    { apply elem_of_list_to_set. apply list_elem_of_here. }
    case_bool_decide as Hdir.
    { destruct b2; [|discriminate]. injection Hs as _ <-. apply only_checks_log. exact I. }
    repeat match type of Hs with
           | context [if ?x then _ else _] => destruct x; try discriminate
           end;
      injection Hs as _ <-; unfold only_checks; simpl;
      (split; [reflexivity|]; split; [reflexivity|]; split; [reflexivity|];
       split; [set_solver|]; split; [set_solver|];
       split; [intros ?; contradiction|];
       apply logs_one; [exact I|reflexivity]).
Qed.

Create HintDb keeps.
#[local] Hint Resolve only_checks_refl only_checks_trans : keeps.
#[local] Hint Resolve keeps_conn_check keeps_conn_path_exists keeps_conn_get_file
  keeps_conn_get_directory keeps_conn_walk keeps_local_exists keeps_local_is_dir
  keeps_store_get keeps_local_mkdir : keeps.

Ltac keeps_step lp :=
  first
    [ apply (keeps_bind (only_checks lp) (only_checks_trans lp)); [|intros ?]
    | apply (keeps_ret (only_checks lp) (only_checks_refl lp))
    | apply (keeps_raise (only_checks lp) (only_checks_refl lp))
    | apply (keeps_try_except (only_checks lp) (only_checks_trans lp)); [|intros ?]
    | solve [auto with keeps] ].

Lemma keeps_check_strategy self :
  keeps (only_checks (FileDownloader.local_path self)) (FileDownloader._check_strategy self).
Proof.
  intros w. unfold FileDownloader._check_strategy.
  repeat match goal with
         | |- context [match ?x with _ => _ end] => destruct x
         end; apply only_checks_refl.
Qed.

Lemma keeps_check_local_path faults self :
  keeps (only_checks (FileDownloader.local_path self))
        (FileDownloader._check_local_path faults self).
Proof.
  unfold FileDownloader._check_local_path.
  keeps_step (FileDownloader.local_path self); [keeps_step (FileDownloader.local_path self)|].
  keeps_step (FileDownloader.local_path self); [|keeps_step (FileDownloader.local_path self)].
  destruct a; [|keeps_step (FileDownloader.local_path self)].
  keeps_step (FileDownloader.local_path self); [keeps_step (FileDownloader.local_path self)|].
  destruct (negb _); keeps_step (FileDownloader.local_path self).
Qed.

Lemma keeps_check_source_path faults self :
  keeps (only_checks (FileDownloader.local_path self))
        (FileDownloader._check_source_path faults self).
Proof.
  unfold FileDownloader._check_source_path.
  destruct (FileDownloader.source_path self); keeps_step (FileDownloader.local_path self).
Qed.

Lemma keeps_get_hwm faults self :
  keeps (only_checks (FileDownloader.local_path self)) (FileDownloader._get_hwm faults self).
Proof.
  unfold FileDownloader._get_hwm.
  destruct (FileDownloader.hwm_type self); [|keeps_step (FileDownloader.local_path self)].
  destruct (FileDownloader.source_path self); [|keeps_step (FileDownloader.local_path self)].
  keeps_step (FileDownloader.local_path self); [keeps_step (FileDownloader.local_path self)|].
  destruct (hwm_is_file _); keeps_step (FileDownloader.local_path self).
Qed.

Lemma keeps_view_files faults self :
  keeps (only_checks (FileDownloader.local_path self)) (FileDownloader.view_files faults self).
Proof.
  unfold FileDownloader.view_files.
  keeps_step (FileDownloader.local_path self); [apply keeps_check_source_path|].
  keeps_step (FileDownloader.local_path self).
  - destruct (FileDownloader.hwm_type self); [|keeps_step (FileDownloader.local_path self)].
    keeps_step (FileDownloader.local_path self); [apply keeps_get_hwm|].
    keeps_step (FileDownloader.local_path self).
  - keeps_step (FileDownloader.local_path self); [|keeps_step (FileDownloader.local_path self)].
    destruct (FileDownloader.source_path self); [|keeps_step (FileDownloader.local_path self)].
    keeps_step (FileDownloader.local_path self); [keeps_step (FileDownloader.local_path self)|].
    keeps_step (FileDownloader.local_path self).
Qed.

Lemma keeps_run_candidates faults self files :
  keeps (only_checks (FileDownloader.local_path self)) (run_candidates faults self files).
Proof.
  unfold run_candidates.
  keeps_step (FileDownloader.local_path self); [apply keeps_check_strategy|].
  destruct (_ && _); [keeps_step (FileDownloader.local_path self)|].
  keeps_step (FileDownloader.local_path self); [apply keeps_check_local_path|].
  keeps_step (FileDownloader.local_path self); [keeps_step (FileDownloader.local_path self)|].
  keeps_step (FileDownloader.local_path self).
  { destruct (FileDownloader.source_path self);
      [apply keeps_check_source_path|keeps_step (FileDownloader.local_path self)]. }
  destruct files.
  - keeps_step (FileDownloader.local_path self).
  - keeps_step (FileDownloader.local_path self); [apply keeps_view_files|].
    keeps_step (FileDownloader.local_path self).
Qed.

Lemma keeps_validate_loop faults self tmp files :
  forall acc, keeps (only_checks (FileDownloader.local_path self))
                    (FileDownloader.validate_loop faults self files tmp acc).
Proof.
  induction files as [|f rest IH]; intros acc; simpl.
  - keeps_step (FileDownloader.local_path self).
  - destruct (FileDownloader.resolve_item self tmp f) as [e|[[s l] t]];
      [keeps_step (FileDownloader.local_path self)|].
    keeps_step (FileDownloader.local_path self); [keeps_step (FileDownloader.local_path self)|].
    keeps_step (FileDownloader.local_path self); [|apply IH].
    destruct a; [|keeps_step (FileDownloader.local_path self)].
    keeps_step (FileDownloader.local_path self); [keeps_step (FileDownloader.local_path self)|].
    keeps_step (FileDownloader.local_path self).
Qed.

(** ** C9: no candidates *)




(** ** C6: the shapes of an explicit file list *)

Lemma parents_relative_to (sp f : path) :
  sp ∈ parents f -> exists rel, relative_to f sp = Some rel.
Proof.
  unfold parents. intros Hin.
  apply list_elem_of_fmap in Hin as (k & -> & Hk).
  apply list_elem_of_In, in_rev, in_seq in Hk. simpl in Hk.
  unfold relative_to. simpl. rewrite bool_decide_true; [eauto|].
  split; [reflexivity|]. rewrite length_take, Nat.min_l by lia. reflexivity.
Qed.

Lemma bad_shape_refused self tmp f :
  bad_shape self f ->
  exists msg, FileDownloader.resolve_item self tmp f = inl (ValueError msg).
Proof.
  unfold bad_shape, FileDownloader.resolve_item.
  destruct (FileDownloader.source_path self) as [sp|].
  - intros [Ha Hn]. rewrite bool_decide_false by exact Hn. rewrite Ha. simpl. eauto.
  - intros ->. simpl. eauto.
Qed.

Lemma validate_loop_app faults self tmp pre rest :
  forall acc w,
    FileDownloader.validate_loop faults self (pre ++ rest) tmp acc w =
    match FileDownloader.validate_loop faults self pre tmp acc w with
    | Ok acc' w1 => FileDownloader.validate_loop faults self rest tmp acc' w1
    | Raise e w1 => Raise e w1
    end.
Proof.
  induction pre as [|f pre IH]; intros acc w; simpl; [reflexivity|].
  destruct (FileDownloader.resolve_item self tmp f) as [e|[[s l] t]]; [reflexivity|].
  unfold bind.
  destruct (conn_path_exists faults s w) as [ex w1|e w1]; [|reflexivity].
  destruct ex.
  - destruct (conn_get_file faults s w1) as [rf w2|e w2]; [|reflexivity].
    simpl. apply IH.
  - simpl. apply IH.
Qed.

Lemma validate_loop_refuses faults self tmp f files :
  f ∈ files -> bad_shape self f ->
  forall acc w, exists e w',
    FileDownloader.validate_loop faults self files tmp acc w = Raise e w'.
Proof.
  intros Hin Hbad. destruct (bad_shape_refused self tmp f Hbad) as (msg & Hmsg).
  induction files as [|g rest IH]; intros acc w; [inversion Hin|]. simpl.
  destruct (FileDownloader.resolve_item self tmp g) as [e|[[s l] t]] eqn:Hg;
    [unfold raise; eauto|].
  assert (Hrest : f ∈ rest).
  { apply elem_of_cons in Hin as [->|Hin]; [congruence|exact Hin]. }
  unfold bind.
  destruct (conn_path_exists faults s w) as [ex w1|e w1]; [|eauto].
  destruct ex.
  - destruct (conn_get_file faults s w1) as [rf w2|e w2]; [|eauto].
    simpl. apply (IH Hrest).
  - simpl. apply (IH Hrest).
Qed.

Lemma run_candidates_Some faults self fs w fs' w1 :
  run_candidates faults self (Some fs) w = Ok fs' w1 -> fs' = fs.
Proof.
  unfold run_candidates. intros H.
  apply bind_inv_Ok in H as (? & w2 & _ & H). simpl in H.
  apply bind_inv_Ok in H as (? & w3 & _ & H).
  apply bind_inv_Ok in H as (? & w4 & _ & H).
  apply bind_inv_Ok in H as (? & w5 & _ & H).
  injection H as <- _. reflexivity.
Qed.

(** C6, amended. For one path [f] of an explicit file list:
    - when [source_path] is among the parents of [f] (absolute both, or
      relative both), the source stays [f] and the target is [local_path]
      joined with [f] relative to [source_path];
    - when [f] is relative and not below [source_path], it is joined to
      [source_path] on the remote side and to [local_path] on the local one;
    - without [source_path], an absolute [f] goes flat to
      [local_path/<name>];
    - any other shape is refused with [ValueError]: at the first such path
      once the paths before it validated, and [run] then raises having made
      only checks, no transfer. *)
Theorem validate_files_shapes (faults : Faults) (gtp : path -> path)
    (self : FileDownloader.t) (tmp : option path) (f : path) :
  (forall sp, FileDownloader.source_path self = Some sp -> sp ∈ parents f ->
     exists rel, relative_to f sp = Some rel
       /\ FileDownloader.resolve_item self tmp f
          = inr (f, FileDownloader.local_path self // rel, (fun d => d // rel) <$> tmp))
  /\ (forall sp, FileDownloader.source_path self = Some sp -> sp ∉ parents f ->
        is_absolute f = false ->
        FileDownloader.resolve_item self tmp f
        = inr (sp // f, FileDownloader.local_path self // f, (fun d => d // f) <$> tmp))
  /\ (FileDownloader.source_path self = None -> is_absolute f = true ->
      FileDownloader.resolve_item self tmp f
      = inr (f, FileDownloader.local_path self // FileDownloader.str_path (name f),
             (fun d => d // FileDownloader.str_path (name f)) <$> tmp))
  /\ (bad_shape self f ->
      (exists msg, FileDownloader.resolve_item self tmp f = inl (ValueError msg))
      /\ (forall pre post w acc w1,
            FileDownloader._validate_files faults self pre tmp w = Ok acc w1 ->
            exists msg, FileDownloader._validate_files faults self (pre ++ f :: post) tmp w
                        = Raise (ValueError msg) w1)
      /\ (forall files w, f ∈ files ->
            exists e w', FileDownloader.run faults gtp self (Some files) w = Raise e w'
                         /\ only_checks (FileDownloader.local_path self) w w')).
Proof.
  split; [|split; [|split]].
  - intros sp Hsp Hin. destruct (parents_relative_to sp f Hin) as (rel & Hrel).
    exists rel. split; [exact Hrel|].
    unfold FileDownloader.resolve_item. rewrite Hsp, bool_decide_true by exact Hin.
    rewrite Hrel. reflexivity.
  - intros sp Hsp Hnin Hrel. unfold FileDownloader.resolve_item.
    rewrite Hsp, bool_decide_false by exact Hnin. rewrite Hrel. reflexivity.
  - intros Hsp Habs. unfold FileDownloader.resolve_item. rewrite Hsp, Habs. reflexivity.
  - intros Hbad. destruct (bad_shape_refused self tmp f Hbad) as (msg & Hmsg).
    split; [eauto|]. split.
    + intros pre post w acc w1 Hpre. exists msg.
      unfold FileDownloader._validate_files in *.
      rewrite validate_loop_app, Hpre. simpl. rewrite Hmsg. reflexivity.
    + intros files w Hin. rewrite run_split.
      pose proof (keeps_run_candidates faults self (Some files) w) as Hk.
      destruct (run_candidates faults self (Some files) w) as [fs w1|e w1] eqn:Hc;
        simpl in Hk; [|eauto].
      apply run_candidates_Some in Hc as Heq. subst fs.
      destruct files as [|g rest]; [inversion Hin|].
      unfold run_transfer, FileDownloader._validate_files.
      destruct (validate_loop_refuses faults self (gtp <$> FileDownloader.temp_path self)
                  f (g :: rest) Hin Hbad [] w1) as (e & w2 & Hval).
      pose proof (keeps_validate_loop faults self (gtp <$> FileDownloader.temp_path self)
                    (g :: rest) [] w1) as Hk2.
      rewrite Hval in Hk2. simpl in Hk2.
      exists e, w2. split; [|exact (only_checks_trans _ _ _ _ Hk Hk2)].
      rewrite (bind_Raise _ _ _ _ _ Hval). reflexivity.
Qed.

Lemma validate_files_shapes_witness :
  exists msg,
    FileDownloader.resolve_item Examples.mirror None Examples.other_a_txt
    = inl (ValueError msg).
Proof.
  destruct (validate_files_shapes no_faults Examples.temp_dir Examples.mirror None
              Examples.other_a_txt) as (_ & _ & _ & H).
  destruct H as [H _]; [|exact H].
  split; [reflexivity|]. apply (bool_decide_unpack _). vm_compute. exact I.
Defined.

(** C6 as stated fails for a relative [source_path]: a relative path below
    it is not joined to [source_path] again, it is taken as it is and placed
    by its position below [source_path]. *)
Lemma relative_path_below_relative_source_path :
  let self := Examples.downloader (Some (rel_path ["data"])) None ERROR false None in
  let f := rel_path ["data"; "x.txt"] in
  is_absolute f = false
  /\ FileDownloader.resolve_item self None f
     = inr (f, abs_path ["local"; "x.txt"], None)
  /\ FileDownloader.resolve_item self None f
     <> inr (rel_path ["data"] // f, FileDownloader.local_path self // f, None)
  /\ returned (FileDownloader.run no_faults Examples.temp_dir self (Some [f])
                 Examples.empty_world)
     = Some {| successful := [abs_path ["local"; "x.txt"]]; failed := [];
               skipped := []; missing := [] |}.
Proof.
  split; [reflexivity|]. split; [reflexivity|]. split; [|vm_compute; reflexivity].
  vm_compute. discriminate.
Qed.

(** ** The calls of the primitives *)

Lemma keeps_logs_call {A} (P : Op -> Prop) faults op (sem : World -> exn + (A * World)) :
  P op ->
  (forall w a w1, sem w = inr (a, w1) -> calls w1 = calls w) ->
  keeps (logs P) (call faults op sem).
Proof.
  intros HP Hsem. apply keeps_call.
  - intros w e. apply logs_one; [exact HP|reflexivity].
  - intros w a w1 Hs. apply logs_one; [exact HP|exact (Hsem _ _ _ Hs)].
Qed.

Ltac same_calls :=
  let w := fresh in let a := fresh in let w1 := fresh in let H := fresh in
  intros w a w1 H; cbv beta zeta in H;
  repeat match type of H with
         | context [match ?x with _ => _ end] => destruct x; try discriminate
         end;
  injection H as _ <-; reflexivity.

Section LogsPrimitives.
Context (P : Op -> Prop) (faults : Faults).

Lemma logs_conn_path_exists p : P (ConnPathExists p) -> keeps (logs P) (conn_path_exists faults p).
Proof. intros H. apply keeps_logs_call; [exact H|same_calls]. Qed.

Lemma logs_conn_get_file p : P (ConnGetFile p) -> keeps (logs P) (conn_get_file faults p).
Proof. intros H. apply keeps_logs_call; [exact H|same_calls]. Qed.

Lemma logs_conn_remove_file f :
  P (ConnRemoveFile (rf_path f)) -> keeps (logs P) (conn_remove_file faults f).
Proof. intros H. apply keeps_logs_call; [exact H|same_calls]. Qed.

Lemma logs_conn_download_file f dst replace :
  P (ConnDownloadFile (rf_path f) dst replace) ->
  keeps (logs P) (conn_download_file faults f dst replace).
Proof.
  intros H w. unfold conn_download_file.
  repeat match goal with
         | |- context [match ?x with _ => _ end] => destruct x
         end; simpl; apply logs_one; try exact H; reflexivity.
Qed.

Lemma logs_local_exists p : P (LocalExists p) -> keeps (logs P) (local_exists faults p).
Proof. intros H. apply keeps_logs_call; [exact H|same_calls]. Qed.

Lemma logs_local_mkdir p b1 b2 :
  P (LocalMkdir p b1 b2) -> keeps (logs P) (local_mkdir faults p b1 b2).
Proof. intros H. apply keeps_logs_call; [exact H|same_calls]. Qed.

Lemma logs_local_unlink p : P (LocalUnlink p) -> keeps (logs P) (local_unlink faults p).
Proof. intros H. apply keeps_logs_call; [exact H|same_calls]. Qed.

Lemma logs_local_move p q : P (LocalMove p q) -> keeps (logs P) (local_move faults p q).
Proof. intros H. apply keeps_logs_call; [exact H|same_calls]. Qed.

Lemma logs_local_rmtree p : P (LocalRmtree p) -> keeps (logs P) (local_rmtree faults p).
Proof. intros H. apply keeps_logs_call; [exact H|same_calls]. Qed.

Lemma logs_store_get nm : P (StoreGet nm) -> keeps (logs P) (store_get faults nm).
Proof. intros H. apply keeps_logs_call; [exact H|same_calls]. Qed.

Lemma logs_hwm_update f : P (HwmUpdate (rf_path f)) -> keeps (logs P) (hwm_update faults f).
Proof. intros H. apply keeps_logs_call; [exact H|same_calls]. Qed.

Lemma logs_store_save : (forall h, P (StoreSave h)) -> keeps (logs P) (store_save faults).
Proof.
  intros H w. unfold store_save. destruct (hwm_cell w) as [h|]; [|apply logs_refl].
  apply keeps_logs_call; [apply H|same_calls].
Qed.
End LogsPrimitives.

(** ** Calls under an oracle that never fails *)

Section Quiet.
Context (faults : Faults) (Hq : never_fails faults).

Lemma quiet_conn_path_exists p w :
  conn_path_exists faults p w
  = Ok (bool_decide (is_Some (rlookup (parts p) (remote w))))
       (log_call (ConnPathExists p) None w).
Proof. unfold conn_path_exists. rewrite call_quiet by apply Hq. reflexivity. Qed.

Lemma quiet_conn_get_file p w nm st data :
  rlookup (parts p) (remote w) = Some (RFile nm st data) ->
  conn_get_file faults p w
  = Ok {| rf_path := p; rf_stats := st |} (log_call (ConnGetFile p) None w).
Proof.
  intros H. unfold conn_get_file. rewrite call_quiet by apply Hq. rewrite H. reflexivity.
Qed.

Lemma quiet_local_exists p w :
  local_exists faults p w
  = Ok (bool_decide (is_Some (local_files w !! p)) || bool_decide (p ∈ local_dirs w))
       (log_call (LocalExists p) None w).
Proof. unfold local_exists. rewrite call_quiet by apply Hq. reflexivity. Qed.

Lemma quiet_conn_download_file f dst replace w nm st data :
  rlookup (parts (rf_path f)) (remote w) = Some (RFile nm st data) ->
  dst ∉ local_dirs w ->
  (replace = true \/ local_files w !! dst = None) ->
  conn_download_file faults f dst replace w
  = Ok tt (log_call (ConnDownloadFile (rf_path f) dst replace) None
             (write_local dst (Complete data) w)).
Proof.
  intros Hsrc Hdir Hrep. unfold conn_download_file. rewrite Hq, Hsrc.
  rewrite bool_decide_false by exact Hdir.
  destruct Hrep as [->|Hnone].
  - rewrite andb_false_r. reflexivity.
  - rewrite Hnone. rewrite bool_decide_false by (intros [? ?]; discriminate).
    reflexivity.
Qed.

Lemma quiet_local_unlink p w d :
  local_files w !! p = Some d ->
  local_unlink faults p w
  = Ok tt (log_call (LocalUnlink p) None (set_local_files (delete p (local_files w)) w)).
Proof.
  intros H. unfold local_unlink. rewrite call_quiet by apply Hq. rewrite H. reflexivity.
Qed.

Lemma quiet_local_mkdir_exists p w :
  p ∈ local_dirs w ->
  local_mkdir faults p true true w = Ok tt (log_call (LocalMkdir p true true) None w).
Proof.
  intros H. unfold local_mkdir. rewrite call_quiet by apply Hq.
  rewrite bool_decide_true by exact H. reflexivity.
Qed.

Lemma quiet_local_move src dst w d :
  local_files w !! src = Some d ->
  dst ∉ local_dirs w ->
  local_move faults src dst w
  = Ok tt (log_call (LocalMove src dst) None
             (set_local_files (<[dst := d]> (delete src (local_files w))) w)).
Proof.
  intros Hs Hd. unfold local_move. rewrite call_quiet by apply Hq. rewrite Hs.
  rewrite bool_decide_false by exact Hd. reflexivity.
Qed.

Lemma quiet_hwm_update f w :
  hwm_update faults f w
  = Ok tt (log_call (HwmUpdate (rf_path f)) None
             (set_hwm_cell (hwm_updated (rf_path f) <$> hwm_cell w) w)).
Proof. unfold hwm_update. rewrite call_quiet by apply Hq. reflexivity. Qed.

Lemma quiet_store_save w h :
  hwm_cell w = Some h ->
  store_save faults w
  = Ok tt (log_call (StoreSave h) None
             (set_hwm_store (<[qualified_name h := h]> (hwm_store w)) w)).
Proof.
  intros H. unfold store_save. rewrite H. rewrite call_quiet by apply Hq. reflexivity.
Qed.

Lemma quiet_conn_remove_file f w nm st data :
  rlookup (parts (rf_path f)) (remote w) = Some (RFile nm st data) ->
  conn_remove_file faults f w
  = Ok tt (log_call (ConnRemoveFile (rf_path f)) None
             (set_remote (rremove (parts (rf_path f)) (remote w)) w)).
Proof.
  intros H. unfold conn_remove_file. rewrite call_quiet by apply Hq. rewrite H.
  reflexivity.
Qed.
End Quiet.

(** ** C3: a target that already exists *)

Section Conflict.
Context (faults : Faults) (Hq : never_fails faults).
Context (self : FileDownloader.t).
Context (source_file local_file : path) (tmp_file : option path).
Context (result : DownloadResult) (file_hwm : option FileDownloader.hwm_ref).
Context (w : World) (nm : string) (st : Stat) (data : string) (old : file_data).
Context (Hsrc : rlookup (parts source_file) (remote w) = Some (RFile nm st data)).
Context (Hdst : local_files w !! local_file = Some old).

Lemma quiet_check_conflict :
  FileDownloader.check_conflict faults self local_file
    (log_call (ConnGetFile source_file) None
       (log_call (ConnPathExists source_file) None w))
  = match FileDownloader.mode (FileDownloader.options self) with
    | ERROR => Raise (FileExistsError local_file) (looked_at source_file local_file w)
    | IGNORE => Ok FileDownloader.Skip (looked_at source_file local_file w)
    | _ => Ok (FileDownloader.Proceed true) (looked_at source_file local_file w)
    end.
Proof.
  unfold FileDownloader.check_conflict, bind.
  rewrite (quiet_local_exists faults Hq). simpl. rewrite Hdst.
  rewrite bool_decide_true by eauto. simpl.
  destruct (FileDownloader.mode (FileDownloader.options self)); reflexivity.
Qed.

Lemma download_file_to_try_body :
  FileDownloader._download_file faults self source_file local_file tmp_file
    result file_hwm w
  = try_except
      (FileDownloader.try_body faults self {| rf_path := source_file; rf_stats := st |}
         local_file tmp_file result file_hwm)
      (fun e => ret (add_failed {| ff_path := source_file; ff_stats := st;
                                   ff_exception := e |} result))
      (log_call (ConnGetFile source_file) None
         (log_call (ConnPathExists source_file) None w)).
Proof.
  unfold FileDownloader._download_file, bind.
  rewrite (quiet_conn_path_exists faults Hq), Hsrc.
  rewrite bool_decide_true by eauto. simpl.
  rewrite (quiet_conn_get_file faults Hq _ _ nm st data) by exact Hsrc.
  reflexivity.
Qed.

Lemma conflict_error :
  FileDownloader.mode (FileDownloader.options self) = ERROR ->
  FileDownloader._download_file faults self source_file local_file tmp_file
    result file_hwm w
  = Ok (add_failed {| ff_path := source_file; ff_stats := st;
                      ff_exception := FileExistsError local_file |} result)
       (looked_at source_file local_file w).
Proof.
  intros Hm. rewrite download_file_to_try_body.
  unfold try_except, FileDownloader.try_body, bind.
  rewrite quiet_check_conflict, Hm. reflexivity.
Qed.

Lemma conflict_ignore :
  FileDownloader.mode (FileDownloader.options self) = IGNORE ->
  FileDownloader._download_file faults self source_file local_file tmp_file
    result file_hwm w
  = Ok (add_skipped {| rf_path := source_file; rf_stats := st |} result)
       (looked_at source_file local_file w).
Proof.
  intros Hm. rewrite download_file_to_try_body.
  unfold try_except, FileDownloader.try_body, bind.
  rewrite quiet_check_conflict, Hm. reflexivity.
Qed.
End Conflict.

(** What [after_transfer] does when nothing fails: the local side stays. *)
Lemma quiet_after_transfer faults self f file_hwm w nm st data :
  never_fails faults ->
  rlookup (parts (rf_path f)) (remote w) = Some (RFile nm st data) ->
  (file_hwm = None \/ is_Some (hwm_cell w)) ->
  exists w', FileDownloader.after_transfer faults self f file_hwm w = Ok tt w'
             /\ local_files w' = local_files w /\ local_dirs w' = local_dirs w.
Proof.
  intros Hq Hsrc Hhwm. unfold FileDownloader.after_transfer.
  assert (Hfirst : exists w1,
             (match file_hwm with
              | Some _ => hwm_update faults f ;; store_save faults
              | None => ret tt
              end) w = Ok tt w1
             /\ local_files w1 = local_files w /\ local_dirs w1 = local_dirs w
             /\ remote w1 = remote w).
  { destruct file_hwm as [ref|].
    - destruct Hhwm as [|[h Hh]]; [discriminate|].
      unfold bind. rewrite (quiet_hwm_update faults Hq).
      erewrite (quiet_store_save faults Hq); [|simpl; rewrite Hh; reflexivity].
      eexists. split; [reflexivity|]. simpl. auto.
    - eexists. split; [reflexivity|]. auto. }
  destruct Hfirst as (w1 & H1 & F1 & D1 & R1).
  unfold bind at 1. rewrite H1.
  destruct (FileDownloader.delete_source (FileDownloader.options self)).
  - rewrite (quiet_conn_remove_file faults Hq f w1 nm st data) by (rewrite R1; exact Hsrc).
    eexists. split; [reflexivity|]. simpl. auto.
  - eexists. split; [reflexivity|]. auto.
Qed.

(** The transfer itself when nothing fails and the target is replaced. *)
Lemma quiet_transfer_replace faults f local_file tmp_file w nm st data old :
  never_fails faults ->
  rlookup (parts (rf_path f)) (remote w) = Some (RFile nm st data) ->
  local_files w !! local_file = Some old ->
  local_file ∉ local_dirs w ->
  match tmp_file with
  | Some tmp => tmp <> local_file /\ (tmp ∉ local_dirs w) /\ (parent local_file ∈ local_dirs w)
  | None => True
  end ->
  exists w', FileDownloader.transfer faults f local_file tmp_file true w = Ok tt w'
             /\ local_files w' !! local_file = Some (Complete data)
             /\ remote w' = remote w /\ hwm_cell w' = hwm_cell w.
Proof.
  intros Hq Hsrc Hdst Hnd Htmp. unfold FileDownloader.transfer.
  destruct tmp_file as [tmp|].
  - destruct Htmp as (Hne & Htd & Hpar). unfold bind.
    rewrite (quiet_conn_download_file faults Hq f tmp true w nm st data)
      by (auto using Hsrc).
    rewrite (quiet_local_exists faults Hq). simpl.
    rewrite lookup_insert_ne by exact Hne. rewrite Hdst.
    rewrite bool_decide_true by eauto. simpl.
    erewrite (quiet_local_unlink faults Hq);
      [|simpl; rewrite lookup_insert_ne by exact Hne; exact Hdst].
    rewrite (quiet_local_mkdir_exists faults Hq) by exact Hpar.
    erewrite (quiet_local_move faults Hq tmp local_file);
      [|simpl; rewrite lookup_delete_ne by (intros Heq; exact (Hne (eq_sym Heq)));
        apply lookup_insert_eq|exact Hnd].
    eexists. split; [reflexivity|]. simpl.
    rewrite lookup_insert_eq. auto.
  - rewrite (quiet_conn_download_file faults Hq f local_file true w nm st data)
      by (auto using Hsrc).
    eexists. split; [reflexivity|]. simpl. rewrite lookup_insert_eq. auto.
Qed.

Lemma conflict_overwrite faults self source_file local_file tmp_file result file_hwm
    w nm st data old :
  never_fails faults ->
  rlookup (parts source_file) (remote w) = Some (RFile nm st data) ->
  local_files w !! local_file = Some old ->
  FileDownloader.mode (FileDownloader.options self) = OVERWRITE
  \/ FileDownloader.mode (FileDownloader.options self) = DELETE_ALL ->
  local_file ∉ local_dirs w ->
  match tmp_file with
  | Some tmp => tmp <> local_file /\ (tmp ∉ local_dirs w) /\ (parent local_file ∈ local_dirs w)
  | None => True
  end ->
  (file_hwm = None \/ is_Some (hwm_cell w)) ->
  exists w', FileDownloader._download_file faults self source_file local_file tmp_file
               result file_hwm w = Ok (add_successful local_file result) w'
             /\ local_files w' !! local_file = Some (Complete data).
Proof.
  intros Hq Hsrc Hdst Hm Hnd Htmp Hhwm.
  rewrite (download_file_to_try_body faults Hq self _ _ _ _ _ w nm st data Hsrc).
  unfold try_except, FileDownloader.try_body. unfold bind at 1.
  rewrite (quiet_check_conflict faults Hq self source_file local_file w old Hdst).
  assert (Hgo : match FileDownloader.mode (FileDownloader.options self) with
                | ERROR => Raise (FileExistsError local_file)
                             (looked_at source_file local_file w)
                | IGNORE => Ok FileDownloader.Skip (looked_at source_file local_file w)
                | _ => Ok (FileDownloader.Proceed true) (looked_at source_file local_file w)
                end = Ok (FileDownloader.Proceed true) (looked_at source_file local_file w)).
  { destruct Hm as [-> | ->]; reflexivity. }
  rewrite Hgo. clear Hgo.
  destruct (quiet_transfer_replace faults {| rf_path := source_file; rf_stats := st |}
              local_file tmp_file (looked_at source_file local_file w) nm st data old
              Hq Hsrc Hdst Hnd Htmp) as (w1 & Ht & Hl & Hr & Hc).
  unfold bind at 1. rewrite Ht.
  destruct (quiet_after_transfer faults self {| rf_path := source_file; rf_stats := st |}
              file_hwm w1 nm st data Hq) as (w2 & Ha & Hf & _).
  { rewrite Hr. exact Hsrc. }
  { rewrite Hc. exact Hhwm. }
  unfold bind. rewrite Ha. exists w2. split; [reflexivity|]. rewrite Hf. exact Hl.
Qed.

(** *** [delete_all]: the clearing comes first *)

Section NoRmtree.
Context (faults : Faults) (self : FileDownloader.t).

Ltac lstep :=
  first
    [ apply (keeps_bind (logs not_rmtree) (logs_trans not_rmtree)); [|intros ?]
    | apply (keeps_ret (logs not_rmtree) (logs_refl not_rmtree))
    | apply (keeps_raise (logs not_rmtree) (logs_refl not_rmtree))
    | apply (keeps_try_except (logs not_rmtree) (logs_trans not_rmtree)); [|intros ?]
    | apply logs_conn_path_exists; exact I
    | apply logs_conn_get_file; exact I
    | apply logs_conn_remove_file; exact I
    | apply logs_conn_download_file; exact I
    | apply logs_local_exists; exact I
    | apply logs_local_mkdir; exact I
    | apply logs_local_unlink; exact I
    | apply logs_local_move; exact I
    | apply logs_store_get; exact I
    | apply logs_hwm_update; exact I
    | apply logs_store_save; intros ?; exact I ].

Lemma no_rmtree_try_body f local_file tmp_file result file_hwm :
  keeps (logs not_rmtree) (FileDownloader.try_body faults self f local_file tmp_file result file_hwm).
Proof.
  unfold FileDownloader.try_body, FileDownloader.check_conflict,
    FileDownloader.transfer, FileDownloader.after_transfer.
  lstep.
  - lstep; [lstep|].
    destruct a; [|lstep].
    destruct (decide _); [lstep|]. destruct (decide _); lstep.
  - destruct a as [|replace]; [lstep|].
    lstep.
    + destruct tmp_file as [tmp|]; [|lstep].
      lstep; [lstep|]. lstep.
      * destruct replace; [|lstep]. lstep; [lstep|]. destruct a0; lstep.
      * lstep; [lstep|]. lstep.
    + lstep; [|lstep].
      lstep.
      * destruct file_hwm; [|lstep]. lstep; [lstep|]. lstep.
      * destruct (FileDownloader.delete_source _); lstep.
Qed.

Lemma no_rmtree_download_file s l t result file_hwm :
  keeps (logs not_rmtree) (FileDownloader._download_file faults self s l t result file_hwm).
Proof.
  unfold FileDownloader._download_file.
  lstep; [lstep|].
  destruct (negb a); [lstep|].
  intros w.
  pose proof (logs_conn_get_file not_rmtree faults s I w) as Hg.
  destruct (conn_get_file faults s w) as [f w1|e w1]; simpl in *; [|exact Hg].
  apply (logs_trans not_rmtree _ _ _ Hg).
  apply (keeps_try_except (logs not_rmtree) (logs_trans not_rmtree)); [apply no_rmtree_try_body|intros ?; lstep].
Qed.

Lemma no_rmtree_download_loop items file_hwm :
  forall result, keeps (logs not_rmtree) (FileDownloader.download_loop faults self items result file_hwm).
Proof.
  induction items as [|[[s l] t] rest IH]; intros result; simpl; [lstep|].
  lstep; [apply no_rmtree_download_file|apply IH].
Qed.

(** The transfer phase never calls [rmtree]. *)
Lemma no_rmtree_download_phase items : keeps (logs not_rmtree) (download_phase faults self items).
Proof.
  unfold download_phase. destruct (FileDownloader.hwm_type self).
  - unfold FileDownloader._hwm_processing, FileDownloader._get_hwm.
    lstep.
    + destruct (FileDownloader.hwm_type self); [|lstep].
      destruct (FileDownloader.source_path self); [|lstep].
      lstep; [lstep|]. destruct (hwm_is_file _); lstep.
    + lstep; [intros w; exists []; split; [reflexivity|constructor]|].
      apply no_rmtree_download_loop.
  - apply no_rmtree_download_loop.
Qed.
End NoRmtree.

Lemma parents_shorter (q p : path) :
  q ∈ parents p -> length (parts q) < length (parts p).
Proof.
  unfold parents. intros Hin. apply list_elem_of_fmap in Hin as (k & -> & Hk).
  apply list_elem_of_In, in_rev, in_seq in Hk. simpl in *.
  rewrite length_take. lia.
Qed.

Lemma is_under_self (p : path) : is_under p p = true.
Proof. unfold is_under. rewrite bool_decide_true by reflexivity. reflexivity. Qed.

Lemma parent_not_under (p : path) : parts p <> [] -> is_under p (parent p) = false.
Proof.
  intros Hne. unfold is_under.
  assert (Hlen : length (parts (parent p)) < length (parts p)).
  { unfold parent. simpl. destruct (parts p) as [|x l]; [contradiction|].
    rewrite removelast_firstn_len, length_take. simpl. lia. }
  rewrite bool_decide_false.
  - rewrite bool_decide_false; [reflexivity|].
    intros Hin. apply parents_shorter in Hin. lia.
  - intros Heq. rewrite <- Heq in Hlen. lia.
Qed.

Lemma quiet_local_rmtree faults p w :
  never_fails faults -> p ∈ local_dirs w ->
  local_rmtree faults p w = Ok tt (log_call (LocalRmtree p) None (cleared p w)).
Proof.
  intros Hq Hin. unfold local_rmtree. rewrite call_quiet by apply Hq.
  rewrite bool_decide_true by exact Hin. reflexivity.
Qed.

Lemma quiet_local_mkdir_cleared faults p w :
  never_fails faults ->
  parent p ∈ local_dirs w \/ parts p = [] ->
  local_mkdir faults p false false (log_call (LocalRmtree p) None (cleared p w))
  = Ok tt (log_call (LocalMkdir p false false) None
             (set_local_dirs ({[ p ]} ∪ local_dirs (cleared p w))
                (log_call (LocalRmtree p) None (cleared p w)))).
Proof.
  intros Hq Hpar. unfold local_mkdir. rewrite call_quiet by apply Hq. simpl.
  rewrite bool_decide_false.
  2:{ intros Hin. apply elem_of_filter in Hin as [Hu _].
      rewrite is_under_self in Hu. discriminate. }
  rewrite bool_decide_false.
  2:{ intros [d Hd]. apply map_lookup_filter_Some in Hd as [_ Hu]. simpl in Hu.
      rewrite is_under_self in Hu. discriminate. }
  assert (Hok : bool_decide (parent p ∈ filter (fun q => is_under p q = false) (local_dirs w))
                || bool_decide (parts p = []) = true).
  { destruct (decide (parts p = [])) as [He|Hne].
    - rewrite (bool_decide_true _ He). apply orb_true_r.
    - destruct Hpar as [Hpar|He]; [|contradiction].
      rewrite bool_decide_true; [reflexivity|].
      apply elem_of_filter. split; [apply parent_not_under, Hne|exact Hpar]. }
  rewrite Hok. reflexivity.
Qed.

Lemma delete_all_first (faults : Faults) (gtp : path -> path) (self : FileDownloader.t)
    (files : option (list path)) (w0 : World) (f : path) (fs : list path) (w1 : World)
    (items : list FileDownloader.item) (w2 : World) :
  never_fails faults ->
  FileDownloader.mode (FileDownloader.options self) = DELETE_ALL ->
  FileDownloader.local_path self ∈ local_dirs w0 ->
  parent (FileDownloader.local_path self) ∈ local_dirs w0
  \/ parts (FileDownloader.local_path self) = [] ->
  run_candidates faults self files w0 = Ok (f :: fs) w1 ->
  FileDownloader._validate_files faults self (f :: fs)
    (gtp <$> FileDownloader.temp_path self) w1 = Ok items w2 ->
  exists w3,
    FileDownloader.run faults gtp self files w0 = run_download faults gtp self items w3
    /\ calls w3 = (LocalMkdir (FileDownloader.local_path self) false false, None)
                  :: (LocalRmtree (FileDownloader.local_path self), None)
                  :: (LocalExists (FileDownloader.local_path self), None) :: calls w2
    /\ logs is_check w0 w2
    /\ (forall p, is_under (FileDownloader.local_path self) p = true ->
                  local_files w3 !! p = None)
    /\ (forall p, is_under (FileDownloader.local_path self) p = false ->
                  local_files w3 !! p = local_files w0 !! p)
    /\ keeps (logs not_rmtree) (download_phase faults self items).
Proof.
  intros Hq Hm Hlp Hpar Hc Hv.
  set (lp := FileDownloader.local_path self) in *.
  pose proof (keeps_run_candidates faults self files w0) as K1.
  rewrite Hc in K1. simpl in K1.
  pose proof (keeps_validate_loop faults self (gtp <$> FileDownloader.temp_path self)
                (f :: fs) [] w1) as K2.
  unfold FileDownloader._validate_files in Hv. rewrite Hv in K2. simpl in K2.
  pose proof (only_checks_trans _ _ _ _ K1 K2) as (F & _ & _ & D & _ & _ & L).
  fold lp in F, D, L.
  set (wx := log_call (LocalExists lp) None w2).
  assert (Hlp2 : lp ∈ local_dirs wx) by (simpl; set_solver).
  assert (Hpar2 : parent lp ∈ local_dirs wx \/ parts lp = []).
  { destruct Hpar as [Hp|He]; [left; simpl; set_solver|right; exact He]. }
  eexists. split; [|split; [|split; [exact L|split; [|split]]]].
  - rewrite run_split, Hc. unfold run_transfer, FileDownloader._validate_files.
    unfold bind at 1. rewrite Hv. fold lp. rewrite Hm.
    destruct (decide (DELETE_ALL = DELETE_ALL)) as [_|Hne]; [|contradiction].
    unfold bind at 1. unfold bind at 1.
    rewrite (quiet_local_exists faults Hq). fold wx.
    assert (Hex : bool_decide (is_Some (local_files w2 !! lp))
                  || bool_decide (lp ∈ local_dirs w2) = true).
    { rewrite (bool_decide_true (lp ∈ local_dirs w2)) by exact Hlp2. apply orb_true_r. }
    rewrite Hex. unfold bind at 1.
    rewrite (quiet_local_rmtree faults lp wx Hq Hlp2).
    rewrite (quiet_local_mkdir_cleared faults lp wx Hq Hpar2).
    reflexivity.
  - reflexivity.
  - intros p Hu. simpl. apply map_lookup_filter_None. right.
    intros d _ Hf. simpl in Hf. congruence.
  - intros p Hu. simpl. rewrite <- F.
    destruct (local_files w2 !! p) as [d|] eqn:Hd.
    + apply map_lookup_filter_Some. split; [exact Hd|exact Hu].
    + apply map_lookup_filter_None. left. exact Hd.
  - apply no_rmtree_download_phase.
Qed.

Lemma elem_of_oset_add_here {A} `{EqDecision A} (x : A) (l : list A) : x ∈ oset_add x l.
Proof. apply elem_of_oset_add. right; reflexivity. Qed.

(** C3. The source file is there, the target file exists already, and no
    external call fails. Then [_download_file]
    - under [error] records the candidate as failed with [FileExistsError]
      and leaves every local file as it was;
    - under [ignore] records it as skipped and leaves every local file as
      it was;
    - under [overwrite] records the target as successful, and the target
      then holds the whole content of the source;
    and under [delete_all], [run] clears [local_path] once, after the checks
    and the validation made nothing but checks and before the transfer
    phase, which itself never calls [rmtree]. *)
Theorem conflict_modes (faults : Faults) (self : FileDownloader.t)
    (source_file local_file : path) (tmp_file : option path)
    (result : DownloadResult) (file_hwm : option FileDownloader.hwm_ref)
    (w : World) (nm : string) (st : Stat) (data : string) (old : file_data) :
  never_fails faults ->
  rlookup (parts source_file) (remote w) = Some (RFile nm st data) ->
  local_files w !! local_file = Some old ->
  let failure := {| ff_path := source_file; ff_stats := st;
                    ff_exception := FileExistsError local_file |} in
  let remote_file := {| rf_path := source_file; rf_stats := st |} in
  let out := FileDownloader._download_file faults self source_file local_file tmp_file
               result file_hwm w in
  (FileDownloader.mode (FileDownloader.options self) = ERROR ->
   returned out = Some (add_failed failure result)
   /\ failure ∈ failed (add_failed failure result)
   /\ local_files (world_of out) = local_files w)
  /\ (FileDownloader.mode (FileDownloader.options self) = IGNORE ->
      returned out = Some (add_skipped remote_file result)
      /\ remote_file ∈ skipped (add_skipped remote_file result)
      /\ local_files (world_of out) = local_files w)
  /\ (FileDownloader.mode (FileDownloader.options self) = OVERWRITE ->
      local_file ∉ local_dirs w ->
      match tmp_file with
      | Some tmp => tmp <> local_file /\ (tmp ∉ local_dirs w)
                    /\ (parent local_file ∈ local_dirs w)
      | None => True
      end ->
      (file_hwm = None \/ is_Some (hwm_cell w)) ->
      returned out = Some (add_successful local_file result)
      /\ local_file ∈ successful (add_successful local_file result)
      /\ local_files (world_of out) !! local_file = Some (Complete data))
  /\ (FileDownloader.mode (FileDownloader.options self) = DELETE_ALL ->
      forall gtp files w0 f fs w1 items w2,
        FileDownloader.local_path self ∈ local_dirs w0 ->
        parent (FileDownloader.local_path self) ∈ local_dirs w0
        \/ parts (FileDownloader.local_path self) = [] ->
        run_candidates faults self files w0 = Ok (f :: fs) w1 ->
        FileDownloader._validate_files faults self (f :: fs)
          (gtp <$> FileDownloader.temp_path self) w1 = Ok items w2 ->
        exists w3,
          FileDownloader.run faults gtp self files w0
          = run_download faults gtp self items w3
          /\ calls w3 = (LocalMkdir (FileDownloader.local_path self) false false, None)
                        :: (LocalRmtree (FileDownloader.local_path self), None)
                        :: (LocalExists (FileDownloader.local_path self), None)
                        :: calls w2
          /\ logs is_check w0 w2
          /\ (forall p, is_under (FileDownloader.local_path self) p = true ->
                        local_files w3 !! p = None)
          /\ (forall p, is_under (FileDownloader.local_path self) p = false ->
                        local_files w3 !! p = local_files w0 !! p)
          /\ keeps (logs not_rmtree) (download_phase faults self items)).
Proof.
  intros Hq Hsrc Hdst failure remote_file out.
  split; [|split; [|split]].
  - intros Hm. subst out.
    rewrite (conflict_error faults Hq self _ _ tmp_file result file_hwm w nm st data old
               Hsrc Hdst Hm).
    split; [reflexivity|]. split; [apply elem_of_oset_add_here|reflexivity].
  - intros Hm. subst out.
    rewrite (conflict_ignore faults Hq self _ _ tmp_file result file_hwm w nm st data old
               Hsrc Hdst Hm).
    split; [reflexivity|]. split; [apply elem_of_oset_add_here|reflexivity].
  - intros Hm Hnd Htmp Hhwm. subst out.
    destruct (conflict_overwrite faults self source_file local_file tmp_file result
                file_hwm w nm st data old Hq Hsrc Hdst (or_introl Hm) Hnd Htmp Hhwm)
      as (w' & -> & Hl).
    split; [reflexivity|]. split; [apply elem_of_oset_add_here|exact Hl].
  - intros Hm gtp files w0 f fs w1 items w2 Hlp Hpar Hc Hv.
    exact (delete_all_first faults gtp self files w0 f fs w1 items w2 Hq Hm Hlp Hpar Hc Hv).
Qed.

Lemma conflict_modes_witness :
  returned (FileDownloader._download_file no_faults Examples.overwriting
              Examples.a_txt Examples.local_a_txt None empty_result None
              Examples.stale_world)
  = Some (add_successful Examples.local_a_txt empty_result)
  /\ Examples.local_a_txt ∈ successful (add_successful Examples.local_a_txt empty_result)
  /\ local_files (world_of (FileDownloader._download_file no_faults Examples.overwriting
                              Examples.a_txt Examples.local_a_txt None empty_result None
                              Examples.stale_world))
     !! Examples.local_a_txt = Some (Complete "AAA").
Proof.
  destruct (conflict_modes no_faults Examples.overwriting Examples.a_txt
              Examples.local_a_txt None empty_result None Examples.stale_world
              "a.txt" Examples.stat1 "AAA" (Complete "old"))
    as (_ & _ & H & _).
  - intros n op. reflexivity.
  - reflexivity.
  - reflexivity.
  - apply H.
    + reflexivity.
    + apply (bool_decide_unpack _). vm_compute. exact I.
    + exact I.
    + left. reflexivity.
Defined.

(** ** C8: the HWM is saved file by file *)



(** ** C4: staging in the temporary path *)

Lemma extends_refl w : extends w w.
Proof. exists []. reflexivity. Qed.

Lemma extends_trans w1 w2 w3 : extends w1 w2 -> extends w2 w3 -> extends w1 w3.
Proof.
  intros [p1 H1] [p2 H2]. exists (p2 ++ p1). rewrite H2, H1, app_assoc. reflexivity.
Qed.

Lemma joinpath_longer (p : path) (x : string) : p // rel_path [x] <> p.
Proof.
  unfold joinpath. simpl. destruct p as [a l]. intros [= H].
  apply (f_equal length) in H. rewrite length_app in H. simpl in H. lia.
Qed.

(** The outcomes of the local calls of a staged transfer, whatever fails. *)

Lemma conn_path_exists_cases faults p w :
  (exists e, conn_path_exists faults p w = Raise e (log_call (ConnPathExists p) (Some e) w))
  \/ (exists b, conn_path_exists faults p w = Ok b (log_call (ConnPathExists p) None w)).
Proof.
  unfold conn_path_exists, call. destruct (faults _ _); [left|right]; eauto.
Qed.

Lemma conn_get_file_cases faults p w :
  (exists e, conn_get_file faults p w = Raise e (log_call (ConnGetFile p) (Some e) w))
  \/ (exists nm st data,
        rlookup (parts p) (remote w) = Some (RFile nm st data)
        /\ conn_get_file faults p w
           = Ok {| rf_path := p; rf_stats := st |} (log_call (ConnGetFile p) None w)).
Proof.
  unfold conn_get_file, call. destruct (faults _ _); [left; eauto|].
  destruct (rlookup _ _) as [[nm st data|nm ch]|]; [right; eauto 6|left; eauto..].
Qed.

Lemma local_exists_cases faults p w :
  (exists e, local_exists faults p w = Raise e (log_call (LocalExists p) (Some e) w))
  \/ (exists b, local_exists faults p w = Ok b (log_call (LocalExists p) None w)).
Proof.
  unfold local_exists, call. destruct (faults _ _); [left|right]; eauto.
Qed.

Lemma local_unlink_cases faults p w :
  (exists e, local_unlink faults p w = Raise e (log_call (LocalUnlink p) (Some e) w))
  \/ local_unlink faults p w
     = Ok tt (log_call (LocalUnlink p) None (set_local_files (delete p (local_files w)) w)).
Proof.
  unfold local_unlink, call. destruct (faults _ _); [left; eauto|].
  destruct (local_files w !! p); [right; reflexivity|left; eauto].
Qed.

Lemma local_mkdir_cases faults p b1 b2 w :
  (exists e, local_mkdir faults p b1 b2 w = Raise e (log_call (LocalMkdir p b1 b2) (Some e) w))
  \/ (exists dirs, local_mkdir faults p b1 b2 w
                   = Ok tt (log_call (LocalMkdir p b1 b2) None (set_local_dirs dirs w))).
Proof.
  unfold local_mkdir, call. destruct (faults _ _); [left; eauto|].
  repeat match goal with
         | |- context [if ?x then _ else _] => destruct x
         end; try (left; eauto; fail); right.
  - exists (local_dirs w). destruct w; reflexivity.
  - eauto.
  - eauto.
Qed.

Lemma local_move_cases faults src dst w :
  (exists e, local_move faults src dst w = Raise e (log_call (LocalMove src dst) (Some e) w))
  \/ (exists d, local_files w !! src = Some d
                /\ local_move faults src dst w
                   = Ok tt (log_call (LocalMove src dst) None
                              (set_local_files
                                 (<[(if bool_decide (dst ∈ local_dirs w)
                                     then dst // rel_path [name src] else dst) := d]>
                                    (delete src (local_files w))) w))).
Proof.
  unfold local_move, call. destruct (faults _ _); [left; eauto|].
  destruct (local_files w !! src) as [d|]; [|left; eauto]. cbv zeta.
  destruct (_ && _); [left; eauto|]. right. eauto.
Qed.

Lemma conn_download_file_cases faults f dst replace w :
  (exists e, conn_download_file faults f dst replace w
             = Raise e (log_call (ConnDownloadFile (rf_path f) dst replace) (Some e) w))
  \/ (exists e, conn_download_file faults f dst replace w
                = Raise e (log_call (ConnDownloadFile (rf_path f) dst replace) (Some e)
                             (write_local dst (Truncated EmptyString) w)))
  \/ (exists nm st data,
        rlookup (parts (rf_path f)) (remote w) = Some (RFile nm st data)
        /\ conn_download_file faults f dst replace w
           = Ok tt (log_call (ConnDownloadFile (rf_path f) dst replace) None
                      (write_local dst (Complete data) w))).
Proof.
  unfold conn_download_file. destruct (faults _ _) as [[e|e]|]; [eauto|eauto|].
  destruct (rlookup _ _) as [[nm st data|nm ch]|]; [|eauto|eauto].
  destruct (bool_decide _); [eauto|]. destruct (_ && _); [eauto|].
  right; right. eauto.
Qed.

(** Once the temporary file holds the whole source, what follows in
    [transfer] leaves the target as it was, or absent, or whole. *)
Lemma swap_keeps_target faults (local_file tmp : path) (replace : bool) data w :
  tmp <> local_file ->
  local_files w !! tmp = Some (Complete data) ->
  target_kept local_file data w (world_of (swap_in faults local_file tmp replace w))
  /\ extends w (world_of (swap_in faults local_file tmp replace w)).
Proof.
  intros Hne Htmp. unfold swap_in.
  assert (Hne' : local_file <> tmp) by congruence.
  (* the last two calls, from a world where the temporary file is whole *)
  assert (Htail : forall w0, local_files w0 !! tmp = Some (Complete data) ->
            let o := (local_mkdir faults (parent local_file) true true ;;
                      local_move faults tmp local_file) w0 in
            target_kept local_file data w0 (world_of o) /\ extends w0 (world_of o)).
  { intros w0 Ht. simpl. unfold bind.
    destruct (local_mkdir_cases faults (parent local_file) true true w0)
      as [[e ->]|[dirs ->]]; simpl.
    { split; [left; reflexivity|]. eexists [_]. reflexivity. }
    match goal with
    | |- context [local_move faults tmp local_file ?w1] =>
        destruct (local_move_cases faults tmp local_file w1) as [[e ->]|(d & Hd & ->)]
    end; simpl.
    { split; [left; reflexivity|]. eexists [_; _]. reflexivity. }
    simpl in Hd. rewrite Ht in Hd. injection Hd as <-.
    split; [|eexists [_; _]; reflexivity].
    unfold target_kept. simpl.
    destruct (bool_decide (local_file ∈ dirs)).
    - left. rewrite lookup_insert_ne by apply joinpath_longer.
      rewrite lookup_delete_ne by exact Hne. reflexivity.
    - right; right. apply lookup_insert_eq. }
  assert (Hcompose : forall w0 w1,
            local_files w1 !! tmp = Some (Complete data) ->
            target_kept local_file data w0 w1 -> extends w0 w1 ->
            let o := (local_mkdir faults (parent local_file) true true ;;
                      local_move faults tmp local_file) w1 in
            target_kept local_file data w0 (world_of o) /\ extends w0 (world_of o)).
  { intros w0 w1 Ht Hk He. destruct (Htail w1 Ht) as [Hk2 He2].
    split; [|exact (extends_trans _ _ _ He He2)].
    unfold target_kept in *.
    destruct Hk2 as [Hk2|[Hk2|Hk2]]; [rewrite Hk2; exact Hk|auto|auto]. }
  destruct replace.
  - rewrite bind_bind.
    destruct (local_exists_cases faults local_file w) as [[e E]|[b E]].
    { rewrite (bind_Raise _ _ _ _ _ E). simpl.
      split; [left; reflexivity|]. eexists [_]. reflexivity. }
    rewrite (bind_Ok _ _ _ _ _ E).
    destruct b.
    + destruct (local_unlink_cases faults local_file
                  (log_call (LocalExists local_file) None w)) as [[e E2]|E2].
      { rewrite (bind_Raise _ _ _ _ _ E2). simpl.
        split; [left; reflexivity|]. eexists [_; _]. reflexivity. }
      rewrite (bind_Ok _ _ _ _ _ E2).
      apply Hcompose.
      * simpl. rewrite lookup_delete_ne by exact Hne'. exact Htmp.
      * unfold target_kept. right; left. simpl. apply lookup_delete_eq.
      * eexists [_; _]. reflexivity.
    + unfold bind at 1. unfold ret at 1.
      apply Hcompose; [exact Htmp|left; reflexivity|eexists [_]; reflexivity].
  - unfold bind at 1. unfold ret at 1.
    apply Hcompose; [exact Htmp|left; reflexivity|apply extends_refl].
Qed.

Lemma local_same_refl w : local_same w w.
Proof. split; [reflexivity|apply extends_refl]. Qed.

Lemma local_same_trans w1 w2 w3 : local_same w1 w2 -> local_same w2 w3 -> local_same w1 w3.
Proof.
  intros [F1 E1] [F2 E2]. split; [congruence|exact (extends_trans _ _ _ E1 E2)].
Qed.

Lemma local_same_log op e w w1 :
  local_files w1 = local_files w -> calls w1 = calls w -> local_same w (log_call op e w1).
Proof.
  intros Hf Hc. split; [exact Hf|]. exists [(op, e)]. simpl. rewrite Hc. reflexivity.
Qed.

Lemma keeps_after_transfer faults self f file_hwm :
  keeps local_same (FileDownloader.after_transfer faults self f file_hwm).
Proof.
  unfold FileDownloader.after_transfer.
  apply (keeps_bind _ local_same_trans).
  - destruct file_hwm; [|apply (keeps_ret _ local_same_refl)].
    apply (keeps_bind _ local_same_trans).
    + unfold hwm_update. apply keeps_call.
      * intros w e. apply local_same_log; reflexivity.
      * intros w a w1 [= _ <-]. apply local_same_log; reflexivity.
    + intros _ w. unfold store_save. destruct (hwm_cell w); [|apply local_same_refl].
      apply keeps_call.
      * intros w0 e. apply local_same_log; reflexivity.
      * intros w0 a w1 [= _ <-]. apply local_same_log; reflexivity.
  - intros _. destruct (FileDownloader.delete_source _); [|apply (keeps_ret _ local_same_refl)].
    unfold conn_remove_file. apply keeps_call.
    + intros w e. apply local_same_log; reflexivity.
    + intros w a w1 Hs. destruct (rlookup _ _) as [[]|]; try discriminate.
      injection Hs as _ <-. apply local_same_log; reflexivity.
Qed.

(** From the world in which the temporary file holds the whole source to
    the end of [_download_file]. *)
Lemma after_staging_keeps_target faults self f (local_file tmp : path) (replace : bool)
    result file_hwm (h : exn -> M DownloadResult) data w :
  tmp <> local_file ->
  local_files w !! tmp = Some (Complete data) ->
  (forall e w0, world_of (h e w0) = w0) ->
  let out :=
    try_except
      (swap_in faults local_file tmp replace ;;
       FileDownloader.after_transfer faults self f file_hwm ;;
       ret (add_successful local_file result))
      h w in
  target_kept local_file data w (world_of out) /\ extends w (world_of out).
Proof.
  intros Hne Htmp Hh out. subst out.
  destruct (swap_keeps_target faults local_file tmp replace data w Hne Htmp) as [Hk Hx].
  unfold try_except.
  destruct (swap_in faults local_file tmp replace w) as [[] w1|e w1] eqn:E;
    simpl in Hk, Hx.
  - rewrite (bind_Ok _ _ _ _ _ E).
    pose proof (keeps_after_transfer faults self f file_hwm w1) as [Hf He].
    destruct (FileDownloader.after_transfer faults self f file_hwm w1) as [[] w2|e w2]
      eqn:E2; simpl in Hf, He.
    + rewrite (bind_Ok _ _ _ _ _ E2). simpl.
      split; [|exact (extends_trans _ _ _ Hx He)].
      unfold target_kept in *. rewrite Hf. exact Hk.
    + rewrite (bind_Raise _ _ _ _ _ E2). rewrite Hh.
      split; [|exact (extends_trans _ _ _ Hx He)].
      unfold target_kept in *. rewrite Hf. exact Hk.
  - rewrite (bind_Raise _ _ _ _ _ E). rewrite Hh. split; assumption.
Qed.

Ltac looked :=
  repeat (apply List.Forall_cons;
          [match goal with H : forall op e, is_look op -> _ |- _ => apply H; exact I end|]);
  apply List.Forall_nil.

(** C4. With a temporary path different from the target, whatever fails,
    [_download_file] ends in one of two ways.
    - Staging did not succeed: it only looked at the source and the target
      and at most tried the download into the temporary path, which raised;
      the target is exactly as it was.
    - Staging succeeded: before the download into the temporary path
      returned it only looked; everything else, the removal of an existing
      target and the move included, came after; and the target holds what
      it held before, or nothing, or the whole content of the source. *)
Theorem staged_before_target_changes (faults : Faults) (self : FileDownloader.t)
    (source_file local_file tmp : path) (result : DownloadResult)
    (file_hwm : option FileDownloader.hwm_ref) (w : World) :
  tmp <> local_file ->
  let out := FileDownloader._download_file faults self source_file local_file (Some tmp)
               result file_hwm w in
  let w' := world_of out in
  (exists new,
      calls w' = new ++ calls w
      /\ Forall (fun c => is_look c.1
                          \/ exists replace e,
                               c = (ConnDownloadFile source_file tmp replace, Some e)) new
      /\ local_files w' !! local_file = local_files w !! local_file)
  \/ (exists pre post replace nm st data,
        calls w' = post ++ (ConnDownloadFile source_file tmp replace, None) :: pre ++ calls w
        /\ Forall (fun c => is_look c.1) pre
        /\ rlookup (parts source_file) (remote w) = Some (RFile nm st data)
        /\ target_kept local_file data w w').
Proof.
  intros Hne out w'. subst w' out.
  unfold FileDownloader._download_file.
  set (looks := fun c : Op * option exn =>
                  is_look c.1
                  \/ exists replace e,
                       c = (ConnDownloadFile source_file tmp replace, Some e)).
  assert (Hlook : forall (op : Op) (e : option exn), is_look op -> looks (op, e)).
  { intros op e H. left. exact H. }
  (* path_exists *)
  destruct (conn_path_exists_cases faults source_file w) as [[e E1]|[b E1]].
  { rewrite (bind_Raise _ _ _ _ _ E1). left. eexists [_].
    split; [reflexivity|]. split; [|reflexivity].
    looked. }
  rewrite (bind_Ok _ _ _ _ _ E1).
  destruct b; simpl.
  2:{ left. eexists [_]. split; [reflexivity|]. split; [|reflexivity].
      looked. }
  (* get_file *)
  destruct (conn_get_file_cases faults source_file
              (log_call (ConnPathExists source_file) None w))
    as [[e E2]|(nm & st & data & Hsrc & E2)]; rewrite E2.
  { left. eexists [_; _]. split; [reflexivity|]. split; [|reflexivity].
    looked. }
  simpl in Hsrc.
  (* the conflict check *)
  unfold FileDownloader.try_body, FileDownloader.check_conflict.
  rewrite try_bind_bind.
  set (w2 := log_call (ConnGetFile source_file) None
               (log_call (ConnPathExists source_file) None w)).
  set (w3 := log_call (LocalExists local_file) None w2).
  set (h := fun e => ret (add_failed {| ff_path := source_file; ff_stats := st;
                                        ff_exception := e |} result)).
  destruct (local_exists_cases faults local_file w2) as [[e E3]|[b E3]].
  { rewrite (try_bind_Raise _ _ _ _ _ _ E3). left. eexists [_; _; _].
    split; [reflexivity|]. split; [|reflexivity].
    looked. }
  rewrite (try_bind_Ok _ _ _ _ _ _ E3). fold w3.
  assert (Hstop : forall o : outcome DownloadResult,
            world_of o = w3 ->
            exists new,
              calls (world_of o) = new ++ calls w
              /\ Forall looks new
              /\ local_files (world_of o) !! local_file = local_files w !! local_file).
  { intros o ->. eexists [_; _; _]. split; [reflexivity|]. split; [|reflexivity].
    looked. }
  assert (Hgo : forall replace,
            let o := try_except
                       (FileDownloader.transfer faults
                          {| rf_path := source_file; rf_stats := st |}
                          local_file (Some tmp) replace ;;
                        FileDownloader.after_transfer faults self
                          {| rf_path := source_file; rf_stats := st |} file_hwm ;;
                        ret (add_successful local_file result)) h w3 in
            (exists new,
                calls (world_of o) = new ++ calls w
                /\ Forall looks new
                /\ local_files (world_of o) !! local_file = local_files w !! local_file)
            \/ (exists pre post replace nm st data,
                  calls (world_of o)
                  = post ++ (ConnDownloadFile source_file tmp replace, None) :: pre ++ calls w
                  /\ Forall (fun c => is_look c.1) pre
                  /\ rlookup (parts source_file) (remote w) = Some (RFile nm st data)
                  /\ target_kept local_file data w (world_of o))).
  { intros replace. simpl.
    change (FileDownloader.transfer faults {| rf_path := source_file; rf_stats := st |}
              local_file (Some tmp) replace)
      with (conn_download_file faults {| rf_path := source_file; rf_stats := st |}
              tmp replace ;; swap_in faults local_file tmp replace).
    rewrite try_bind_bind.
    destruct (conn_download_file_cases faults {| rf_path := source_file; rf_stats := st |}
                tmp replace w3) as [[e E]|[[e E]|(nm' & st' & data' & Hl & E)]].
    - left. rewrite (try_bind_Raise _ _ _ _ _ _ E). simpl.
      eexists [_; _; _; _]. split; [reflexivity|]. split; [|reflexivity].
      apply List.Forall_cons; [right; eauto|]. looked.
    - left. rewrite (try_bind_Raise _ _ _ _ _ _ E). simpl.
      eexists [_; _; _; _]. split; [reflexivity|].
      split; [|apply lookup_insert_ne; exact Hne].
      apply List.Forall_cons; [right; eauto|]. looked.
    - right. simpl in Hl. rewrite Hsrc in Hl. injection Hl as <- <- <-.
      rewrite (try_bind_Ok _ _ _ _ _ _ E).
      set (w4 := log_call (ConnDownloadFile source_file tmp replace) None
                   (write_local tmp (Complete data) w3)).
      destruct (after_staging_keeps_target faults self
                  {| rf_path := source_file; rf_stats := st |} local_file tmp replace
                  result file_hwm h data w4 Hne) as [Hk [post Hpost]];
        [apply lookup_insert_eq|intros e w0; reflexivity|].
      exists [(LocalExists local_file, None); (ConnGetFile source_file, None);
              (ConnPathExists source_file, None)], post, replace, nm, st, data.
      split; [exact Hpost|].
      split; [repeat constructor|]. split; [exact Hsrc|].
      unfold target_kept in *. simpl in Hk.
      rewrite lookup_insert_ne in Hk by exact Hne. exact Hk. }
  destruct b.
  - destruct (decide (FileDownloader.mode (FileDownloader.options self) = ERROR)).
    { left. apply Hstop. reflexivity. }
    destruct (decide (FileDownloader.mode (FileDownloader.options self) = IGNORE)).
    { left. apply Hstop. reflexivity. }
    apply (Hgo true).
  - apply (Hgo false).
Qed.

Lemma staged_before_target_changes_witness :
  local_files (world_of Examples.staging_out) !! Examples.local_a_txt
  = Some (Complete "old").
Proof.
  destruct (staged_before_target_changes Examples.disk_full Examples.overwriting
              Examples.a_txt Examples.local_a_txt Examples.tmp_a_txt empty_result None
              Examples.stale_world)
    as [(new & _ & _ & H)|(pre & post & replace & nm & st & data & Hc & _)].
  - discriminate.
  - exact H.
  - exfalso.
    assert (Hin : (ConnDownloadFile Examples.a_txt Examples.tmp_a_txt replace, @None exn)
                  ∈ calls (world_of Examples.staging_out)).
    { unfold Examples.staging_out. rewrite Hc. apply elem_of_app. right.
      apply list_elem_of_here. }
    vm_compute in Hin.
    repeat (apply elem_of_cons in Hin as [Hin|Hin]; [discriminate Hin|]).
    inversion Hin.
Defined.

(** ** C10: the default limit *)

Lemma total_files_app (xs ys : list walk_item) :
  total_files (xs ++ ys) = total_files xs + total_files ys.
Proof. induction xs as [|x xs IH]; simpl; [reflexivity|]. rewrite IH. lia. Qed.

Section CountingLimit.
Context (filters : list BaseFileFilter) (L : BaseFileLimit).
Context (n : nat) (count : limit_state L -> nat).
Context (Hfile : forall p s st, count (limit_observe L (EFile p s) st) = S (count st)).
Context (Hdir : forall p st, count (limit_observe L (EDir p) st) = count st).
Context (Hreach : forall st, limit_is_reached L st = (n <=? count st)).

Lemma scan_counted root entries :
  forall st, counted count n st (length (scan filters L root entries st).1.2)
                     (scan filters L root entries st).2.
Proof.
  induction entries as [|e rest IH]; intros st; simpl.
  - split; [lia|auto].
  - rewrite Hreach. destruct (n <=? count st) eqn:Hn; simpl; [split; [lia|auto]|].
    apply Nat.leb_gt in Hn.
    destruct e as [nm stt data|nm ch].
    + destruct (accepted filters _); [|apply IH].
      specialize (IH (limit_observe L (EFile (root // rel_path [nm]) stt) st)).
      destruct (scan filters L root rest _) as [[ds fs] st']. simpl in *.
      destruct IH as [Hc Hb]. rewrite Hfile in Hc, Hb. split; lia.
    + destruct (accepted filters _); [|apply IH].
      specialize (IH (limit_observe L (EDir (root // rel_path [nm])) st)).
      destruct (scan filters L root rest _) as [[ds fs] st']. simpl in *.
      destruct IH as [Hc Hb]. rewrite Hdir in Hc, Hb. split; lia.
Qed.

Lemma descend_counted walk root cs :
  Forall (fun c => forall r st, counted count n st (total_files (walk r c st).1) (walk r c st).2) cs ->
  forall st, counted count n st (total_files (descend filters L walk root cs st).1)
                     (descend filters L walk root cs st).2.
Proof.
  induction 1 as [|c cs Hc _ IH]; intros st; simpl.
  - split; [lia|auto].
  - destruct (selected_dir filters root c && negb (limit_is_reached L st)); [|apply IH].
    specialize (Hc (root // rel_path [rname c]) st).
    destruct (walk (root // rel_path [rname c]) c st) as [ys st']. simpl in Hc.
    specialize (IH st').
    destruct (descend filters L walk root cs st') as [zs st'']. simpl in *.
    rewrite total_files_app. destruct Hc as [H1 H2], IH as [H3 H4]. split; lia.
Qed.

Lemma walk_node_counted node :
  forall root st, counted count n st (total_files (walk_node filters L root node st).1)
                          (walk_node filters L root node st).2.
Proof.
  induction node as [nm stt data|nm ch IH] using rnode_ind'; intros root st; simpl.
  - split; [lia|auto].
  - pose proof (scan_counted root ch st) as Hs.
    destruct (scan filters L root ch st) as [[ds fs] st1]. simpl in Hs.
    pose proof (descend_counted (walk_node filters L) root ch IH st1) as Hd.
    destruct (descend filters L (walk_node filters L) root ch st1) as [below st2].
    simpl in *. destruct Hs as [H1 H2], Hd as [H3 H4]. split; lia.
Qed.
End CountingLimit.

Lemma length_oset_add {A} `{EqDecision A} (x : A) (l : list A) :
  length (oset_add x l) <= S (length l).
Proof.
  unfold oset_add. destruct (decide (x ∈ l)); [lia|]. rewrite length_app. simpl. lia.
Qed.

Lemma collect_files_length root files :
  forall acc : list RemoteFile,
    length (fold_left
              (fun result '(file, stats) =>
                 oset_add {| rf_path := root // rel_path [file]; rf_stats := stats |} result)
              files acc)
    <= length acc + length files.
Proof.
  induction files as [|[file stats] rest IH]; intros acc; simpl; [lia|].
  etransitivity; [apply IH|]. pose proof (length_oset_add
    {| rf_path := root // rel_path [file]; rf_stats := stats |} acc). lia.
Qed.

Lemma collect_length walked : length (FileDownloader.collect walked) <= total_files walked.
Proof.
  unfold FileDownloader.collect.
  assert (H : forall acc : list RemoteFile,
            length (fold_left
                      (fun result '(root, _, files) =>
                         fold_left
                           (fun result '(file, stats) =>
                              oset_add {| rf_path := root // rel_path [file];
                                          rf_stats := stats |} result)
                           files result)
                      walked acc)
            <= length acc + total_files walked).
  { induction walked as [|[[root ds] files] rest IH]; intros acc; simpl; [lia|].
    etransitivity; [apply IH|]. pose proof (collect_files_length root files acc). lia. }
  apply (H []).
Qed.

(** What [view_files] returns is what the walk listed. *)
Lemma view_files_Ok faults self w fs w' :
  FileDownloader.view_files faults self w = Ok fs w' ->
  exists sp filters nm ch,
    FileDownloader.source_path self = Some sp
    /\ fs = FileDownloader.collect
              (walk_node filters
                 (all_limits (match FileDownloader.limit self with
                              | Some l => [l] | None => [] end))
                 sp (RDir nm ch)
                 (limit_reset (all_limits (match FileDownloader.limit self with
                                           | Some l => [l] | None => [] end)))).1.
Proof.
  unfold FileDownloader.view_files. intros H.
  apply bind_inv_Ok in H as (? & w1 & _ & H).
  apply bind_inv_Ok in H as (hf & w2 & _ & H).
  unfold try_except in H.
  destruct (FileDownloader.source_path self) as [sp|]; [|discriminate].
  match type of H with
  | match ?o with _ => _ end = _ => destruct o as [fs0 w3|e w3] eqn:Hbody
  end; [|discriminate].
  injection H as <- <-.
  apply bind_inv_Ok in Hbody as (walked & w4 & Hwalk & Hret).
  injection Hret as <- _.
  unfold conn_walk in Hwalk. apply call_inv_Ok in Hwalk as (w5 & Hsem & _).
  destruct (rlookup (parts sp) (remote w2)) as [[nm st data|nm ch]|]; try discriminate.
  injection Hsem as <- _.
  exists sp, (match FileDownloader.filter self with Some f => [f] | None => [] end ++ hf),
    nm, ch.
  split; reflexivity.
Qed.

(** C10. A downloader constructed without a [limit] argument carries the
    default [FileLimit], [view_files] and [run] without a file collection
    hand it to the walk, and what they enumerate holds at most 100 files. *)
Theorem default_limit_caps_enumeration (faults : Faults)
    (connection : FileDownloader.BaseFileConnection) (local_path : path)
    (source_path temp_path : option path) (flt : option BaseFileFilter)
    (hwm_type : option FileDownloader.hwm_class) (options : option FileDownloader.Options)
    (self : FileDownloader.t) :
  FileDownloader.create connection local_path source_path temp_path flt None hwm_type
    options = inr self ->
  FileDownloader.limit self = Some (FileLimit 100)
  /\ (forall w fs w', FileDownloader.view_files faults self w = Ok fs w' ->
                      length fs <= 100)
  /\ (forall w fs w1, run_candidates faults self None w = Ok fs w1 -> length fs <= 100).
Proof.
  intros Hcreate.
  assert (Hlimit : FileDownloader.limit self = Some (FileLimit 100)).
  { unfold FileDownloader.create in Hcreate.
    destruct hwm_type as [c|].
    - destruct source_path; [|discriminate].
      destruct (FileDownloader._check_hwm_type c); [discriminate|].
      injection Hcreate as <-. reflexivity.
    - injection Hcreate as <-. reflexivity. }
  assert (Hview : forall w fs w', FileDownloader.view_files faults self w = Ok fs w' ->
                                  length fs <= 100).
  { intros w fs w' H. apply view_files_Ok in H as (sp & filters & nm & ch & _ & ->).
    rewrite Hlimit. etransitivity; [apply collect_length|].
    pose proof (walk_node_counted filters (all_limits [FileLimit 100]) 100
                  (fun st => st.1) (fun _ _ _ => eq_refl) (fun _ _ => eq_refl)
                  (fun st => orb_false_r _) (RDir nm ch) sp
                  (limit_reset (all_limits [FileLimit 100]))) as Hw.
    unfold counted in Hw. cbv beta in Hw.
    remember (walk_node filters (all_limits [FileLimit 100]) sp (RDir nm ch)
                (limit_reset (all_limits [FileLimit 100]))) as r.
    change ((limit_reset (all_limits [FileLimit 100])).1) with 0 in Hw.
    destruct Hw as [Hc Hb]. specialize (Hb (Nat.le_0_l _)). lia. }
  split; [exact Hlimit|]. split; [exact Hview|].
  intros w fs w1 H. unfold run_candidates in H.
  apply bind_inv_Ok in H as (? & w2 & _ & H).
  destruct (_ && _); [discriminate|].
  apply bind_inv_Ok in H as (? & w3 & _ & H).
  apply bind_inv_Ok in H as (? & w4 & _ & H).
  apply bind_inv_Ok in H as (? & w5 & _ & H).
  apply bind_inv_Ok in H as (fs0 & w6 & Hv & H).
  injection H as <- _. rewrite length_map. exact (Hview _ _ _ Hv).
Qed.

Lemma default_limit_caps_enumeration_witness :
  FileDownloader.limit Examples.mirror = Some (FileLimit 100)
  /\ forall w fs w',
       FileDownloader.view_files no_faults Examples.mirror w = Ok fs w' -> length fs <= 100.
Proof.
  destruct (default_limit_caps_enumeration no_faults Examples.ftp Examples.local_dir
              (Some Examples.remote_dir) None None None None Examples.mirror)
    as (H1 & H2 & _).
  - reflexivity.
  - split; [exact H1|exact H2].
Defined.

(** The default limit at work: of 150 remote files, 100 are enumerated. *)
Example default_limit_stops_at_100 :
  length <$> returned (FileDownloader.view_files no_faults Examples.mirror
                         Examples.crowded_world) = Some 100.
Proof. vm_compute. reflexivity. Qed.

(** ** The scenarios of the spec *)

(** Scenario A: a whole source directory, no filters; the directory
    structure is kept. *)
Example scenario_a :
  returned (FileDownloader.run no_faults Examples.temp_dir Examples.mirror None
              Examples.empty_world)
  = Some {| successful := [Examples.local_a_txt; Examples.local_b_txt;
                           abs_path ["local"; "sub"; "b.txt"]];
            failed := []; skipped := []; missing := [] |}.
Proof. vm_compute. reflexivity. Qed.

(** Scenario B: an explicit list with a file that is not there. *)
Example scenario_b :
  returned (FileDownloader.run no_faults Examples.temp_dir Examples.mirror
              (Some Examples.scenario_b_files) Examples.empty_world)
  = Some Examples.scenario_b_result.
Proof. vm_compute. reflexivity. Qed.

(** Scenario C: the target exists with other content, mode [overwrite]. *)
Example scenario_c :
  let out := FileDownloader.run no_faults Examples.temp_dir Examples.overwriting
               (Some [Examples.a_txt]) Examples.stale_world in
  returned out = Some {| successful := [Examples.local_a_txt]; failed := [];
                         skipped := []; missing := [] |}
  /\ local_files (world_of out) !! Examples.local_a_txt = Some (Complete "AAA").
Proof. vm_compute. split; reflexivity. Qed.

(** P5: with [ignore], a second run over the same files skips them all. *)
Example rerun_with_ignore :
  let self := Examples.downloader (Some Examples.remote_dir) None IGNORE false None in
  let first := FileDownloader.run no_faults Examples.temp_dir self None
                 Examples.empty_world in
  let second := FileDownloader.run no_faults Examples.temp_dir self None
                  (world_of first) in
  (length ∘ successful <$> returned first) = Some 3
  /\ (length ∘ skipped <$> returned first) = Some 0
  /\ (length ∘ successful <$> returned second) = Some 0
  /\ (length ∘ skipped <$> returned second) = Some 3.
Proof. vm_compute. repeat split; reflexivity. Qed.

(** With [temp_path] configured, every candidate [_validate_files] returns
    carries a temporary path. *)
Lemma validated_items_have_temp faults self gtp tp files w items w' :
  FileDownloader.temp_path self = Some tp ->
  FileDownloader._validate_files faults self files
    (gtp <$> FileDownloader.temp_path self) w = Ok items w' ->
  forall i, i ∈ items -> is_Some (FileDownloader.item_temp i).
Proof.
  intros Htp Hval i Hi. rewrite Htp in Hval. simpl in Hval.
  unfold FileDownloader._validate_files in Hval.
  apply validate_loop_resolved in Hval as [_ Hres].
  - destruct (Hres i Hi) as (f & Hf).
    destruct (FileDownloader.source_path self) as [sp|] eqn:Hsp.
    + destruct (resolve_item_below _ _ _ _ _ Hsp Hf) as (x & _ & ->). simpl. eauto.
    + destruct (resolve_item_flat _ _ _ _ Hsp Hf) as (_ & ->). simpl. eauto.
  - apply NoDup_nil_2.
  - intros j Hj. inversion Hj.
Qed.

(** * Further properties *)

(** ** The calls a run may make *)

Lemma within_refl P w : within P w w.
Proof. split; [apply logs_refl|]. repeat split; reflexivity. Qed.

Lemma within_trans P w1 w2 w3 : within P w1 w2 -> within P w2 w3 -> within P w1 w3.
Proof.
  intros (L1 & S1 & R1 & H1 & C1) (L2 & S2 & R2 & H2 & C2).
  split; [exact (logs_trans _ _ _ _ L1 L2)|].
  split; [congruence|].
  split; [intros Hn; rewrite (R2 Hn); exact (R1 Hn)|].
  split; [intros Hn; rewrite (H2 Hn); exact (H1 Hn)|].
  intros Hn; rewrite (C2 Hn); exact (C1 Hn).
Qed.

Lemma within_log P op e w : P op -> within P w (log_call op e w).
Proof.
  intros HP. split; [apply logs_one; [exact HP|reflexivity]|].
  repeat split; reflexivity.
Qed.

Lemma keeps_post_bind {A B} R (Q : A -> Prop) (m : M A) (k : A -> M B) :
  (forall w1 w2 w3, R w1 w2 -> R w2 w3 -> R w1 w3) ->
  keeps_post R Q m -> (forall a, Q a -> keeps R (k a)) -> keeps R (bind m k).
Proof.
  intros Htr [Hm HQ] Hk w. unfold bind. specialize (Hm w).
  destruct (m w) as [a w1|e w1] eqn:Hmw; simpl in *; [|exact Hm].
  exact (Htr _ _ _ Hm (Hk a (HQ _ _ _ Hmw) w1)).
Qed.

(** A call whose meaning changes nothing but what [P] lets [op] change. *)
Lemma within_call {A} P faults op (sem : World -> exn + (A * World)) :
  P op ->
  (forall w a w1, sem w = inr (a, w1) ->
     calls w1 = calls w /\ current_strategy w1 = current_strategy w
     /\ ((forall p, ~ P (ConnRemoveFile p)) -> remote w1 = remote w)
     /\ ((forall h, ~ P (StoreSave h)) -> hwm_store w1 = hwm_store w)
     /\ ((forall p, ~ P (HwmUpdate p)) -> hwm_cell w1 = hwm_cell w)) ->
  keeps (within P) (call faults op sem).
Proof.
  intros HP Hsem. apply keeps_call.
  - intros w e. apply within_log, HP.
  - intros w a w1 Hs. destruct (Hsem _ _ _ Hs) as (Hc & Hst & Hr & Hh & Hm).
    split; [apply logs_one; [exact HP|exact Hc]|].
    simpl. repeat split; assumption.
Qed.

Ltac framed :=
  let w := fresh in let a := fresh in let w1 := fresh in let H := fresh in
  intros w a w1 H; cbv beta zeta in H;
  repeat match type of H with
         | context [match ?x with _ => _ end] => destruct x; try discriminate
         end;
  injection H as _ <-; simpl; repeat split; try reflexivity.

Section WithinPrimitives.
Context (P : Op -> Prop) (faults : Faults).

Lemma within_conn_check : P ConnCheck -> keeps (within P) (conn_check faults).
Proof. intros H. apply within_call; [exact H|framed]. Qed.

Lemma within_conn_path_exists p :
  P (ConnPathExists p) -> keeps (within P) (conn_path_exists faults p).
Proof. intros H. apply within_call; [exact H|framed]. Qed.

Lemma within_conn_get_file p : P (ConnGetFile p) -> keeps (within P) (conn_get_file faults p).
Proof. intros H. apply within_call; [exact H|framed]. Qed.

Lemma within_conn_get_directory p :
  P (ConnGetDirectory p) -> keeps (within P) (conn_get_directory faults p).
Proof. intros H. apply within_call; [exact H|framed]. Qed.

Lemma within_conn_walk root filters limits :
  P (ConnWalk root) -> keeps (within P) (conn_walk faults root filters limits).
Proof. intros H. apply within_call; [exact H|framed]. Qed.

Lemma within_conn_remove_file f :
  P (ConnRemoveFile (rf_path f)) -> keeps (within P) (conn_remove_file faults f).
Proof.
  intros H. apply within_call; [exact H|framed].
  intros Hn. destruct (Hn _ H).
Qed.

Lemma within_conn_download_file f dst replace :
  P (ConnDownloadFile (rf_path f) dst replace) ->
  keeps (within P) (conn_download_file faults f dst replace).
Proof.
  intros H w. unfold conn_download_file.
  repeat match goal with
         | |- context [match ?x with _ => _ end] => destruct x
         end; simpl;
    (split; [apply logs_one; [exact H|reflexivity]|repeat split; reflexivity]).
Qed.

Lemma within_local_exists p : P (LocalExists p) -> keeps (within P) (local_exists faults p).
Proof. intros H. apply within_call; [exact H|framed]. Qed.

Lemma within_local_is_dir p : P (LocalIsDir p) -> keeps (within P) (local_is_dir faults p).
Proof. intros H. apply within_call; [exact H|framed]. Qed.

Lemma within_local_mkdir p b1 b2 :
  P (LocalMkdir p b1 b2) -> keeps (within P) (local_mkdir faults p b1 b2).
Proof. intros H. apply within_call; [exact H|framed]. Qed.

Lemma within_local_unlink p : P (LocalUnlink p) -> keeps (within P) (local_unlink faults p).
Proof. intros H. apply within_call; [exact H|framed]. Qed.

Lemma within_local_move p q : P (LocalMove p q) -> keeps (within P) (local_move faults p q).
Proof. intros H. apply within_call; [exact H|framed]. Qed.

Lemma within_local_rmtree p : P (LocalRmtree p) -> keeps (within P) (local_rmtree faults p).
Proof. intros H. apply within_call; [exact H|framed]. Qed.

Lemma within_store_get nm : P (StoreGet nm) -> keeps (within P) (store_get faults nm).
Proof. intros H. apply within_call; [exact H|framed]. Qed.

Lemma within_hwm_update f : P (HwmUpdate (rf_path f)) -> keeps (within P) (hwm_update faults f).
Proof.
  intros H. apply within_call; [exact H|framed].
  intros Hn. destruct (Hn _ H).
Qed.

Lemma within_store_save : (forall h, P (StoreSave h)) -> keeps (within P) (store_save faults).
Proof.
  intros H w. unfold store_save. destruct (hwm_cell w) as [h|]; [|apply within_refl].
  apply within_call; [apply H|framed].
  intros Hn. destruct (Hn _ (H h)).
Qed.
End WithinPrimitives.

Section RunCalls.
Context (faults : Faults) (gtp : path -> path) (self : FileDownloader.t).
Context (files : option (list path)).

Ltac wstep :=
  lazymatch goal with
  | |- keeps (within ?P) _ =>
      first
        [ apply (keeps_bind (within P) (within_trans P)); [|intros ?]
        | apply (keeps_ret (within P) (within_refl P))
        | apply (keeps_raise (within P) (within_refl P))
        | apply (keeps_try_except (within P) (within_trans P)); [|intros ?]
        | apply within_conn_check; exact I
        | apply within_conn_path_exists; exact I
        | apply within_conn_get_file; exact I
        | apply within_local_exists; exact I
        | apply within_local_is_dir; exact I
        | apply within_local_mkdir; exact I ]
  end.

Lemma within_check_strategy :
  keeps (within (may_call gtp self files)) (FileDownloader._check_strategy self).
Proof.
  intros w. unfold FileDownloader._check_strategy.
  repeat match goal with
         | |- context [match ?x with _ => _ end] => destruct x
         end; apply within_refl.
Qed.

Lemma within_check_local_path :
  keeps (within (may_call gtp self files)) (FileDownloader._check_local_path faults self).
Proof.
  unfold FileDownloader._check_local_path.
  wstep; [wstep|]. wstep; [|wstep].
  destruct a; [|wstep]. wstep; [wstep|]. destruct (negb _); wstep.
Qed.

Lemma within_check_source_path :
  keeps (within (may_call gtp self files)) (FileDownloader._check_source_path faults self).
Proof.
  unfold FileDownloader._check_source_path.
  destruct (FileDownloader.source_path self) as [sp|] eqn:Hsp; [|wstep].
  apply within_conn_get_directory. exact Hsp.
Qed.

Lemma within_get_hwm :
  keeps (within (may_call gtp self files)) (FileDownloader._get_hwm faults self).
Proof.
  unfold FileDownloader._get_hwm.
  destruct (FileDownloader.hwm_type self) as [c|] eqn:Hc; [|wstep].
  destruct (FileDownloader.source_path self); [|wstep].
  wstep.
  - apply within_store_get. simpl. rewrite Hc. eauto.
  - destruct (hwm_is_file _); wstep.
Qed.

Lemma within_view_files :
  files = None ->
  keeps (within (may_call gtp self files)) (FileDownloader.view_files faults self).
Proof.
  intros Hf. unfold FileDownloader.view_files.
  wstep; [apply within_check_source_path|].
  wstep.
  - destruct (FileDownloader.hwm_type self); [|wstep].
    wstep; [apply within_get_hwm|wstep].
  - wstep; [|wstep].
    destruct (FileDownloader.source_path self) as [sp|] eqn:Hsp; [|wstep].
    wstep; [|wstep]. apply within_conn_walk. split; [exact Hf|exact Hsp].
Qed.

Lemma within_validate_loop tmp fs :
  forall acc, keeps (within (may_call gtp self files))
                    (FileDownloader.validate_loop faults self fs tmp acc).
Proof.
  induction fs as [|f rest IH]; intros acc; simpl; [wstep|].
  destruct (FileDownloader.resolve_item self tmp f) as [e|[[s l] t]]; [wstep|].
  wstep; [wstep|]. wstep; [|apply IH].
  destruct a; [|wstep]. wstep; [wstep|wstep].
Qed.

Lemma within_check_conflict local_file :
  keeps_post (within (may_call gtp self files))
    (fun c => c = FileDownloader.Proceed true ->
              FileDownloader.mode (FileDownloader.options self) = OVERWRITE
              \/ FileDownloader.mode (FileDownloader.options self) = DELETE_ALL)
    (FileDownloader.check_conflict faults self local_file).
Proof.
  unfold FileDownloader.check_conflict. split.
  - wstep; [wstep|]. destruct a; [|wstep].
    destruct (decide _); [wstep|]. destruct (decide _); wstep.
  - intros w c w' H. apply bind_inv_Ok in H as (ex & w1 & _ & H).
    destruct ex; [|injection H as <- _; discriminate].
    destruct (decide _) as [|Hne]; [discriminate|].
    destruct (decide _) as [|Hni]; [injection H as <- _; discriminate|].
    intros _. destruct (FileDownloader.mode _); try contradiction; eauto.
Qed.

Lemma within_transfer f local_file tmp_file (replace : bool) :
  (is_Some tmp_file -> is_Some (FileDownloader.temp_path self)) ->
  (replace = true ->
   FileDownloader.mode (FileDownloader.options self) = OVERWRITE
   \/ FileDownloader.mode (FileDownloader.options self) = DELETE_ALL) ->
  keeps (within (may_call gtp self files))
        (FileDownloader.transfer faults f local_file tmp_file replace).
Proof.
  intros Htmp Hrep. unfold FileDownloader.transfer.
  destruct tmp_file as [tmp|].
  - assert (Ht : is_Some (FileDownloader.temp_path self)) by (apply Htmp; eauto).
    wstep; [apply within_conn_download_file; exact Hrep|].
    wstep.
    + destruct replace; [|wstep]. wstep; [wstep|].
      destruct a0; [|wstep]. apply within_local_unlink. split; [auto|exact Ht].
    + wstep; [wstep|]. apply within_local_move. exact Ht.
  - apply within_conn_download_file. exact Hrep.
Qed.

Lemma within_after_transfer f file_hwm :
  (is_Some file_hwm -> is_Some (FileDownloader.hwm_type self)) ->
  keeps (within (may_call gtp self files))
        (FileDownloader.after_transfer faults self f file_hwm).
Proof.
  intros Hh. unfold FileDownloader.after_transfer.
  wstep.
  - destruct file_hwm; [|wstep].
    assert (Ht : is_Some (FileDownloader.hwm_type self)) by (apply Hh; eauto).
    wstep; [apply within_hwm_update; exact Ht|].
    apply within_store_save. intros ?. exact Ht.
  - destruct (FileDownloader.delete_source _) eqn:Hd; [|wstep].
    apply within_conn_remove_file. exact Hd.
Qed.

Lemma within_try_body f local_file tmp_file result file_hwm :
  (is_Some tmp_file -> is_Some (FileDownloader.temp_path self)) ->
  (is_Some file_hwm -> is_Some (FileDownloader.hwm_type self)) ->
  keeps (within (may_call gtp self files))
        (FileDownloader.try_body faults self f local_file tmp_file result file_hwm).
Proof.
  intros Htmp Hh. unfold FileDownloader.try_body.
  apply (keeps_post_bind _ _ _ _ (within_trans _) (within_check_conflict local_file)).
  intros [|replace] Hc; [wstep|].
  wstep; [apply within_transfer; [exact Htmp|intros ->; auto]|].
  wstep; [apply within_after_transfer; exact Hh|wstep].
Qed.

Lemma within_download_file s l t result file_hwm :
  (is_Some t -> is_Some (FileDownloader.temp_path self)) ->
  (is_Some file_hwm -> is_Some (FileDownloader.hwm_type self)) ->
  keeps (within (may_call gtp self files))
        (FileDownloader._download_file faults self s l t result file_hwm).
Proof.
  intros Htmp Hh. unfold FileDownloader._download_file.
  wstep; [wstep|].
  destruct (negb a); [wstep|].
  intros w.
  pose proof (within_conn_get_file (may_call gtp self files) faults s I w) as Hg.
  destruct (conn_get_file faults s w) as [f w1|e w1]; simpl in *; [|exact Hg].
  apply (within_trans _ _ _ _ Hg).
  apply (keeps_try_except _ (within_trans _));
    [apply within_try_body; assumption|intros ?; wstep].
Qed.

Lemma within_download_loop items file_hwm :
  (forall i, i ∈ items ->
             is_Some (FileDownloader.item_temp i) -> is_Some (FileDownloader.temp_path self)) ->
  (is_Some file_hwm -> is_Some (FileDownloader.hwm_type self)) ->
  forall result,
    keeps (within (may_call gtp self files))
          (FileDownloader.download_loop faults self items result file_hwm).
Proof.
  intros Htmp Hh.
  induction items as [|[[s l] t] rest IH]; intros result; simpl; [wstep|].
  wstep.
  - apply within_download_file; [|exact Hh].
    apply (Htmp (s, l, t)). apply list_elem_of_here.
  - apply IH. intros i Hi. apply Htmp. apply list_elem_of_further, Hi.
Qed.

Lemma within_download_phase items :
  (forall i, i ∈ items ->
             is_Some (FileDownloader.item_temp i) -> is_Some (FileDownloader.temp_path self)) ->
  keeps (within (may_call gtp self files)) (download_phase faults self items).
Proof.
  intros Htmp. unfold download_phase.
  destruct (FileDownloader.hwm_type self) as [c|] eqn:Hc.
  - unfold FileDownloader._hwm_processing.
    wstep; [apply within_get_hwm|].
    wstep.
    + intros w. split; [exists []; split; [reflexivity|constructor]|]. simpl.
      repeat split; try reflexivity.
      intros Hn. exfalso. apply (Hn (abs_path [])). simpl. rewrite Hc. eauto.
    + apply within_download_loop; [exact Htmp|]. intros _. rewrite Hc. eauto.
  - apply within_download_loop; [exact Htmp|]. intros [? [=]].
Qed.

Lemma validated_temps tmp fs :
  keeps_post (within (may_call gtp self files))
    (fun items => forall i, i ∈ items ->
                  is_Some (FileDownloader.item_temp i) -> is_Some tmp)
    (FileDownloader._validate_files faults self fs tmp).
Proof.
  split; [apply within_validate_loop|].
  intros w items w' Hval i Hi.
  unfold FileDownloader._validate_files in Hval.
  apply validate_loop_resolved in Hval as [_ Hres].
  - destruct (Hres i Hi) as (f & Hf).
    destruct (FileDownloader.source_path self) as [sp|] eqn:Hsp.
    + destruct (resolve_item_below _ _ _ _ _ Hsp Hf) as (x & _ & ->). simpl.
      destruct tmp; simpl; [eauto|intros [? [=]]].
    + destruct (resolve_item_flat _ _ _ _ Hsp Hf) as (_ & ->). simpl.
      destruct tmp; simpl; [eauto|intros [? [=]]].
  - apply NoDup_nil_2.
  - intros j Hj. inversion Hj.
Qed.

(** Every external call of [run] is one its configuration allows. *)
Lemma run_calls_allowed :
  keeps (within (may_call gtp self files)) (FileDownloader.run faults gtp self files).
Proof.
  unfold FileDownloader.run.
  wstep; [apply within_check_strategy|].
  destruct (_ && _) eqn:Hnone; [wstep|].
  wstep; [apply within_check_local_path|].
  wstep; [wstep|].
  wstep.
  { destruct (FileDownloader.source_path self); [apply within_check_source_path|wstep]. }
  wstep.
  { pose proof within_view_files as Hv.
    destruct files as [fs|]; [wstep|].
    wstep; [|wstep]. apply Hv. reflexivity. }
  match goal with l : list path |- _ => destruct l as [|f fs] end; [wstep|].
  apply (keeps_post_bind _ _ _ _ (within_trans _)
           (validated_temps (gtp <$> FileDownloader.temp_path self) (f :: fs))).
  intros items Hitems.
  assert (Htmp : forall i, i ∈ items -> is_Some (FileDownloader.item_temp i) ->
                           is_Some (FileDownloader.temp_path self)).
  { intros i Hi Ht. specialize (Hitems i Hi Ht).
    destruct (FileDownloader.temp_path self); [eauto|destruct Hitems as [? [=]]]. }
  wstep.
  { destruct (decide _) as [Hm|]; [|wstep].
    wstep; [wstep|]. wstep; [|wstep].
    match goal with b : bool |- _ => destruct b end; [|wstep]. apply within_local_rmtree. left. split; [exact Hm|reflexivity]. }
  wstep; [apply (within_download_phase items Htmp)|].
  wstep; [|wstep].
  destruct (gtp <$> FileDownloader.temp_path self) as [d|] eqn:Hd; [|wstep].
  unfold FileDownloader._remove_temp_dir.
  wstep; [|wstep]. apply within_local_rmtree. right. exact Hd.
Qed.
End RunCalls.

(** *** What follows for the options of the downloader *)

Lemma logs_impl (P Q : Op -> Prop) w w' :
  (forall op, P op -> Q op) -> logs P w w' -> logs Q w w'.
Proof.
  intros HPQ (new & Hc & HF). exists new. split; [exact Hc|].
  eapply Forall_impl; [exact HF|]. intros c. apply HPQ.
Qed.

(** X12. Without [delete_source], [run] never calls [remove_file], and the
    remote tree is the one it started from, whatever else fails and whether
    [run] returns or raises. *)
Theorem run_keeps_remote_without_delete_source (faults : Faults) (gtp : path -> path)
    (self : FileDownloader.t) (files : option (list path)) (w : World) :
  FileDownloader.delete_source (FileDownloader.options self) = false ->
  let w' := world_of (FileDownloader.run faults gtp self files w) in
  logs (fun op => forall p, op <> ConnRemoveFile p) w w'
  /\ remote w' = remote w.
Proof.
  intros Hd w'.
  destruct (run_calls_allowed faults gtp self files w) as (L & _ & R & _ & _).
  split.
  - eapply logs_impl; [|exact L]. intros op Hop p ->. simpl in Hop. congruence.
  - apply R. intros p Hp. simpl in Hp. congruence.
Qed.

Lemma run_keeps_remote_without_delete_source_witness :
  let w' := world_of (FileDownloader.run no_faults Examples.temp_dir Examples.mirror None
                        Examples.empty_world) in
  logs (fun op => forall p, op <> ConnRemoveFile p) Examples.empty_world w'
  /\ remote w' = remote Examples.empty_world.
Proof.
  apply (run_keeps_remote_without_delete_source no_faults Examples.temp_dir
           Examples.mirror None Examples.empty_world).
  reflexivity.
Defined.

(** X13. Without [hwm_type], [run] never asks the HWM store for anything nor
    saves to it: the store and the in-memory HWM are as they were. *)
Theorem run_keeps_hwm_store_without_hwm_type (faults : Faults) (gtp : path -> path)
    (self : FileDownloader.t) (files : option (list path)) (w : World) :
  FileDownloader.hwm_type self = None ->
  let w' := world_of (FileDownloader.run faults gtp self files w) in
  logs (fun op => ~ is_hwm_call op) w w'
  /\ hwm_store w' = hwm_store w
  /\ hwm_cell w' = hwm_cell w.
Proof.
  intros Hh w'.
  destruct (run_calls_allowed faults gtp self files w) as (L & _ & _ & S & C).
  split; [|split].
  - eapply logs_impl; [|exact L]. intros op Hop Hc.
    destruct op; simpl in Hc; try contradiction; simpl in Hop;
      rewrite Hh in Hop; destruct Hop as [? [=]].
  - apply S. intros h Hp. simpl in Hp. rewrite Hh in Hp. destruct Hp as [? [=]].
  - apply C. intros p Hp. simpl in Hp. rewrite Hh in Hp. destruct Hp as [? [=]].
Qed.

Lemma run_keeps_hwm_store_without_hwm_type_witness :
  let w' := world_of (FileDownloader.run no_faults Examples.temp_dir Examples.mirror None
                        Examples.empty_world) in
  logs (fun op => ~ is_hwm_call op) Examples.empty_world w'
  /\ hwm_store w' = hwm_store Examples.empty_world
  /\ hwm_cell w' = hwm_cell Examples.empty_world.
Proof.
  apply (run_keeps_hwm_store_without_hwm_type no_faults Examples.temp_dir
           Examples.mirror None Examples.empty_world).
  reflexivity.
Defined.


(** X14. In the modes [error] and [ignore], [run] never asks for a
    replacement: every [download_file] is called with [replace=False] and
    [unlink] is never called. *)
Theorem run_never_replaces_in_error_or_ignore_mode (faults : Faults) (gtp : path -> path)
    (self : FileDownloader.t) (files : option (list path)) (w : World) :
  FileDownloader.mode (FileDownloader.options self) = ERROR
  \/ FileDownloader.mode (FileDownloader.options self) = IGNORE ->
  logs (fun op => ~ is_replacing op) w
       (world_of (FileDownloader.run faults gtp self files w)).
Proof.
  intros Hm.
  destruct (run_calls_allowed faults gtp self files w) as (L & _).
  eapply logs_impl; [|exact L]. intros op Hop Hr.
  destruct op; simpl in Hr; try contradiction; simpl in Hop.
  - destruct (Hop Hr) as [H|H]; destruct Hm as [H'|H']; congruence.
  - destruct Hop as [[H|H] _]; destruct Hm as [H'|H']; congruence.
Qed.

Lemma run_never_replaces_in_error_or_ignore_mode_witness :
  logs (fun op => ~ is_replacing op) Examples.stale_world
       (world_of (FileDownloader.run no_faults Examples.temp_dir Examples.mirror
                    (Some [Examples.a_txt]) Examples.stale_world)).
Proof.
  apply (run_never_replaces_in_error_or_ignore_mode no_faults Examples.temp_dir
           Examples.mirror (Some [Examples.a_txt]) Examples.stale_world).
  left. reflexivity.
Defined.

(** X15. The only directories [run] removes are [local_path], and only in
    the mode [delete_all], and the temporary directory generated for this
    run; without [temp_path] it neither moves nor unlinks a local file. *)
Theorem run_removes_only_its_directories (faults : Faults) (gtp : path -> path)
    (self : FileDownloader.t) (files : option (list path)) (w : World) :
  logs (fun op =>
          match op with
          | LocalRmtree p =>
              (FileDownloader.mode (FileDownloader.options self) = DELETE_ALL
               /\ p = FileDownloader.local_path self)
              \/ gtp <$> FileDownloader.temp_path self = Some p
          | LocalUnlink _ | LocalMove _ _ => is_Some (FileDownloader.temp_path self)
          | _ => True
          end) w
       (world_of (FileDownloader.run faults gtp self files w)).
Proof.
  destruct (run_calls_allowed faults gtp self files w) as (L & _).
  eapply logs_impl; [|exact L]. intros op Hop.
  destruct op; simpl in Hop; try exact I; try exact Hop. exact (proj2 Hop).
Qed.

(** ** The checks at the start of a run *)

(** X3. [run] without a file collection, on a downloader without
    [source_path], raises [ValueError] in the world it started from: no
    external call was made. *)
Theorem run_needs_files_or_source_path (faults : Faults) (gtp : path -> path)
    (self : FileDownloader.t) (w : World) :
  FileDownloader.source_path self = None ->
  exists msg, FileDownloader.run faults gtp self None w = Raise (ValueError msg) w.
Proof.
  intros Hsp. unfold FileDownloader.run, bind, FileDownloader._check_strategy.
  rewrite Hsp. rewrite !bool_decide_true by reflexivity. simpl.
  destruct (FileDownloader.hwm_type self); [|unfold raise; eauto].
  destruct (negb _); [eauto|]. destruct (truthy _); [eauto|].
  destruct (is_BatchHWMStrategy _); unfold raise; eauto.
Qed.

Lemma run_needs_files_or_source_path_witness :
  exists msg, FileDownloader.run no_faults Examples.temp_dir Examples.flat None
                Examples.empty_world
              = Raise (ValueError msg) Examples.empty_world.
Proof.
  apply (run_needs_files_or_source_path no_faults Examples.temp_dir Examples.flat
           Examples.empty_world).
  reflexivity.
Defined.

(** X4. When [local_path] is an existing file, [run] raises
    [NotADirectoryError] after two look-ups on the local side: the
    connection was not contacted and nothing was created. *)
Theorem run_refuses_file_as_local_path (faults : Faults) (gtp : path -> path)
    (self : FileDownloader.t) (files : option (list path)) (w : World) (d : file_data) :
  never_fails faults ->
  (files = None -> is_Some (FileDownloader.source_path self)) ->
  FileDownloader._check_strategy self w = Ok tt w ->
  local_files w !! FileDownloader.local_path self = Some d ->
  FileDownloader.local_path self ∉ local_dirs w ->
  FileDownloader.run faults gtp self files w
  = Raise (NotADirectoryError (FileDownloader.local_path self))
          (log_call (LocalIsDir (FileDownloader.local_path self)) None
             (log_call (LocalExists (FileDownloader.local_path self)) None w)).
Proof.
  intros Hq Hfiles Hst Hfile Hdir.
  unfold FileDownloader.run. unfold bind at 1. rewrite Hst.
  assert (Hno : bool_decide (files = None)
                && bool_decide (FileDownloader.source_path self = None) = false).
  { destruct files as [fs|]; [reflexivity|].
    destruct (Hfiles eq_refl) as [sp Hsp]. rewrite Hsp. reflexivity. }
  rewrite Hno.
  unfold FileDownloader._check_local_path.
  unfold bind at 1. unfold bind at 1. unfold bind at 1.
  unfold local_exists. rewrite call_quiet by apply Hq.
  rewrite Hfile. rewrite (bool_decide_true (is_Some (Some d))) by eauto. simpl.
  unfold bind at 1. unfold local_is_dir. rewrite call_quiet by apply Hq. simpl.
  rewrite bool_decide_false by exact Hdir. reflexivity.
Qed.

Lemma run_refuses_file_as_local_path_witness :
  let w := Examples.world Examples.snapshot {[ Examples.local_dir := Complete "x" ]} ∅ in
  FileDownloader.run no_faults Examples.temp_dir Examples.mirror None w
  = Raise (NotADirectoryError Examples.local_dir)
          (log_call (LocalIsDir Examples.local_dir) None
             (log_call (LocalExists Examples.local_dir) None w)).
Proof.
  apply (run_refuses_file_as_local_path no_faults Examples.temp_dir Examples.mirror None
           (Examples.world Examples.snapshot {[ Examples.local_dir := Complete "x" ]} ∅)
           (Complete "x")).
  - intros n op. reflexivity.
  - intros _. exists Examples.remote_dir. reflexivity.
  - reflexivity.
  - reflexivity.
  - vm_compute. intros H. discriminate H.
Defined.




(** ** Enumeration *)

Lemma call_cases {A} faults op (sem : World -> exn + (A * World)) w :
  (exists e, call faults op sem w = Raise e (log_call op (Some e) w))
  \/ (exists a w1, sem w = inr (a, w1) /\ call faults op sem w = Ok a (log_call op None w1)).
Proof.
  unfold call. destruct (faults _ _); [left; eauto|].
  destruct (sem w) as [e|[a w1]]; [left; eauto|right; eauto].
Qed.

(** X6. With [source_path] set, [view_files] hands on unchanged whatever
    [get_directory] or the HWM store raises, and replaces whatever the walk
    raises by a [RuntimeError]; when the walk answers, it returns. *)
Theorem view_files_wraps_walk_errors (faults : Faults) (self : FileDownloader.t)
    (w : World) :
  is_Some (FileDownloader.source_path self) ->
  let out := FileDownloader.view_files faults self w in
  match last_call (world_of out) with
  | Some (ConnWalk _, Some e) => exists msg, raised out = Some (RuntimeError msg)
  | Some (ConnWalk _, None) => is_Some (returned out)
  | Some (_, Some e) => raised out = Some e
  | _ => is_Some (raised out)
  end.
Proof.
  intros [sp Hsp] out.
  assert (Hwalk : forall filters limits (w3 : World) o,
            o = try_except
                  (walked <- conn_walk faults sp filters limits ;;
                   ret (FileDownloader.collect walked))
                  (fun _ => raise (RuntimeError
                     "Couldn't read directory tree from remote dir")) w3 ->
            match last_call (world_of o) with
            | Some (ConnWalk _, Some e) => exists msg, raised o = Some (RuntimeError msg)
            | Some (ConnWalk _, None) => is_Some (returned o)
            | Some (_, Some e) => raised o = Some e
            | _ => is_Some (raised o)
            end).
  { intros filters limits w3 o Ho. unfold try_except, bind, conn_walk in Ho.
    match type of Ho with
    | context [call faults ?op ?sem w3] =>
        destruct (call_cases faults op sem w3) as [[e He]|(a & w4 & _ & He)];
          rewrite He in Ho
    end; subst o; simpl; eauto. }
  remember out as o eqn:Ho. subst out.
  unfold FileDownloader.view_files, FileDownloader._check_source_path in Ho.
  rewrite Hsp in Ho. unfold bind at 1 in Ho. unfold conn_get_directory in Ho.
  match type of Ho with
  | context [call faults ?op ?sem w] =>
      destruct (call_cases faults op sem w) as [[e He]|([] & w1 & _ & He)];
        rewrite He in Ho
  end; [subst o; reflexivity|].
  unfold bind at 1 in Ho.
  destruct (FileDownloader.hwm_type self) as [c|] eqn:Hc.
  - unfold bind at 1 in Ho. unfold FileDownloader._get_hwm in Ho. rewrite Hc, Hsp in Ho.
    unfold bind at 1 in Ho. unfold store_get in Ho.
    match type of Ho with
    | context [call faults ?op ?sem ?w2] =>
        destruct (call_cases faults op sem w2) as [[e He2]|(a & w3 & _ & He2)];
          rewrite He2 in Ho
    end; [subst o; reflexivity|].
    destruct (hwm_is_file _); [|subst o; simpl; eauto].
    unfold ret at 1 in Ho. unfold ret at 1 in Ho. exact (Hwalk _ _ _ _ Ho).
  - unfold ret at 1 in Ho. exact (Hwalk _ _ _ _ Ho).
Qed.

Lemma view_files_wraps_walk_errors_witness :
  let faults : Faults :=
    fun _ op => match op with
                | ConnWalk _ => Some (Fails (ExternalError "timeout"))
                | _ => None
                end in
  exists msg,
    raised (FileDownloader.view_files faults Examples.mirror Examples.empty_world)
    = Some (RuntimeError msg).
Proof.
  intros faults.
  exact (view_files_wraps_walk_errors faults Examples.mirror Examples.empty_world
           (ex_intro _ Examples.remote_dir eq_refl)).
Defined.

Lemma extends_path_refl p : extends_path p p.
Proof. split; [reflexivity|]. exists []. rewrite app_nil_r. reflexivity. Qed.

Lemma extends_path_child base p x :
  extends_path base p -> extends_path base (p // rel_path [x]).
Proof.
  intros [Ha [l Hl]]. rewrite joinpath_relative by reflexivity. split; [exact Ha|].
  exists (l ++ [x]). simpl. rewrite Hl, app_assoc. reflexivity.
Qed.

Lemma extends_path_parents base p x :
  extends_path base p -> base ∈ parents (p // rel_path [x]).
Proof.
  intros [Ha [l Hl]]. rewrite joinpath_relative by reflexivity.
  unfold parents. simpl. apply list_elem_of_fmap.
  exists (length (parts base)). split.
  - rewrite Hl, <- app_assoc, take_app_length, Ha. destruct base; reflexivity.
  - apply list_elem_of_In. rewrite <- in_rev. apply in_seq.
    rewrite Hl, !length_app. simpl. lia.
Qed.

Section WalkLists.
Context (filters : list BaseFileFilter) (L : BaseFileLimit).

Lemma scan_accepted root entries :
  forall st nm stt,
    (nm, stt) ∈ (scan filters L root entries st).1.2 ->
    accepted filters (EFile (root // rel_path [nm]) stt) = true.
Proof.
  induction entries as [|e rest IH]; intros st nm stt; simpl.
  - intros H. inversion H.
  - destruct (limit_is_reached L st); [intros H; inversion H|].
    destruct e as [n0 s0 data|n0 ch].
    + destruct (accepted filters (EFile (root // rel_path [n0]) s0)) eqn:Hacc; [|apply IH].
      specialize (IH (limit_observe L (EFile (root // rel_path [n0]) s0) st) nm stt).
      destruct (scan filters L root rest _) as [[ds fs] st']. simpl in *.
      intros H. apply elem_of_cons in H as [[= -> ->]|H]; [exact Hacc|exact (IH H)].
    + destruct (accepted filters (EDir (root // rel_path [n0]))); [|apply IH].
      specialize (IH (limit_observe L (EDir (root // rel_path [n0])) st) nm stt).
      destruct (scan filters L root rest _) as [[ds fs] st']. simpl in *. exact IH.
Qed.

Lemma descend_listed base walk root cs :
  extends_path base root ->
  Forall (fun c => forall r st, extends_path base r ->
                                Forall (listed_below filters base) (walk r c st).1) cs ->
  forall st, Forall (listed_below filters base) (descend filters L walk root cs st).1.
Proof.
  intros Hroot. induction 1 as [|c cs Hc _ IH]; intros st; simpl; [constructor|].
  destruct (selected_dir filters root c && negb (limit_is_reached L st)); [|apply IH].
  specialize (Hc (root // rel_path [rname c]) st (extends_path_child _ _ _ Hroot)).
  destruct (walk (root // rel_path [rname c]) c st) as [ys st']. simpl in Hc.
  specialize (IH st').
  destruct (descend filters L walk root cs st') as [zs st'']. simpl in *.
  apply Forall_app. split; assumption.
Qed.

Lemma walk_node_listed base node :
  forall root st, extends_path base root ->
                  Forall (listed_below filters base) (walk_node filters L root node st).1.
Proof.
  induction node as [nm stt data|nm ch IH] using rnode_ind'; intros root st Hroot; simpl.
  - constructor.
  - pose proof (scan_accepted root ch st) as Hs.
    destruct (scan filters L root ch st) as [[ds fs] st1]. simpl in Hs.
    pose proof (descend_listed base (walk_node filters L) root ch Hroot IH st1) as Hd.
    destruct (descend filters L (walk_node filters L) root ch st1) as [below st2].
    simpl in *. constructor; [|exact Hd].
    split; [exact Hroot|]. simpl. intros n0 s0 Hin. apply Hs, Hin.
Qed.
End WalkLists.

Lemma collect_files_spec root files :
  forall (acc : list RemoteFile) f,
    f ∈ fold_left
          (fun result '(file, stats) =>
             oset_add {| rf_path := root // rel_path [file]; rf_stats := stats |} result)
          files acc ->
    f ∈ acc \/ exists nm, (nm, rf_stats f) ∈ files /\ rf_path f = root // rel_path [nm].
Proof.
  induction files as [|[file stats] rest IH]; intros acc f; simpl; [auto|].
  intros H. apply IH in H as [H|(nm & Hin & Hp)].
  - apply elem_of_oset_add in H as [H| ->]; [auto|].
    right. exists file. split; [apply list_elem_of_here|reflexivity].
  - right. exists nm. split; [apply list_elem_of_further, Hin|exact Hp].
Qed.

Lemma collect_files_NoDup root files :
  forall acc : list RemoteFile,
    NoDup acc ->
    NoDup (fold_left
             (fun result '(file, stats) =>
                oset_add {| rf_path := root // rel_path [file]; rf_stats := stats |} result)
             files acc).
Proof.
  induction files as [|[file stats] rest IH]; intros acc Hnd; simpl; [exact Hnd|].
  apply IH, oset_add_NoDup, Hnd.
Qed.

Lemma collect_spec walked :
  NoDup (FileDownloader.collect walked)
  /\ forall f, f ∈ FileDownloader.collect walked ->
       exists it nm, it ∈ walked /\ (nm, rf_stats f) ∈ it.2
                     /\ rf_path f = it.1.1 // rel_path [nm].
Proof.
  unfold FileDownloader.collect.
  assert (H : forall acc : list RemoteFile,
            NoDup acc ->
            NoDup (fold_left
                      (fun result '(root, _, files) =>
                         fold_left
                           (fun result '(file, stats) =>
                              oset_add {| rf_path := root // rel_path [file];
                                          rf_stats := stats |} result)
                           files result)
                      walked acc)
            /\ forall f,
                 f ∈ fold_left
                      (fun result '(root, _, files) =>
                         fold_left
                           (fun result '(file, stats) =>
                              oset_add {| rf_path := root // rel_path [file];
                                          rf_stats := stats |} result)
                           files result)
                      walked acc ->
                 f ∈ acc \/ exists it nm, it ∈ walked /\ (nm, rf_stats f) ∈ it.2
                                          /\ rf_path f = it.1.1 // rel_path [nm]).
  { induction walked as [|[[root ds] files] rest IH]; intros acc Hnd; simpl.
    - split; [exact Hnd|auto].
    - destruct (IH _ (collect_files_NoDup root files acc Hnd)) as [H1 H2].
      split; [exact H1|]. intros f Hf. apply H2 in Hf as [Hf|(it & nm & Hit & Hin & Hp)].
      + apply collect_files_spec in Hf as [Hf|(nm & Hin & Hp)]; [auto|].
        right. exists (root, ds, files), nm.
        split; [apply list_elem_of_here|split; assumption].
      + right. exists it, nm. split; [apply list_elem_of_further, Hit|split; assumption]. }
  destruct (H [] (NoDup_nil_2)) as [H1 H2]. split; [exact H1|].
  intros f Hf. apply H2 in Hf as [Hf|Hf]; [inversion Hf|exact Hf].
Qed.


Lemma get_hwm_Ok faults self w h w' :
  FileDownloader._get_hwm faults self w = Ok h w' ->
  exists c sp,
    FileDownloader.hwm_type self = Some c
    /\ FileDownloader.source_path self = Some sp
    /\ h = default (file_hwm_empty self c sp) (hwm_store w !! file_hwm_name self c sp)
    /\ hwm_is_file h = true
    /\ w' = log_call (StoreGet (file_hwm_name self c sp)) None w.
Proof.
  unfold FileDownloader._get_hwm. intros H.
  destruct (FileDownloader.hwm_type self) as [c|]; [|discriminate].
  destruct (FileDownloader.source_path self) as [sp|]; [|discriminate].
  apply bind_inv_Ok in H as (stored & w1 & Hget & H).
  unfold store_get in Hget. apply call_inv_Ok in Hget as (w2 & Hsem & ->).
  injection Hsem as <- <-.
  fold (file_hwm_name self c sp) in H |- *. fold (file_hwm_empty self c sp) in H |- *.
  destruct (hwm_is_file _) eqn:Hfile; [|discriminate].
  injection H as <- <-. exists c, sp. repeat split; try reflexivity. exact Hfile.
Qed.

(** What [view_files] returns is what the walk listed, under the filter of
    the downloader and, with [hwm_type], the filter of the stored HWM. *)
Lemma view_files_walked faults self w fs w' :
  FileDownloader.view_files faults self w = Ok fs w' ->
  exists sp hf nm ch,
    FileDownloader.source_path self = Some sp
    /\ (forall c, FileDownloader.hwm_type self = Some c ->
          hf = [FileHWMFilter (default (file_hwm_empty self c sp)
                                       (hwm_store w !! file_hwm_name self c sp))])
    /\ fs = FileDownloader.collect
              (walk_node
                 (match FileDownloader.filter self with Some f => [f] | None => [] end ++ hf)
                 (all_limits (match FileDownloader.limit self with
                              | Some l => [l] | None => [] end))
                 sp (RDir nm ch)
                 (limit_reset (all_limits (match FileDownloader.limit self with
                                           | Some l => [l] | None => [] end)))).1.
Proof.
  unfold FileDownloader.view_files. intros H.
  apply bind_inv_Ok in H as ([] & w1 & Hdir & H).
  apply bind_inv_Ok in H as (hf & w2 & Hhf & H).
  unfold try_except in H.
  destruct (FileDownloader.source_path self) as [sp|] eqn:Hsp; [|discriminate].
  match type of H with
  | match ?o with _ => _ end = _ => destruct o as [fs0 w3|e w3] eqn:Hbody
  end; [|discriminate].
  injection H as <- <-.
  apply bind_inv_Ok in Hbody as (walked & w4 & Hwalk & Hret).
  injection Hret as <- _.
  unfold conn_walk in Hwalk. apply call_inv_Ok in Hwalk as (w5 & Hsem & _).
  destruct (rlookup (parts sp) (remote w2)) as [[nm st data|nm ch]|]; try discriminate.
  injection Hsem as <- _.
  exists sp, hf, nm, ch. split; [reflexivity|]. split; [|reflexivity].
  intros c Hc. rewrite Hc in Hhf.
  apply bind_inv_Ok in Hhf as (h & w6 & Hget & Hret). injection Hret as <- _.
  apply get_hwm_Ok in Hget as (c' & sp' & Hc' & Hsp' & -> & _ & _).
  rewrite Hc in Hc'. injection Hc' as <-. rewrite Hsp in Hsp'. injection Hsp' as <-.
  pose proof (keeps_check_source_path faults self w) as K.
  rewrite Hdir in K. simpl in K. destruct K as (_ & _ & S & _). rewrite S. reflexivity.
Qed.

(** X7. What [view_files] returns has no duplicates; every file of it lies
    below [source_path], passed [filter] and, with [hwm_type], is not among
    the files of the stored HWM; [_validate_files] accepts its path as it
    stands. The view itself changes nothing: local files, remote tree and
    HWM store are as they were. *)
Theorem view_files_lists_accepted_files_below_source_path (faults : Faults)
    (self : FileDownloader.t) (w : World) (fs : list RemoteFile) (w' : World) :
  FileDownloader.view_files faults self w = Ok fs w' ->
  NoDup fs
  /\ (exists sp, FileDownloader.source_path self = Some sp
       /\ forall f, f ∈ fs ->
            sp ∈ parents (rf_path f)
            /\ (forall flt, FileDownloader.filter self = Some flt ->
                            flt (EFile (rf_path f) (rf_stats f)) = true)
            /\ (forall c h, FileDownloader.hwm_type self = Some c ->
                            hwm_store w !! file_hwm_name self c sp = Some h ->
                            rf_path f ∉ hwm_value h)
            /\ (exists rel,
                  relative_to (rf_path f) sp = Some rel
                  /\ forall tmp,
                       FileDownloader.resolve_item self tmp (rf_path f)
                       = inr (rf_path f, FileDownloader.local_path self // rel,
                              (fun d => d // rel) <$> tmp)))
  /\ local_files w' = local_files w /\ remote w' = remote w /\ hwm_store w' = hwm_store w.
Proof.
  intros Hv.
  pose proof (keeps_view_files faults self w) as K. rewrite Hv in K. simpl in K.
  destruct K as (F & R & S & _).
  apply view_files_walked in Hv as (sp & hf & nm & ch & Hsp & Hhf & ->).
  set (filters := match FileDownloader.filter self with Some f => [f] | None => [] end
                  ++ hf).
  set (L := all_limits (match FileDownloader.limit self with
                        | Some l => [l] | None => [] end)).
  destruct (collect_spec (walk_node filters L sp (RDir nm ch) (limit_reset L)).1)
    as [Hnd Hin].
  split; [exact Hnd|]. split; [|auto].
  exists sp. split; [exact Hsp|]. intros f Hf.
  destruct (Hin f Hf) as (it & x & Hit & Hx & Hp).
  pose proof (walk_node_listed filters L sp (RDir nm ch) sp (limit_reset L)
                (extends_path_refl sp)) as Hall.
  rewrite Forall_forall in Hall. destruct (Hall it Hit) as [Hext Hacc].
  specialize (Hacc x (rf_stats f) Hx). rewrite <- Hp in Hacc.
  unfold accepted in Hacc. rewrite forallb_forall in Hacc.
  assert (Hpar : sp ∈ parents (rf_path f)).
  { rewrite Hp. apply extends_path_parents, Hext. }
  split; [exact Hpar|]. split; [|split].
  - intros flt Hflt. apply Hacc. subst filters. rewrite Hflt. apply in_or_app. left. left. reflexivity.
  - intros c h Hc Hh. specialize (Hhf c Hc). rewrite Hh in Hhf. simpl in Hhf.
    assert (Hfl : FileHWMFilter h (EFile (rf_path f) (rf_stats f)) = true).
    { apply Hacc. subst filters. rewrite Hhf. apply in_or_app. right. left. reflexivity. }
    simpl in Hfl. apply bool_decide_eq_true in Hfl. exact Hfl.
  - destruct (relative_to (rf_path f) sp) as [rel|] eqn:Hrel.
    + exists rel. split; [reflexivity|]. intros tmp.
      unfold FileDownloader.resolve_item. rewrite Hsp.
      rewrite bool_decide_true by exact Hpar. rewrite Hrel. reflexivity.
    + exfalso. unfold relative_to in Hrel. case_bool_decide as Hno; [discriminate|].
      apply Hno. rewrite Hp. rewrite joinpath_relative by reflexivity. simpl.
      destruct Hext as [Ha [l Hl]]. split; [exact Ha|].
      rewrite Hl, <- app_assoc, take_app_length. reflexivity.
Qed.

Lemma view_files_lists_accepted_files_below_source_path_witness :
  exists fs w',
    FileDownloader.view_files no_faults Examples.mirror Examples.empty_world = Ok fs w'
    /\ NoDup fs
    /\ forall f, f ∈ fs -> Examples.remote_dir ∈ parents (rf_path f).
Proof.
  destruct (FileDownloader.view_files no_faults Examples.mirror Examples.empty_world)
    as [fs w'|e w'] eqn:Hv; [|vm_compute in Hv; discriminate Hv].
  exists fs, w'. split; [reflexivity|].
  destruct (view_files_lists_accepted_files_below_source_path no_faults Examples.mirror
              Examples.empty_world fs w' Hv) as (Hnd & (sp & Hsp & Hall) & _).
  split; [exact Hnd|]. intros f Hf. injection Hsp as <-. apply (Hall f Hf).
Defined.

(** ** The candidates of a file collection *)

Lemma relative_to_joinpath (a x : path) :
  is_absolute x = false -> relative_to (a // x) a = Some x.
Proof.
  intros Hx. rewrite joinpath_relative by exact Hx. unfold relative_to. simpl.
  rewrite bool_decide_true.
  - rewrite drop_app_length. destruct x as [ax px]. simpl in *. subst ax. reflexivity.
  - split; [reflexivity|]. rewrite take_app_length. reflexivity.
Qed.

Lemma validate_items_resolved faults self files tmp w items w' :
  FileDownloader._validate_files faults self files tmp w = Ok items w' ->
  NoDup items /\ resolved self tmp items.
Proof.
  intros H. unfold FileDownloader._validate_files in H.
  apply validate_loop_resolved in H; [exact H|apply NoDup_nil_2|].
  intros i Hi. inversion Hi.
Qed.

(** X8. With [source_path], every candidate [_validate_files] returns
    keeps its place: its target lies below [local_path], and its temporary
    file below the temporary directory, at the very position its source has
    below [source_path]. *)
Theorem validate_files_keeps_directory_structure (faults : Faults)
    (self : FileDownloader.t) (files : list path) (tmp : option path) (w : World)
    (items : list FileDownloader.item) (w' : World) (sp : path) :
  FileDownloader.source_path self = Some sp ->
  FileDownloader._validate_files faults self files tmp w = Ok items w' ->
  forall i, i ∈ items ->
    exists rel,
      is_absolute rel = false
      /\ relative_to (FileDownloader.item_source i) sp = Some rel
      /\ relative_to (FileDownloader.item_target i) (FileDownloader.local_path self)
         = Some rel
      /\ match tmp with
         | Some d => exists t, FileDownloader.item_temp i = Some t
                               /\ relative_to t d = Some rel
         | None => FileDownloader.item_temp i = None
         end.
Proof.
  intros Hsp Hval i Hi.
  apply validate_items_resolved in Hval as [_ Hres].
  destruct (Hres i Hi) as (f & Hf).
  destruct (resolve_item_below _ _ _ _ _ Hsp Hf) as (x & Hx & ->).
  exists x. unfold FileDownloader.item_source, FileDownloader.item_target,
    FileDownloader.item_temp. simpl.
  split; [exact Hx|]. split; [apply relative_to_joinpath, Hx|].
  split; [apply relative_to_joinpath, Hx|].
  destruct tmp as [d|]; simpl; [|reflexivity].
  exists (d // x). split; [reflexivity|apply relative_to_joinpath, Hx].
Qed.

Lemma validate_files_keeps_directory_structure_witness :
  exists rel,
    relative_to (abs_path ["remote"; "sub"; "b.txt"]) Examples.remote_dir = Some rel
    /\ relative_to (abs_path ["local"; "sub"; "b.txt"]) Examples.local_dir = Some rel.
Proof.
  destruct (validate_files_keeps_directory_structure no_faults Examples.mirror
              [abs_path ["remote"; "sub"; "b.txt"]] None Examples.empty_world
              [(abs_path ["remote"; "sub"; "b.txt"], abs_path ["local"; "sub"; "b.txt"],
                None)]
              (world_of (FileDownloader._validate_files no_faults Examples.mirror
                           [abs_path ["remote"; "sub"; "b.txt"]] None
                           Examples.empty_world))
              Examples.remote_dir eq_refl eq_refl
              (abs_path ["remote"; "sub"; "b.txt"], abs_path ["local"; "sub"; "b.txt"], None)
              (list_elem_of_here _ _))
    as (rel & _ & H1 & H2 & _).
  exists rel. split; assumption.
Defined.

Lemma name_joinpath (a : path) (x : string) : name (a // rel_path [x]) = x.
Proof.
  rewrite joinpath_relative by reflexivity. unfold name. simpl. apply last_last.
Qed.

Lemma parent_joinpath (a : path) (x : string) : parent (a // rel_path [x]) = a.
Proof.
  rewrite joinpath_relative by reflexivity. unfold parent. simpl.
  rewrite removelast_last. destruct a; reflexivity.
Qed.

(** X9. Without [source_path], every candidate [_validate_files] returns
    has an absolute source and is downloaded flat: its target is the file
    of the same name directly in [local_path], whatever directory the
    source is in; the root, which has no name, is aimed at [local_path]
    itself. *)
Theorem validate_files_flattens_without_source_path (faults : Faults)
    (self : FileDownloader.t) (files : list path) (tmp : option path) (w : World)
    (items : list FileDownloader.item) (w' : World) :
  FileDownloader.source_path self = None ->
  FileDownloader._validate_files faults self files tmp w = Ok items w' ->
  forall i, i ∈ items ->
    let source := FileDownloader.item_source i in
    let target := FileDownloader.item_target i in
    is_absolute source = true
    /\ (name source <> EmptyString ->
        parent target = FileDownloader.local_path self /\ name target = name source)
    /\ (name source = EmptyString -> target = FileDownloader.local_path self).
Proof.
  intros Hsp Hval i Hi source target.
  apply validate_items_resolved in Hval as [_ Hres].
  destruct (Hres i Hi) as (f & Hf).
  destruct (resolve_item_flat _ _ _ _ Hsp Hf) as (Habs & ->).
  subst source target.
  unfold FileDownloader.item_source, FileDownloader.item_target. simpl.
  split; [exact Habs|]. unfold FileDownloader.str_path.
  destruct (decide (name f = EmptyString)) as [He|Hne].
  - split; [contradiction|]. intros _.
    unfold joinpath. simpl. rewrite app_nil_r.
    destruct (FileDownloader.local_path self); reflexivity.
  - split; [|contradiction]. intros _.
    split; [apply parent_joinpath|apply name_joinpath].
Qed.

Lemma validate_files_flattens_without_source_path_witness :
  parent Examples.local_a_txt = Examples.local_dir
  /\ name Examples.local_a_txt = name Examples.other_a_txt.
Proof.
  destruct (validate_files_flattens_without_source_path no_faults Examples.flat
              [Examples.other_a_txt] None Examples.empty_world
              [(Examples.other_a_txt, Examples.local_a_txt, None)]
              (world_of (FileDownloader._validate_files no_faults Examples.flat
                           [Examples.other_a_txt] None Examples.empty_world))
              eq_refl eq_refl
              (Examples.other_a_txt, Examples.local_a_txt, None)
              (list_elem_of_here _ _))
    as (_ & H & _).
  apply H. vm_compute. discriminate.
Defined.

Lemma validate_loop_complete faults self tmp files :
  forall acc w items w',
    FileDownloader.validate_loop faults self files tmp acc w = Ok items w' ->
    (forall i, i ∈ acc -> i ∈ items)
    /\ (forall f, f ∈ files ->
          exists i, i ∈ items /\ FileDownloader.resolve_item self tmp f = inr i)
    /\ (forall i, i ∈ items ->
          i ∈ acc \/ exists f, f ∈ files /\ FileDownloader.resolve_item self tmp f = inr i)
    /\ length items <= length acc + length files
    /\ logs is_validation_call w w'.
Proof.
  induction files as [|f rest IH]; intros acc w items w' Hrun; simpl in Hrun.
  - injection Hrun as <- <-. split; [auto|]. split; [intros f Hf; inversion Hf|].
    split; [auto|]. split; [lia|apply logs_refl].
  - destruct (FileDownloader.resolve_item self tmp f) as [e|[[s l] t]] eqn:Hf;
      [discriminate|].
    apply bind_inv_Ok in Hrun as (ex & w1 & Hex & Hrun).
    apply bind_inv_Ok in Hrun as ([] & w2 & Hget & Hrun).
    assert (L2 : logs is_validation_call w1 w2).
    { destruct ex.
      - apply bind_inv_Ok in Hget as (rf & w3 & Hg & Hret). injection Hret as <-.
        pose proof (logs_conn_get_file is_validation_call faults s I w1) as Lg.
        rewrite Hg in Lg. exact Lg.
      - injection Hget as <-. apply logs_refl. }
    pose proof (logs_conn_path_exists is_validation_call faults s I w) as L1.
    rewrite Hex in L1. simpl in L1.
    apply IH in Hrun as (Hacc & Hall & Hback & Hlen & L3).
    split; [|split; [|split; [|split]]].
    + intros i Hi. apply Hacc. apply elem_of_oset_add. left. exact Hi.
    + intros g Hg. apply elem_of_cons in Hg as [->|Hg].
      * exists (s, l, t). split; [|exact Hf].
        apply Hacc. apply elem_of_oset_add. right. reflexivity.
      * exact (Hall g Hg).
    + intros i Hi. apply Hback in Hi as [Hi|(g & Hg & Hr)].
      * apply elem_of_oset_add in Hi as [Hi| ->]; [auto|].
        right. exists f. split; [apply list_elem_of_here|exact Hf].
      * right. exists g. split; [apply list_elem_of_further, Hg|exact Hr].
    + match type of Hlen with
      | context [@oset_add ?A ?inst ?x ?a] => pose proof (@length_oset_add A inst x a)
      end. unfold FileDownloader.item in *. simpl. lia.
    + exact (logs_trans _ _ _ _ (logs_trans _ _ _ _ L1 L2) L3).
Qed.

(** X10. When [_validate_files] returns, its candidates are the given files,
    each resolved and each once: none is left out, none is added, and a
    file given twice is kept once. On the way only [path_exists] and
    [get_file] were called. *)
Theorem validate_files_keeps_every_file_once (faults : Faults)
    (self : FileDownloader.t) (files : list path) (tmp : option path) (w : World)
    (items : list FileDownloader.item) (w' : World) :
  FileDownloader._validate_files faults self files tmp w = Ok items w' ->
  NoDup items
  /\ (forall f, f ∈ files ->
        exists i, i ∈ items /\ FileDownloader.resolve_item self tmp f = inr i)
  /\ (forall i, i ∈ items ->
        exists f, f ∈ files /\ FileDownloader.resolve_item self tmp f = inr i)
  /\ length items <= length files
  /\ logs is_validation_call w w'.
Proof.
  intros Hval.
  pose proof (validate_items_resolved _ _ _ _ _ _ _ Hval) as [Hnd _].
  unfold FileDownloader._validate_files in Hval.
  apply validate_loop_complete in Hval as (_ & Hall & Hback & Hlen & L).
  split; [exact Hnd|]. split; [exact Hall|]. split; [|split; [exact Hlen|exact L]].
  intros i Hi. apply Hback in Hi as [Hi|Hi]; [inversion Hi|exact Hi].
Qed.

Lemma validate_files_keeps_every_file_once_witness :
  exists items w',
    FileDownloader._validate_files no_faults Examples.mirror
      [Examples.a_txt; Examples.a_txt; Examples.b_txt] None Examples.empty_world
    = Ok items w'
    /\ NoDup items /\ length items <= 3.
Proof.
  destruct (FileDownloader._validate_files no_faults Examples.mirror
              [Examples.a_txt; Examples.a_txt; Examples.b_txt] None Examples.empty_world)
    as [items w'|e w'] eqn:Hv; [|vm_compute in Hv; discriminate Hv].
  exists items, w'. split; [reflexivity|].
  destruct (validate_files_keeps_every_file_once no_faults Examples.mirror
              [Examples.a_txt; Examples.a_txt; Examples.b_txt] None Examples.empty_world
              items w' Hv) as (H1 & _ & _ & H2 & _).
  split; [exact H1|exact H2].
Defined.

(** ** The result and the temporary directory *)

Lemma sublist_oset_add {A} `{EqDecision A} (x : A) (l k : list A) :
  l `sublist_of` k -> oset_add x l `sublist_of` k ++ [x].
Proof.
  intros H. unfold oset_add. destruct (decide (x ∈ l)).
  - apply sublist_inserts_r, H.
  - apply sublist_app; [exact H|reflexivity].
Qed.

Lemma sublist_map_oset_add {A B} `{EqDecision A} (g : A -> B) (x : A) (l : list A)
    (k : list B) :
  map g l `sublist_of` k -> map g (oset_add x l) `sublist_of` k ++ [g x].
Proof.
  intros H. unfold oset_add. destruct (decide (x ∈ l)).
  - apply sublist_inserts_r, H.
  - rewrite map_app. apply sublist_app; [exact H|reflexivity].
Qed.

Lemma download_loop_order faults self file_hwm items :
  forall (done : list FileDownloader.item) result w r w',
    (forall b, bucket_paths result b `sublist_of` map (fun i => item_key i b) done) ->
    FileDownloader.download_loop faults self items result file_hwm w = Ok r w' ->
    forall b, bucket_paths r b `sublist_of` map (fun i => item_key i b) (done ++ items).
Proof.
  induction items as [|[[s l] t] rest IH]; intros done result w r w' Hinv Hrun; simpl in Hrun.
  - injection Hrun as <- _. rewrite app_nil_r. exact Hinv.
  - apply bind_inv_Ok in Hrun as (r1 & w1 & Hone & Hrun).
    pose proof (IH (done ++ [(s, l, t)]) r1 w1 r w') as IH'.
    rewrite <- app_assoc in IH'. simpl in IH'. apply IH'; [|exact Hrun].
    clear IH'. intros b. rewrite map_app. simpl.
    apply download_file_outcome in Hone as [->|[[st ->]|[[st [e ->]]| ->]]];
      destruct b; simpl;
      first
        [ apply sublist_inserts_r;
          first [exact (Hinv Successful)|exact (Hinv Failed)
                |exact (Hinv Skipped)|exact (Hinv Missing)]
        | apply sublist_oset_add; first [exact (Hinv Missing)|exact (Hinv Successful)]
        | apply (sublist_map_oset_add rf_path {| rf_path := s; rf_stats := st |});
          exact (Hinv Skipped)
        | apply (sublist_map_oset_add ff_path
                   {| ff_path := s; ff_stats := st; ff_exception := e |});
          exact (Hinv Failed) ].
Qed.

(** X16. The buckets [_download_files] returns list the candidates in the
    order they were given: each bucket is the candidate list with entries
    left out, targets for [successful] and sources for the other three. *)
Theorem download_files_keeps_candidate_order (faults : Faults) (self : FileDownloader.t)
    (items : list FileDownloader.item) (file_hwm : option FileDownloader.hwm_ref)
    (w : World) (r : DownloadResult) (w' : World) :
  FileDownloader._download_files faults self items file_hwm w = Ok r w' ->
  forall b, bucket_paths r b `sublist_of` map (fun i => item_key i b) items.
Proof.
  intros Hrun b. unfold FileDownloader._download_files in Hrun.
  apply (download_loop_order faults self file_hwm items [] empty_result w r w');
    [|exact Hrun].
  intros []; simpl; constructor.
Qed.

Lemma download_files_keeps_candidate_order_witness :
  bucket_paths Examples.scenario_b_result Successful
  `sublist_of` map (fun i => item_key i Successful) Examples.scenario_b_items
  /\ bucket_paths Examples.scenario_b_result Missing
     `sublist_of` map (fun i => item_key i Missing) Examples.scenario_b_items.
Proof.
  assert (H : forall b,
            bucket_paths Examples.scenario_b_result b
            `sublist_of` map (fun i => item_key i b) Examples.scenario_b_items).
  { apply (download_files_keeps_candidate_order no_faults Examples.mirror
             Examples.scenario_b_items None
             (set_local_dirs {[ Examples.local_dir ]} Examples.empty_world)
             Examples.scenario_b_result
             (world_of (FileDownloader._download_files no_faults Examples.mirror
                          Examples.scenario_b_items None
                          (set_local_dirs {[ Examples.local_dir ]} Examples.empty_world)))).
    vm_compute. reflexivity. }
  split; [exact (H Successful)|exact (H Missing)].
Defined.

Lemma is_under_filtered_files (d p : path) (m : gmap path file_data) :
  is_under d p = true -> filter (fun kv => is_under d kv.1 = false) m !! p = None.
Proof.
  intros Hu. apply map_lookup_filter_None. right. intros x _ Hf. simpl in Hf. congruence.
Qed.

(** X23. A [run] with [temp_path] that had candidates and returns has made
    [rmtree] of the temporary directory generated for it as its last call;
    that call may have raised without any effect on the result; when it
    did not raise, nothing is left in or below that directory. *)
Theorem run_removes_temp_dir_last (faults : Faults) (gtp : path -> path)
    (self : FileDownloader.t) (files : option (list path)) (w : World)
    (f : path) (fs : list path) (w1 : World) (r : DownloadResult) (w' : World) (tp : path) :
  FileDownloader.temp_path self = Some tp ->
  run_candidates faults self files w = Ok (f :: fs) w1 ->
  FileDownloader.run faults gtp self files w = Ok r w' ->
  exists e,
    last_call w' = Some (LocalRmtree (gtp tp), e)
    /\ (e = None -> forall p, is_under (gtp tp) p = true ->
                              local_files w' !! p = None /\ p ∉ local_dirs w').
Proof.
  intros Htp Hc Hrun. rewrite run_split, Hc in Hrun.
  unfold run_transfer in Hrun. rewrite Htp in Hrun. simpl in Hrun.
  apply bind_inv_Ok in Hrun as (items & w2 & _ & Hrun).
  apply bind_inv_Ok in Hrun as (? & w3 & _ & Hrun).
  apply bind_inv_Ok in Hrun as (r1 & w4 & _ & Hrun).
  apply bind_inv_Ok in Hrun as ([] & w5 & Hrm & Hrun).
  injection Hrun as _ <-.
  unfold FileDownloader._remove_temp_dir, try_except, local_rmtree in Hrm.
  match type of Hrm with
  | context [call faults ?op ?sem w4] =>
      destruct (call_cases faults op sem w4) as [[e He]|([] & w6 & Hsem & He)];
        rewrite He in Hrm
  end; injection Hrm as <-.
  - exists (Some e). split; [reflexivity|]. discriminate.
  - exists None. split; [reflexivity|]. intros _ p Hu.
    destruct (bool_decide (gtp tp ∈ local_dirs w4)); [|].
    + injection Hsem as <-. simpl. split.
      * apply is_under_filtered_files, Hu.
      * intros Hin. apply elem_of_filter in Hin as [Hf _]. congruence.
    + destruct (bool_decide _); discriminate.
Qed.

Lemma run_removes_temp_dir_last_witness :
  exists e,
    last_call (world_of (FileDownloader.run no_faults Examples.temp_dir staged_downloader
                           (Some [Examples.a_txt]) Examples.empty_world))
    = Some (LocalRmtree (abs_path ["tmp"; "onetl"; "run"]), e).
Proof.
  destruct (FileDownloader.run no_faults Examples.temp_dir staged_downloader
              (Some [Examples.a_txt]) Examples.empty_world) as [r w'|e w'] eqn:Hrun;
    [|vm_compute in Hrun; discriminate Hrun].
  destruct (run_removes_temp_dir_last no_faults Examples.temp_dir staged_downloader
              (Some [Examples.a_txt]) Examples.empty_world Examples.a_txt []
              (world_of (run_candidates no_faults staged_downloader
                           (Some [Examples.a_txt]) Examples.empty_world))
              r w' (abs_path ["tmp"]) eq_refl eq_refl Hrun) as (e & He & _).
  exists e. exact He.
Defined.

(** ** Removal of a source *)

Lemma no_remove_in (l post pre : list (Op * option exn)) p e :
  Forall (fun c => not_remove c.1) l -> l <> post ++ (ConnRemoveFile p, e) :: pre.
Proof.
  intros HF Heq. rewrite Heq in HF. apply Forall_app in HF as [_ HF].
  apply Forall_cons in HF as [HF _]. exact (HF p eq_refl).
Qed.

Lemma rfd_no_remove l : Forall (fun c => not_remove c.1) l -> removes_follow_downloads l.
Proof. intros HF post p e pre Heq. destruct (no_remove_in _ _ _ _ _ HF Heq). Qed.

Lemma rfd_app new1 new2 :
  removes_follow_downloads new1 -> removes_follow_downloads new2 ->
  removes_follow_downloads (new2 ++ new1).
Proof.
  intros H1 H2 post p e pre Heq.
  apply List.app_eq_app in Heq as [l [[Ha Hb]|[Ha Hb]]].
  - (* new2 = post ++ l, rm :: pre = l ++ new1 *)
    destruct l as [|c l]; simpl in Hb.
    + destruct (H1 [] p e pre (eq_sym Hb)) as (mid & dst & rep & pre' & -> & Hm).
      eauto 6.
    + injection Hb as <- ->. destruct (H2 post p e l) as (mid & dst & rep & pre' & -> & Hm).
      { rewrite Ha. reflexivity. }
      exists mid, dst, rep, (pre' ++ new1). split; [|exact Hm].
      rewrite <- app_assoc. reflexivity.
  - (* post = new2 ++ l, new1 = l ++ rm :: pre *)
    exact (H1 l p e pre Hb).
Qed.

Lemma rad_refl w : removes_after_downloads w w.
Proof. exists []. split; [reflexivity|apply rfd_no_remove; constructor]. Qed.

Lemma rad_trans w1 w2 w3 :
  removes_after_downloads w1 w2 -> removes_after_downloads w2 w3 ->
  removes_after_downloads w1 w3.
Proof.
  intros (n1 & H1 & F1) (n2 & H2 & F2). exists (n2 ++ n1). split.
  - rewrite H2, H1, app_assoc. reflexivity.
  - apply rfd_app; assumption.
Qed.

Lemma rad_of_logs w w' : logs not_remove w w' -> removes_after_downloads w w'.
Proof. intros (new & Hc & HF). exists new. split; [exact Hc|apply rfd_no_remove, HF]. Qed.

Lemma call_Ok_calls {A} faults op (sem : World -> exn + (A * World)) w a w' :
  (forall w a w1, sem w = inr (a, w1) -> calls w1 = calls w) ->
  call faults op sem w = Ok a w' -> calls w' = (op, None) :: calls w.
Proof.
  intros Hsem H. apply call_inv_Ok in H as (w1 & Hs & ->). simpl.
  rewrite (Hsem _ _ _ Hs). reflexivity.
Qed.

Lemma conn_download_file_Ok_calls faults f dst replace w w' :
  conn_download_file faults f dst replace w = Ok tt w' ->
  calls w' = (ConnDownloadFile (rf_path f) dst replace, None) :: calls w.
Proof.
  destruct (conn_download_file_cases faults f dst replace w)
    as [[e ->]|[[e ->]|(nm & st & data & _ & ->)]]; try discriminate.
  intros [= <-]. reflexivity.
Qed.

(** A transfer that returned has made a [download_file] that returned,
    and after it only calls that returned, none of them [remove_file]. *)
Lemma transfer_Ok_calls faults f local_file tmp_file replace w w' :
  FileDownloader.transfer faults f local_file tmp_file replace w = Ok tt w' ->
  exists mid dst,
    calls w' = mid ++ (ConnDownloadFile (rf_path f) dst replace, None) :: calls w
    /\ Forall (fun c => c.2 = None) mid
    /\ Forall (fun c => not_remove c.1) mid.
Proof.
  unfold FileDownloader.transfer. destruct tmp_file as [tmp|].
  - intros H.
    apply bind_inv_Ok in H as ([] & w1 & Hdl & H).
    apply bind_inv_Ok in H as ([] & w2 & Hswap & H).
    apply bind_inv_Ok in H as ([] & w3 & Hmk & Hmv).
    apply conn_download_file_Ok_calls in Hdl.
    unfold local_mkdir in Hmk. apply call_Ok_calls in Hmk; [|same_calls].
    unfold local_move in Hmv. apply call_Ok_calls in Hmv; [|same_calls].
    assert (Hs : exists mid, calls w2 = mid ++ calls w1
                             /\ Forall (fun c => c.2 = None) mid
                             /\ Forall (fun c => not_remove c.1) mid).
    { destruct replace.
      - apply bind_inv_Ok in Hswap as (ex & w4 & Hex & Hul).
        unfold local_exists in Hex. apply call_Ok_calls in Hex; [|same_calls].
        destruct ex.
        + unfold local_unlink in Hul. apply call_Ok_calls in Hul; [|same_calls].
          eexists [_; _]. rewrite Hul, Hex. split; [reflexivity|].
          split; repeat constructor; intros ? [=].
        + injection Hul as <-. eexists [_]. rewrite Hex. split; [reflexivity|].
          split; repeat constructor; intros ? [=].
      - injection Hswap as <-. exists []. split; [reflexivity|]. split; constructor. }
    destruct Hs as (mid & Hc2 & Hok & Hnr).
    exists ((LocalMove tmp local_file, None)
            :: (LocalMkdir (parent local_file) true true, None) :: mid), tmp.
    rewrite Hmv, Hmk, Hc2, Hdl. split; [reflexivity|].
    split; repeat constructor; try assumption; intros ? [=].
  - intros H. apply conn_download_file_Ok_calls in H.
    exists [], local_file. rewrite H. split; [reflexivity|]. split; constructor.
Qed.

Section NoRemove.
Context (faults : Faults) (self : FileDownloader.t).

Ltac nstep :=
  lazymatch goal with
  | |- keeps (within ?P) _ =>
      first
        [ apply (keeps_bind (within P) (within_trans P)); [|intros ?]
        | apply (keeps_ret (within P) (within_refl P))
        | apply (keeps_raise (within P) (within_refl P))
        | apply (keeps_try_except (within P) (within_trans P)); [|intros ?]
        | apply within_conn_path_exists; intros ? [=]
        | apply within_conn_get_file; intros ? [=]
        | apply within_conn_download_file; intros ? [=]
        | apply within_local_exists; intros ? [=]
        | apply within_local_mkdir; intros ? [=]
        | apply within_local_unlink; intros ? [=]
        | apply within_local_move; intros ? [=]
        | apply within_hwm_update; intros ? [=]
        | apply within_store_save; intros ? ? [=] ]
  end.

Lemma no_remove_check_conflict local_file :
  keeps (within not_remove) (FileDownloader.check_conflict faults self local_file).
Proof.
  unfold FileDownloader.check_conflict.
  nstep; [nstep|]. destruct a; [|nstep].
  destruct (decide _); [nstep|]. destruct (decide _); nstep.
Qed.

Lemma no_remove_transfer f local_file tmp_file replace :
  keeps (within not_remove) (FileDownloader.transfer faults f local_file tmp_file replace).
Proof.
  unfold FileDownloader.transfer. destruct tmp_file as [tmp|]; [|nstep].
  nstep; [nstep|]. nstep.
  - destruct replace; [|nstep]. nstep; [nstep|]. destruct a0; nstep.
  - nstep; [nstep|]. nstep.
Qed.

Lemma no_remove_hwm_part f (file_hwm : option FileDownloader.hwm_ref) :
  keeps (within not_remove)
        (match file_hwm with
         | Some _ => hwm_update faults f ;; store_save faults
         | None => ret tt
         end).
Proof. destruct file_hwm; [|nstep]. nstep; [nstep|]. nstep. Qed.

(** Without [delete_source] no candidate's transfer calls [remove_file]. *)
Lemma no_remove_download_file s l t result file_hwm :
  FileDownloader.delete_source (FileDownloader.options self) = false ->
  keeps (within not_remove)
        (FileDownloader._download_file faults self s l t result file_hwm).
Proof.
  intros Hd. unfold FileDownloader._download_file.
  nstep; [nstep|]. destruct (negb a); [nstep|].
  intros w.
  pose proof (within_conn_get_file not_remove faults s (fun p H => ltac:(discriminate H)) w)
    as Hg.
  destruct (conn_get_file faults s w) as [f w1|e w1]; simpl in *; [|exact Hg].
  apply (within_trans _ _ _ _ Hg).
  apply (keeps_try_except _ (within_trans not_remove)); [|intros ?; nstep].
  unfold FileDownloader.try_body.
  nstep; [apply no_remove_check_conflict|].
  destruct a0 as [|replace]; [nstep|].
  nstep; [apply no_remove_transfer|].
  nstep; [|nstep]. unfold FileDownloader.after_transfer. rewrite Hd.
  nstep; [apply no_remove_hwm_part|nstep].
Qed.
End NoRemove.

Lemma hwm_part_Ok_calls faults f (file_hwm : option FileDownloader.hwm_ref) w w' :
  (match file_hwm with
   | Some _ => hwm_update faults f ;; store_save faults
   | None => ret tt
   end) w = Ok tt w' ->
  exists mid, calls w' = mid ++ calls w
              /\ Forall (fun c => c.2 = None) mid /\ Forall (fun c => not_remove c.1) mid.
Proof.
  destruct file_hwm.
  - intros H. apply bind_inv_Ok in H as ([] & w1 & Hup & Hsave).
    unfold hwm_update in Hup. apply call_Ok_calls in Hup; [|same_calls].
    unfold store_save in Hsave. destruct (hwm_cell w1) as [h0|]; [|discriminate].
    apply call_Ok_calls in Hsave; [|same_calls].
    eexists [_; _]. rewrite Hsave, Hup. split; [reflexivity|].
    split; repeat constructor; intros ? [=].
  - intros [= <-]. exists []. split; [reflexivity|]. split; constructor.
Qed.

(** Whatever [try_body] does, a [remove_file] it makes is of the file it
    transfers and comes after the download, with nothing failing between. *)
Lemma try_body_removes faults self f local_file tmp_file result file_hwm w :
  removes_after_downloads w
    (world_of (FileDownloader.try_body faults self f local_file tmp_file result file_hwm w)).
Proof.
  unfold FileDownloader.try_body. unfold bind at 1.
  pose proof (proj1 (no_remove_check_conflict faults self local_file w)) as Lc.
  destruct (FileDownloader.check_conflict faults self local_file w) as [c w1|e w1];
    simpl in Lc; [|apply rad_of_logs, Lc].
  destruct c as [|replace]; [apply rad_of_logs, Lc|].
  unfold bind at 1.
  pose proof (proj1 (no_remove_transfer faults f local_file tmp_file replace w1)) as Lt.
  destruct (FileDownloader.transfer faults f local_file tmp_file replace w1)
    as [[] w2|e w2] eqn:Ht; simpl in Lt;
    [|apply rad_of_logs; exact (logs_trans _ _ _ _ Lc Lt)].
  apply transfer_Ok_calls in Ht as (mid & dst & Hc2 & Hok & Hnr).
  apply (rad_trans _ w1); [apply rad_of_logs, Lc|].
  unfold bind at 1. unfold FileDownloader.after_transfer. unfold bind at 1.
  pose proof (proj1 (no_remove_hwm_part faults f file_hwm w2)) as Lh.
  match goal with
  | |- context [match ?m w2 with _ => _ end] =>
      destruct (m w2) as [[] w3|e w3] eqn:Hh
  end; simpl in Lh.
  2:{ apply rad_of_logs. exact (logs_trans _ _ _ _ Lt Lh). }
  apply hwm_part_Ok_calls in Hh as (mh & Hc3 & Hokh & Hnrh).
  destruct (FileDownloader.delete_source (FileDownloader.options self)).
  - unfold conn_remove_file.
    match goal with
    | |- context [call faults ?op ?sem w3] =>
        destruct (call_cases faults op sem w3) as [[e ->]|([] & w4 & Hsem & ->)]
    end; simpl.
    + exists ((ConnRemoveFile (rf_path f), Some e) :: mh ++ mid
              ++ [(ConnDownloadFile (rf_path f) dst replace, None)]).
      split; [simpl; rewrite Hc3, Hc2, <- !app_assoc; reflexivity|].
      intros post p e' pre Heq. destruct post as [|c post]; simpl in Heq.
      * injection Heq as <- <- <-. exists (mh ++ mid), dst, replace, [].
        split; [rewrite <- app_assoc; reflexivity|]. apply Forall_app. split; assumption.
      * injection Heq as _ Heq. exfalso. revert Heq. apply no_remove_in.
        apply Forall_app. split; [exact Hnrh|]. apply Forall_app. split; [exact Hnr|].
        repeat constructor. intros ? [=].
    + assert (Hcalls : calls w4 = calls w3).
      { destruct (rlookup _ _) as [[]|]; try discriminate. injection Hsem as <-. reflexivity. }
      exists ((ConnRemoveFile (rf_path f), None) :: mh ++ mid
              ++ [(ConnDownloadFile (rf_path f) dst replace, None)]).
      split; [simpl; rewrite Hcalls, Hc3, Hc2, <- !app_assoc; reflexivity|].
      intros post p e' pre Heq. destruct post as [|c post]; simpl in Heq.
      * injection Heq as <- <- <-. exists (mh ++ mid), dst, replace, [].
        split; [rewrite <- app_assoc; reflexivity|]. apply Forall_app. split; assumption.
      * injection Heq as _ Heq. exfalso. revert Heq. apply no_remove_in.
        apply Forall_app. split; [exact Hnrh|]. apply Forall_app. split; [exact Hnr|].
        repeat constructor. intros ? [=].
  - simpl. apply rad_of_logs. exact (logs_trans _ _ _ _ Lt Lh).
Qed.

Lemma download_file_removes faults self s l t result file_hwm :
  keeps removes_after_downloads
        (FileDownloader._download_file faults self s l t result file_hwm).
Proof.
  intros w. unfold FileDownloader._download_file. unfold bind at 1.
  pose proof (logs_conn_path_exists not_remove faults s (fun p H => ltac:(discriminate H)) w)
    as L1.
  destruct (conn_path_exists faults s w) as [ex w1|e w1]; simpl in L1;
    [|apply rad_of_logs, L1].
  destruct ex; simpl; [|apply rad_of_logs, L1].
  pose proof (logs_conn_get_file not_remove faults s (fun p H => ltac:(discriminate H)) w1)
    as L2.
  destruct (conn_get_file faults s w1) as [f w2|e w2]; simpl in L2;
    [|apply rad_of_logs; exact (logs_trans _ _ _ _ L1 L2)].
  apply (rad_trans _ w2); [apply rad_of_logs; exact (logs_trans _ _ _ _ L1 L2)|].
  unfold try_except.
  pose proof (try_body_removes faults self f l t result file_hwm w2) as Hb.
  destruct (FileDownloader.try_body faults self f l t result file_hwm w2); exact Hb.
Qed.

(** X18. In the calls of [_download_files], whatever fails, every
    [remove_file] of a source comes after a [download_file] of that very
    source that returned, and no call failed in between: a source is
    removed only once its transfer went through. *)
Theorem source_removed_only_after_its_download (faults : Faults)
    (self : FileDownloader.t) (items : list FileDownloader.item)
    (file_hwm : option FileDownloader.hwm_ref) (w : World) :
  removes_after_downloads w
    (world_of (FileDownloader._download_files faults self items file_hwm w)).
Proof.
  unfold FileDownloader._download_files. generalize empty_result. revert w.
  induction items as [|[[s l] t] rest IH]; intros w result; simpl; [apply rad_refl|].
  unfold bind.
  pose proof (download_file_removes faults self s l t result file_hwm w) as H1.
  destruct (FileDownloader._download_file faults self s l t result file_hwm w)
    as [r1 w1|e w1]; simpl in H1; [|exact H1].
  exact (rad_trans _ _ _ H1 (IH w1 r1)).
Qed.

(** ** Incremental download *)

Lemma hwm_grows_refl nm w : hwm_grows nm w w.
Proof. intros H. split; [exact H|auto]. Qed.

Lemma hwm_grows_trans nm w1 w2 w3 :
  hwm_grows nm w1 w2 -> hwm_grows nm w2 w3 -> hwm_grows nm w1 w3.
Proof.
  intros H1 H2 Ha. destruct (H1 Ha) as [Ha2 Hc2]. destruct (H2 Ha2) as [Ha3 Hc3].
  split; [exact Ha3|]. intros x Hx. apply Hc3, Hc2, Hx.
Qed.

(** Nothing of the HWM changed. *)
Lemma hwm_grows_same nm w w' :
  hwm_store w' = hwm_store w -> hwm_cell w' = hwm_cell w -> hwm_grows nm w w'.
Proof.
  intros Hs Hc Ha. unfold hwm_ahead, covered in *. rewrite Hs, Hc. split; [exact Ha|auto].
Qed.

Lemma within_no_hwm_grows nm w w' :
  within (fun op => ~ is_hwm_call op) w w' -> hwm_grows nm w w'.
Proof.
  intros (_ & _ & _ & S & C). apply hwm_grows_same.
  - apply S. intros h H. apply H. exact I.
  - apply C. intros p H. apply H. exact I.
Qed.

Section HwmGrows.
Context (faults : Faults) (self : FileDownloader.t) (nm : string).

Ltac hstep :=
  lazymatch goal with
  | |- keeps (within ?P) _ =>
      first
        [ apply (keeps_bind (within P) (within_trans P)); [|intros ?]
        | apply (keeps_ret (within P) (within_refl P))
        | apply (keeps_raise (within P) (within_refl P))
        | apply within_conn_path_exists; exact id
        | apply within_conn_get_file; exact id
        | apply within_conn_download_file; exact id
        | apply within_conn_remove_file; exact id
        | apply within_local_exists; exact id
        | apply within_local_mkdir; exact id
        | apply within_local_unlink; exact id
        | apply within_local_move; exact id ]
  end.

Lemma no_hwm_check_conflict local_file :
  keeps (within (fun op => ~ is_hwm_call op))
        (FileDownloader.check_conflict faults self local_file).
Proof.
  unfold FileDownloader.check_conflict.
  hstep; [hstep|]. destruct a; [|hstep].
  destruct (decide _); [hstep|]. destruct (decide _); hstep.
Qed.

Lemma no_hwm_transfer f local_file tmp_file replace :
  keeps (within (fun op => ~ is_hwm_call op))
        (FileDownloader.transfer faults f local_file tmp_file replace).
Proof.
  unfold FileDownloader.transfer. destruct tmp_file as [tmp|]; [|hstep].
  hstep; [hstep|]. hstep.
  - destruct replace; [|hstep]. hstep; [hstep|]. destruct a0; hstep.
  - hstep; [hstep|]. hstep.
Qed.

Lemma no_hwm_remove_part f :
  keeps (within (fun op => ~ is_hwm_call op))
        (if FileDownloader.delete_source (FileDownloader.options self)
         then conn_remove_file faults f else ret tt).
Proof. destruct (FileDownloader.delete_source _); hstep. Qed.

Lemma hwm_grows_update f : keeps (hwm_grows nm) (hwm_update faults f).
Proof.
  unfold hwm_update. apply keeps_call.
  - intros w e. apply hwm_grows_same; reflexivity.
  - intros w [] w1 [= <-] (h & Hc & Hn & Hf & Hsub).
    split.
    + exists (hwm_updated (rf_path f) h). simpl. rewrite Hc. simpl.
      split; [reflexivity|]. split; [exact Hn|]. split; [exact Hf|].
      intros h' Hh'. destruct (Hsub h' Hh') as [Hf' Hin]. split; [exact Hf'|].
      intros x Hx. apply elem_of_oset_add. left. apply Hin, Hx.
    + intros x Hx. exact Hx.
Qed.

Lemma hwm_grows_save : keeps (hwm_grows nm) (store_save faults).
Proof.
  intros w. unfold store_save. destruct (hwm_cell w) as [h|] eqn:Hc;
    [|apply hwm_grows_refl].
  unfold call. destruct (faults _ _); simpl; [apply hwm_grows_same; reflexivity|].
  intros (h0 & Hc0 & Hn & Hf & Hsub). rewrite Hc in Hc0. injection Hc0 as <-.
  split.
  - exists h. simpl. split; [exact Hc|]. split; [exact Hn|]. split; [exact Hf|].
    rewrite Hn, lookup_insert_eq. intros h' [= <-]. split; [exact Hf|auto].
  - intros x (h' & Hh' & Hf' & Hx). exists h. simpl.
    rewrite Hn, lookup_insert_eq. split; [reflexivity|]. split; [exact Hf|].
    apply (Hsub h' Hh'), Hx.
Qed.

(** When the update and the save both returned, the store covers the file. *)
Lemma hwm_saved_covers f w w' :
  hwm_ahead nm w ->
  (hwm_update faults f ;; store_save faults) w = Ok tt w' ->
  hwm_ahead nm w' /\ covered nm w' (rf_path f)
  /\ forall x, covered nm w x -> covered nm w' x.
Proof.
  intros Ha H. apply bind_inv_Ok in H as ([] & w1 & Hup & Hsave).
  pose proof (hwm_grows_update f w) as G1. rewrite Hup in G1. simpl in G1.
  destruct (G1 Ha) as [Ha1 Hc1].
  pose proof (hwm_grows_save w1) as G2. rewrite Hsave in G2. simpl in G2.
  destruct (G2 Ha1) as [Ha2 Hc2].
  split; [exact Ha2|]. split; [|intros x Hx; apply Hc2, Hc1, Hx].
  unfold hwm_update in Hup. apply call_inv_Ok in Hup as (w2 & Hsem & ->).
  injection Hsem as <-.
  unfold store_save in Hsave. simpl in Hsave.
  destruct Ha as (h & Hc & Hn & Hf & _). rewrite Hc in Hsave. simpl in Hsave.
  apply call_inv_Ok in Hsave as (w3 & Hsem & ->). injection Hsem as <-.
  exists (hwm_updated (rf_path f) h). simpl. rewrite Hn, lookup_insert_eq.
  split; [reflexivity|]. split; [exact Hf|]. apply elem_of_oset_add. right. reflexivity.
Qed.

(** One candidate: the HWM only grows, and when the target went into
    [successful] the store covers the source. *)
Lemma download_file_covers s l t result w r w' :
  hwm_ahead nm w ->
  FileDownloader._download_file faults self s l t result
    (Some FileDownloader.FileHwmObject) w = Ok r w' ->
  hwm_ahead nm w'
  /\ (forall x, covered nm w x -> covered nm w' x)
  /\ (successful r = successful result
      \/ successful r = oset_add l (successful result) /\ covered nm w' s).
Proof.
  intros Ha H. unfold FileDownloader._download_file in H.
  apply bind_inv_Ok in H as (ex & w1 & Hex & H).
  assert (G1 : hwm_grows nm w w1).
  { apply within_no_hwm_grows.
    pose proof (within_conn_path_exists (fun op => ~ is_hwm_call op) faults s id w) as K.
    rewrite Hex in K. exact K. }
  destruct (G1 Ha) as [Ha1 Hc1].
  destruct ex; simpl in H.
  2:{ injection H as <- <-. split; [exact Ha1|]. split; [exact Hc1|left; reflexivity]. }
  destruct (conn_get_file faults s w1) as [f w2|e w2] eqn:Hget; [|discriminate].
  assert (G2 : hwm_grows nm w1 w2).
  { apply within_no_hwm_grows.
    pose proof (within_conn_get_file (fun op => ~ is_hwm_call op) faults s id w1) as K.
    rewrite Hget in K. exact K. }
  destruct (G2 Ha1) as [Ha2 Hc2].
  apply conn_get_file_path in Hget as Hp.
  unfold try_except, FileDownloader.try_body in H.
  unfold bind at 1 in H.
  pose proof (no_hwm_check_conflict l w2) as K3. apply within_no_hwm_grows with (nm := nm) in K3.
  destruct (FileDownloader.check_conflict faults self l w2) as [c w3|e w3]; simpl in K3.
  2:{ injection H as <- <-. destruct (K3 Ha2) as [Ha3 Hc3].
      split; [exact Ha3|]. split; [intros x Hx; apply Hc3, Hc2, Hc1, Hx|left; reflexivity]. }
  destruct (K3 Ha2) as [Ha3 Hc3].
  destruct c as [|replace].
  { injection H as <- <-.
    split; [exact Ha3|]. split; [intros x Hx; apply Hc3, Hc2, Hc1, Hx|left; reflexivity]. }
  unfold bind at 1 in H.
  pose proof (no_hwm_transfer f l t replace w3) as K4.
  apply within_no_hwm_grows with (nm := nm) in K4.
  destruct (FileDownloader.transfer faults f l t replace w3) as [[] w4|e w4]; simpl in K4.
  2:{ injection H as <- <-. destruct (K4 Ha3) as [Ha4 Hc4].
      split; [exact Ha4|].
      split; [intros x Hx; apply Hc4, Hc3, Hc2, Hc1, Hx|left; reflexivity]. }
  destruct (K4 Ha3) as [Ha4 Hc4].
  unfold bind at 1 in H. unfold FileDownloader.after_transfer in H.
  unfold bind at 1 in H.
  destruct ((hwm_update faults f ;; store_save faults) w4) as [[] w5|e w5] eqn:Hsave.
  2:{ injection H as <- <-.
      pose proof (keeps_bind (hwm_grows nm) (hwm_grows_trans nm) _ _
                    (hwm_grows_update f) (fun _ => hwm_grows_save) w4) as K5.
      rewrite Hsave in K5. simpl in K5. destruct (K5 Ha4) as [Ha5 Hc5].
      split; [exact Ha5|].
      split; [intros x Hx; apply Hc5, Hc4, Hc3, Hc2, Hc1, Hx|left; reflexivity]. }
  destruct (hwm_saved_covers f w4 w5 Ha4 Hsave) as (Ha5 & Hcov & Hc5).
  pose proof (no_hwm_remove_part f w5) as K6.
  apply within_no_hwm_grows with (nm := nm) in K6.
  destruct ((if FileDownloader.delete_source (FileDownloader.options self)
             then conn_remove_file faults f else ret tt) w5) as [[] w6|e w6];
    simpl in K6; destruct (K6 Ha5) as [Ha6 Hc6]; injection H as <- <-.
  - split; [exact Ha6|].
    split; [intros x Hx; apply Hc6, Hc5, Hc4, Hc3, Hc2, Hc1, Hx|].
    right. split; [reflexivity|]. rewrite <- Hp. apply Hc6, Hcov.
  - split; [exact Ha6|].
    split; [intros x Hx; apply Hc6, Hc5, Hc4, Hc3, Hc2, Hc1, Hx|left; reflexivity].
Qed.

Lemma download_loop_covers_sources items :
  forall result w r w',
    hwm_ahead nm w ->
    FileDownloader.download_loop faults self items result
      (Some FileDownloader.FileHwmObject) w = Ok r w' ->
    hwm_ahead nm w'
    /\ (forall x, covered nm w x -> covered nm w' x)
    /\ forall p, p ∈ successful r ->
         p ∈ successful result
         \/ exists i, i ∈ items /\ FileDownloader.item_target i = p
                      /\ covered nm w' (FileDownloader.item_source i).
Proof.
  induction items as [|[[s l] t] rest IH]; intros result w r w' Ha Hrun; simpl in Hrun.
  - injection Hrun as <- <-. split; [exact Ha|]. split; [auto|]. intros p Hp. left. exact Hp.
  - apply bind_inv_Ok in Hrun as (r1 & w1 & Hone & Hrun).
    destruct (download_file_covers _ _ _ _ _ _ _ Ha Hone) as (Ha1 & Hc1 & Hs1).
    destruct (IH _ _ _ _ Ha1 Hrun) as (Ha2 & Hc2 & Hs2).
    split; [exact Ha2|]. split; [intros x Hx; apply Hc2, Hc1, Hx|].
    intros p Hp. apply Hs2 in Hp as [Hp|(i & Hi & Ht & Hcov)].
    + destruct Hs1 as [Heq|[Heq Hcov]].
      * rewrite Heq in Hp. left. exact Hp.
      * rewrite Heq in Hp. apply elem_of_oset_add in Hp as [Hp| ->]; [left; exact Hp|].
        right. exists (s, l, t). split; [apply list_elem_of_here|].
        split; [reflexivity|]. apply Hc2, Hcov.
    + right. exists i. split; [apply list_elem_of_further, Hi|]. split; assumption.
Qed.
End HwmGrows.

(** The files the stored HWM holds are not listed. *)
Lemma view_files_skips_stored faults self w fs w' c sp h :
  FileDownloader.hwm_type self = Some c ->
  FileDownloader.source_path self = Some sp ->
  hwm_store w !! file_hwm_name self c sp = Some h ->
  FileDownloader.view_files faults self w = Ok fs w' ->
  forall f, f ∈ fs -> rf_path f ∉ hwm_value h.
Proof.
  intros Hc Hsp Hh Hv f Hf.
  apply view_files_walked in Hv as (sp' & hf & nm & ch & Hsp' & Hhf & ->).
  rewrite Hsp in Hsp'. injection Hsp' as <-.
  set (filters := match FileDownloader.filter self with Some f => [f] | None => [] end
                  ++ hf) in *.
  set (L := all_limits (match FileDownloader.limit self with
                        | Some l => [l] | None => [] end)) in *.
  destruct (collect_spec (walk_node filters L sp (RDir nm ch) (limit_reset L)).1)
    as [_ Hin].
  destruct (Hin f Hf) as (it & x & Hit & Hx & Hp).
  pose proof (walk_node_listed filters L sp (RDir nm ch) sp (limit_reset L)
                (extends_path_refl sp)) as Hall.
  rewrite Forall_forall in Hall. destruct (Hall it Hit) as [_ Hacc].
  specialize (Hacc x (rf_stats f) Hx). rewrite <- Hp in Hacc.
  unfold accepted in Hacc. rewrite forallb_forall in Hacc.
  specialize (Hhf c Hc). rewrite Hh in Hhf. simpl in Hhf.
  assert (Hfl : FileHWMFilter h (EFile (rf_path f) (rf_stats f)) = true).
  { apply Hacc. subst filters. rewrite Hhf. apply in_or_app. right. left. reflexivity. }
  simpl in Hfl. apply bool_decide_eq_true in Hfl. exact Hfl.
Qed.

Lemma hwm_processing_covers faults self items w r w' c sp :
  FileDownloader.hwm_type self = Some c ->
  FileDownloader.source_path self = Some sp ->
  (forall h, hwm_store w !! file_hwm_name self c sp = Some h ->
             qualified_name h = file_hwm_name self c sp) ->
  FileDownloader._hwm_processing faults self items w = Ok r w' ->
  (forall p, p ∈ successful r ->
     exists i, i ∈ items /\ FileDownloader.item_target i = p
               /\ covered (file_hwm_name self c sp) w' (FileDownloader.item_source i))
  /\ (forall x, covered (file_hwm_name self c sp) w x ->
                covered (file_hwm_name self c sp) w' x).
Proof.
  intros Hc Hsp Hkey Hrun.
  unfold FileDownloader._hwm_processing in Hrun.
  apply bind_inv_Ok in Hrun as (h0 & w1 & Hget & Hrun).
  apply bind_inv_Ok in Hrun as ([] & w2 & Hset & Hrun).
  injection Hset as <-.
  apply get_hwm_Ok in Hget as (c' & sp' & Hc' & Hsp' & Hh0 & Hfile & ->).
  rewrite Hc in Hc'. injection Hc' as <-. rewrite Hsp in Hsp'. injection Hsp' as <-.
  set (nm := file_hwm_name self c sp) in *.
  assert (Ha : hwm_ahead nm (set_hwm_cell (Some h0) (log_call (StoreGet nm) None w))).
  { exists h0. simpl. split; [reflexivity|]. split; [|split; [exact Hfile|]].
    - subst h0. destruct (hwm_store w !! nm) as [h|] eqn:Hs; simpl; [auto|reflexivity].
    - intros h' Hh'. rewrite Hh' in Hh0. simpl in Hh0. subst h0. auto. }
  unfold FileDownloader._download_files in Hrun.
  destruct (download_loop_covers_sources faults self nm items _ _ _ _ Ha Hrun)
    as (_ & Hmono & Hs).
  split.
  - intros p Hp. destruct (Hs p Hp) as [Hin|Hi]; [inversion Hin|exact Hi].
  - intros x Hx. apply Hmono. exact Hx.
Qed.

(** X21. Take [_hwm_processing] returning, where the HWM the store holds
    under the downloader's HWM name, if any, carries that name. Then every
    target in [successful] is the target of a candidate whose source the
    file HWM stored under that name now holds, whatever failed for other
    candidates; and that HWM lost none of the files it held before. *)
Theorem hwm_covers_downloaded_files (faults : Faults) (self : FileDownloader.t)
    (items : list FileDownloader.item) (w : World) (r : DownloadResult) (w' : World)
    (c : FileDownloader.hwm_class) (sp : path) :
  FileDownloader.hwm_type self = Some c ->
  FileDownloader.source_path self = Some sp ->
  (forall h, hwm_store w !! file_hwm_name self c sp = Some h ->
             qualified_name h = file_hwm_name self c sp) ->
  FileDownloader._hwm_processing faults self items w = Ok r w' ->
  (forall p, p ∈ successful r ->
     exists i h,
       i ∈ items /\ FileDownloader.item_target i = p
       /\ hwm_store w' !! file_hwm_name self c sp = Some h
       /\ hwm_is_file h = true
       /\ FileDownloader.item_source i ∈ hwm_value h)
  /\ (forall x h, hwm_store w !! file_hwm_name self c sp = Some h ->
                  hwm_is_file h = true -> x ∈ hwm_value h ->
                  exists h', hwm_store w' !! file_hwm_name self c sp = Some h'
                             /\ x ∈ hwm_value h').
Proof.
  intros Hc Hsp Hkey Hrun.
  destruct (hwm_processing_covers _ _ _ _ _ _ _ _ Hc Hsp Hkey Hrun) as [Hs Hmono].
  split.
  - intros p Hp. destruct (Hs p Hp) as (i & Hi & Ht & h & Hh & Hf & Hx).
    exists i, h. auto.
  - intros x h Hh Hf Hx. destruct (Hmono x) as (h' & Hh' & _ & Hx'); [|eauto].
    exists h. auto.
Qed.

(** X22. Incremental download, one run after the other. Under the same
    conditions, no later [view_files] of this downloader lists the source
    of a candidate that [_hwm_processing] put into [successful]. *)
Theorem later_view_skips_downloaded_files (faults faults2 : Faults)
    (self : FileDownloader.t) (items : list FileDownloader.item) (w : World)
    (r : DownloadResult) (w' : World) (c : FileDownloader.hwm_class) (sp : path)
    (fs : list RemoteFile) (w2 : World) :
  FileDownloader.hwm_type self = Some c ->
  FileDownloader.source_path self = Some sp ->
  (forall h, hwm_store w !! file_hwm_name self c sp = Some h ->
             qualified_name h = file_hwm_name self c sp) ->
  FileDownloader._hwm_processing faults self items w = Ok r w' ->
  FileDownloader.view_files faults2 self w' = Ok fs w2 ->
  forall p, p ∈ successful r ->
    exists i, i ∈ items /\ FileDownloader.item_target i = p
              /\ FileDownloader.item_source i ∉ map rf_path fs.
Proof.
  intros Hc Hsp Hkey Hrun Hv p Hp.
  destruct (proj1 (hwm_processing_covers _ _ _ _ _ _ _ _ Hc Hsp Hkey Hrun) p Hp)
    as (i & Hi & Ht & h & Hh & _ & Hx).
  exists i. split; [exact Hi|]. split; [exact Ht|].
  intros Hin. apply list_elem_of_fmap in Hin as (f & Hf & Hfin).
  apply (view_files_skips_stored faults2 self w' fs w2 c sp h Hc Hsp Hh Hv f Hfin).
  rewrite <- Hf. exact Hx.
Qed.

Lemma hwm_covers_downloaded_files_witness :
  let items := [(Examples.a_txt, Examples.local_a_txt, None)] in
  let out := FileDownloader._hwm_processing no_faults incremental_mirror items
               Examples.tracked_world in
  exists h,
    hwm_store (world_of out)
      !! file_hwm_name incremental_mirror Examples.file_list Examples.remote_dir = Some h
    /\ Examples.a_txt ∈ hwm_value h.
Proof.
  intros items out.
  destruct (hwm_covers_downloaded_files no_faults incremental_mirror items
              Examples.tracked_world
              {| successful := [Examples.local_a_txt]; failed := []; skipped := [];
                 missing := [] |}
              (world_of out) Examples.file_list Examples.remote_dir eq_refl eq_refl)
    as [Hs _].
  - intros h H. exfalso. revert H. vm_compute. discriminate.
  - vm_compute. reflexivity.
  - destruct (Hs Examples.local_a_txt (list_elem_of_here _ _))
      as (i & h & Hi & Ht & Hh & _ & Hx).
    apply list_elem_of_singleton in Hi as ->. exists h. split; [exact Hh|exact Hx].
Defined.

Lemma later_view_skips_downloaded_files_witness :
  let items := [(Examples.a_txt, Examples.local_a_txt, None)] in
  let w1 := world_of (FileDownloader._hwm_processing no_faults incremental_mirror items
                        Examples.tracked_world) in
  exists fs w2,
    FileDownloader.view_files no_faults incremental_mirror w1 = Ok fs w2
    /\ Examples.a_txt ∉ map rf_path fs.
Proof.
  intros items w1.
  destruct (FileDownloader.view_files no_faults incremental_mirror w1) as [fs w2|e w2] eqn:Hv;
    [|vm_compute in Hv; discriminate Hv].
  exists fs, w2. split; [reflexivity|].
  destruct (later_view_skips_downloaded_files no_faults no_faults incremental_mirror items
              Examples.tracked_world
              {| successful := [Examples.local_a_txt]; failed := []; skipped := [];
                 missing := [] |}
              w1 Examples.file_list Examples.remote_dir fs w2 eq_refl eq_refl)
    with (p := Examples.local_a_txt) as (i & Hi & _ & Hx).
  - intros h H. exfalso. revert H. vm_compute. discriminate.
  - vm_compute. reflexivity.
  - exact Hv.
  - apply list_elem_of_here.
  - apply list_elem_of_singleton in Hi as ->. exact Hx.
Defined.

(** ** Construction *)





(** ** The HDFS connection *)

(** X24. An [HDFS] connection is constructed unless both [password] and
    [keytab] are given, which is a [ValueError]. Of a connection that was
    constructed, [get_client] runs [kinit] exactly when one of the two is
    given, and then with that one alone; with none it makes an
    [InsecureClient] for the user and never runs [kinit]. Either way the
    client is handed out only after [status("/")] answered. *)
Theorem hdfs_client_uses_one_credential {S : Type}
    (kinit kinit' : string -> option string -> option string -> S -> (HDFS.error + unit) * S)
    (status : HDFS.client -> path -> bool -> S -> (HDFS.error + option HDFS.FileStatus) * S)
    (host : string) (password : option string) (port : option Z) (user : option string)
    (keytab : option string) (timeout : option Z) (s : S) :
  match HDFS.create host password port user keytab timeout with
  | inl e =>
      HDFS.given password = true /\ HDFS.given keytab = true
      /\ exists msg, e = HDFS.ValueError msg
  | inr self =>
      (HDFS.given password = false \/ HDFS.given keytab = false)
      /\ (HDFS.given password = false -> HDFS.given keytab = false ->
          HDFS.get_client kinit status self s = HDFS.get_client kinit' status self s
          /\ forall cl s', HDFS.get_client kinit status self s = (inr cl, s') ->
               cl = HDFS.InsecureClient (HDFS.conn_str self) (HDFS.user self))
      /\ (forall cl s', HDFS.get_client kinit status self s = (inr cl, s') ->
            exists s1 st, status cl (abs_path []) true s1 = (inr st, s')
              /\ (HDFS.given password || HDFS.given keytab = true ->
                  kinit (HDFS.user self) keytab password s = (inr tt, s1)
                  /\ cl = HDFS.KerberosClient (HDFS.conn_str self) timeout))
  end.
Proof.
  unfold HDFS.create, HDFS.__post_init__. simpl.
  destruct (HDFS.given password) eqn:Hp, (HDFS.given keytab) eqn:Hk; simpl.
  - repeat split; eauto.
  - split; [auto|]. split; [discriminate|].
    intros cl s'. unfold HDFS.get_client. simpl. rewrite Hp, Hk. simpl.
    destruct (kinit _ _ _ s) as [[e|[]] s1]; [discriminate|].
    destruct (status _ _ _ s1) as [[e|st] s2] eqn:Hst; [discriminate|].
    intros [= <- <-]. exists s1, st. split; [exact Hst|]. auto.
  - split; [auto|]. split; [discriminate|].
    intros cl s'. unfold HDFS.get_client. simpl. rewrite Hp, Hk. simpl.
    destruct (kinit _ _ _ s) as [[e|[]] s1]; [discriminate|].
    destruct (status _ _ _ s1) as [[e|st] s2] eqn:Hst; [discriminate|].
    intros [= <- <-]. exists s1, st. split; [exact Hst|]. auto.
  - split; [auto|]. split.
    + intros _ _. unfold HDFS.get_client. simpl. rewrite Hp, Hk. simpl.
      split; [reflexivity|]. intros cl s'.
      destruct (status _ _ _ s) as [[e|st] s2]; [discriminate|].
      intros [= <- _]. reflexivity.
    + intros cl s'. unfold HDFS.get_client. simpl. rewrite Hp, Hk. simpl.
      destruct (status _ _ _ s) as [[e|st] s2] eqn:Hst; [discriminate|].
      intros [= <- <-]. exists s, st. split; [exact Hst|]. discriminate.
Qed.

(** X25. [remove_file] asks [status(path, strict=False)] first. For a path
    that is not there it raises [HdfsError] and [delete] is not called,
    whatever [delete] would do; for a path that is there it calls [delete]
    without recursion, hands on what that raises and returns otherwise. *)
Theorem hdfs_remove_file_checks_existence {S : Type}
    (status : HDFS.client -> path -> bool -> S -> (HDFS.error + option HDFS.FileStatus) * S)
    (delete delete' : HDFS.client -> path -> bool -> S -> (HDFS.error + bool) * S)
    (cl : HDFS.client) (p : path) (s : S) :
  match status cl p false s with
  | (inl e, s1) => HDFS.remove_file status delete cl p s = (inl e, s1)
  | (inr None, s1) =>
      (exists msg, HDFS.remove_file status delete cl p s = (inl (HDFS.HdfsError msg), s1))
      /\ HDFS.remove_file status delete cl p s = HDFS.remove_file status delete' cl p s
  | (inr (Some _), s1) =>
      match delete cl p false s1 with
      | (inl e, s2) => HDFS.remove_file status delete cl p s = (inl e, s2)
      | (inr _, s2) => HDFS.remove_file status delete cl p s = (inr tt, s2)
      end
  end.
Proof.
  unfold HDFS.remove_file, HDFS.path_exists.
  destruct (status cl p false s) as [[e|[st|]] s1]; [reflexivity| |split; eauto].
  destruct (delete cl p false s1) as [[e|b] s2]; reflexivity.
Qed.

(** ** What a successful transfer leaves *)

Lemma self_not_above_parent (l : path) :
  parts l <> [] -> l ∉ (list_to_set (self_and_parents (parent l)) : gset path).
Proof.
  intros Hne Hin. apply elem_of_list_to_set in Hin.
  assert (Hlen : length (parts (parent l)) < length (parts l)).
  { unfold parent. simpl. destruct (parts l) as [|x k]; [contradiction|].
    rewrite removelast_firstn_len, length_take. simpl. lia. }
  unfold self_and_parents in Hin. apply elem_of_cons in Hin as [Heq|Hin].
  - rewrite <- Heq in Hlen. lia.
  - apply parents_shorter in Hin. lia.
Qed.

Lemma touches_only_refl l t w : touches_only l t w w.
Proof. split; [reflexivity|]. split; [set_solver|auto]. Qed.

Lemma touches_only_trans l t w1 w2 w3 :
  touches_only l t w1 w2 -> touches_only l t w2 w3 -> touches_only l t w1 w3.
Proof.
  intros (D1 & U1 & F1) (D2 & U2 & F2).
  split; [set_solver|]. split; [set_solver|].
  intros Hl Hne q Hq Ht. rewrite F2; [apply F1; assumption| |assumption..].
  intros Hin. apply U1 in Hin. apply elem_of_union in Hin as [Hin|Hin]; [exact (Hl Hin)|].
  exact (self_not_above_parent l Hne Hin).
Qed.

Lemma touches_only_same l t w w' :
  local_files w' = local_files w -> local_dirs w' = local_dirs w -> touches_only l t w w'.
Proof.
  intros Hf Hd. unfold touches_only. rewrite Hf, Hd.
  split; [reflexivity|]. split; [set_solver|auto].
Qed.

Section TouchesOnly.
Context (faults : Faults) (l : path) (t : option path).

Lemma touches_probe {A} op (sem : World -> exn + (A * World)) :
  (forall w a w1, sem w = inr (a, w1) ->
                  local_files w1 = local_files w /\ local_dirs w1 = local_dirs w) ->
  keeps (touches_only l t) (call faults op sem).
Proof.
  intros Hsem. apply keeps_call.
  - intros w e. apply touches_only_same; reflexivity.
  - intros w a w1 Hs. destruct (Hsem _ _ _ Hs) as [Hf Hd].
    apply touches_only_same; simpl; assumption.
Qed.

Ltac unchanged :=
  let w := fresh in let a := fresh in let w1 := fresh in let H := fresh in
  intros w a w1 H; cbv beta zeta in H;
  repeat match type of H with
         | context [match ?x with _ => _ end] => destruct x; try discriminate
         end;
  injection H as _ <-; split; reflexivity.

Lemma touches_conn_path_exists p : keeps (touches_only l t) (conn_path_exists faults p).
Proof. apply touches_probe. unchanged. Qed.

Lemma touches_conn_get_file p : keeps (touches_only l t) (conn_get_file faults p).
Proof. apply touches_probe. unchanged. Qed.

Lemma touches_conn_remove_file f : keeps (touches_only l t) (conn_remove_file faults f).
Proof. apply touches_probe. unchanged. Qed.

Lemma touches_local_exists p : keeps (touches_only l t) (local_exists faults p).
Proof. apply touches_probe. unchanged. Qed.

Lemma touches_hwm_update f : keeps (touches_only l t) (hwm_update faults f).
Proof. apply touches_probe. unchanged. Qed.

Lemma touches_store_save : keeps (touches_only l t) (store_save faults).
Proof.
  intros w. unfold store_save. destruct (hwm_cell w); [|apply touches_only_refl].
  apply touches_probe. unchanged.
Qed.

Lemma touches_write dst d op e w :
  (dst = l \/ t = Some dst) ->
  touches_only l t w (log_call op e (write_local dst d w)).
Proof.
  intros Hdst. split; [reflexivity|]. split; [simpl; set_solver|].
  intros _ _ q Hq Ht. simpl. apply lookup_insert_ne.
  destruct Hdst as [->| ->]; congruence.
Qed.

Lemma touches_conn_download_file f dst replace :
  (dst = l \/ t = Some dst) ->
  keeps (touches_only l t) (conn_download_file faults f dst replace).
Proof.
  intros Hdst w. unfold conn_download_file.
  repeat match goal with
         | |- context [match ?x with _ => _ end] => destruct x
         end; simpl;
    first [apply touches_write; exact Hdst|apply touches_only_same; reflexivity].
Qed.

Lemma touches_local_unlink : keeps (touches_only l t) (local_unlink faults l).
Proof.
  unfold local_unlink. apply keeps_call.
  - intros w e. apply touches_only_same; reflexivity.
  - intros w [] w1 Hs. destruct (local_files w !! l); [|discriminate].
    injection Hs as <-. split; [reflexivity|]. split; [simpl; set_solver|].
    intros _ _ q Hq _. simpl. apply lookup_delete_ne. congruence.
Qed.

Lemma touches_local_mkdir : keeps (touches_only l t) (local_mkdir faults (parent l) true true).
Proof.
  unfold local_mkdir. apply keeps_call.
  - intros w e. apply touches_only_same; reflexivity.
  - intros w [] w1 Hs.
    assert (Hself : parent l ∈ (list_to_set (self_and_parents (parent l)) : gset path)).
    { apply elem_of_list_to_set. apply list_elem_of_here. }
    repeat match type of Hs with
           | context [if ?x then _ else _] => destruct x; try discriminate
           end;
      injection Hs as <-;
      (split; [simpl; set_solver|]; split; [simpl; set_solver|]; intros; reflexivity).
Qed.

Lemma touches_local_move tmp :
  t = Some tmp -> keeps (touches_only l t) (local_move faults tmp l).
Proof.
  intros Ht. unfold local_move. apply keeps_call.
  - intros w e. apply touches_only_same; reflexivity.
  - intros w [] w1 Hs. destruct (local_files w !! tmp) as [d|]; [|discriminate].
    cbv zeta in Hs.
    split; [|split].
    + destruct (_ && _); [discriminate|]. injection Hs as <-. reflexivity.
    + destruct (_ && _); [discriminate|]. injection Hs as <-. simpl. set_solver.
    + intros Hl _ q Hq Hqt. rewrite (bool_decide_false _ Hl) in Hs. simpl in Hs.
      injection Hs as <-. simpl.
      rewrite lookup_insert_ne by congruence.
      apply lookup_delete_ne. congruence.
Qed.

End TouchesOnly.

Ltac tstep :=
  lazymatch goal with
  | |- keeps (touches_only ?l ?t) _ =>
      first
        [ apply (keeps_bind (touches_only l t) (touches_only_trans l t)); [|intros ?]
        | apply (keeps_ret (touches_only l t) (touches_only_refl l t))
        | apply (keeps_raise (touches_only l t) (touches_only_refl l t))
        | apply (keeps_try_except (touches_only l t) (touches_only_trans l t)); [|intros ?]
        | apply touches_conn_path_exists
        | apply touches_conn_get_file
        | apply touches_conn_remove_file
        | apply touches_local_exists
        | apply touches_hwm_update
        | apply touches_store_save
        | apply touches_local_unlink
        | apply touches_local_mkdir ]
  end.

Lemma touches_try_body faults self l t f result file_hwm :
  keeps (touches_only l t) (FileDownloader.try_body faults self f l t result file_hwm).
Proof.
  unfold FileDownloader.try_body, FileDownloader.check_conflict,
    FileDownloader.transfer, FileDownloader.after_transfer.
  tstep.
  - tstep; [tstep|]. destruct a; [|tstep].
    destruct (decide _); [tstep|]. destruct (decide _); tstep.
  - destruct a as [|replace]; [tstep|].
    tstep.
    + destruct t as [tmp|].
      * tstep; [apply touches_conn_download_file; right; reflexivity|].
        tstep.
        -- destruct replace; [|tstep]. tstep; [tstep|]. destruct a0; tstep.
        -- tstep; [tstep|]. apply touches_local_move. reflexivity.
      * apply touches_conn_download_file. left; reflexivity.
    + tstep; [|tstep]. tstep.
      * destruct file_hwm; [|tstep]. tstep; [tstep|tstep].
      * destruct (FileDownloader.delete_source _); tstep.
Qed.

Lemma touches_download_file faults self s l t result file_hwm :
  keeps (touches_only l t) (FileDownloader._download_file faults self s l t result file_hwm).
Proof.
  unfold FileDownloader._download_file.
  tstep; [tstep|]. destruct (negb a); [tstep|].
  intros w. pose proof (touches_conn_get_file faults l t s w) as Hg.
  destruct (conn_get_file faults s w) as [f w1|e w1]; simpl in *; [|exact Hg].
  apply (touches_only_trans _ _ _ _ _ Hg).
  apply (keeps_try_except _ (touches_only_trans l t));
    [apply touches_try_body|intros ?; tstep].
Qed.

Lemma check_conflict_Ok faults self local_file w c w' :
  FileDownloader.check_conflict faults self local_file w = Ok c w' ->
  w' = log_call (LocalExists local_file) None w.
Proof.
  unfold FileDownloader.check_conflict. intros H.
  apply bind_inv_Ok in H as (ex & w1 & Hex & H).
  unfold local_exists in Hex. apply call_inv_Ok in Hex as (w2 & Hsem & ->).
  injection Hsem as _ <-.
  destruct ex; [|injection H as _ <-; reflexivity].
  destruct (decide _); [discriminate|].
  destruct (decide _); injection H as _ <-; reflexivity.
Qed.

(** A transfer that returned has put the whole source at the target. *)
Lemma transfer_Ok_target faults f l t replace w w' :
  l ∉ local_dirs w -> parts l <> [] -> t <> Some l ->
  FileDownloader.transfer faults f l t replace w = Ok tt w' ->
  exists nm st data,
    rlookup (parts (rf_path f)) (remote w) = Some (RFile nm st data)
    /\ local_files w' !! l = Some (Complete data).
Proof.
  intros Hl Hne Ht. unfold FileDownloader.transfer. destruct t as [tmp|].
  - assert (Htl : tmp <> l) by congruence.
    intros H.
    apply bind_inv_Ok in H as ([] & w1 & Hdl & H).
    apply bind_inv_Ok in H as ([] & w2 & Hswap & H).
    apply bind_inv_Ok in H as ([] & w3 & Hmk & Hmv).
    destruct (conn_download_file_cases faults f tmp replace w)
      as [[e He]|[[e He]|(nm & st & data & Hsrc & He)]]; rewrite He in Hdl;
      try discriminate.
    injection Hdl as <-. exists nm, st, data. split; [exact Hsrc|].
    set (w1 := log_call (ConnDownloadFile (rf_path f) tmp replace) None
                 (write_local tmp (Complete data) w)) in *.
    assert (H1 : local_files w1 !! tmp = Some (Complete data) /\ local_dirs w1 = local_dirs w).
    { split; [simpl; apply lookup_insert_eq|reflexivity]. }
    assert (H2 : local_files w2 !! tmp = Some (Complete data) /\ local_dirs w2 = local_dirs w).
    { destruct replace.
      - apply bind_inv_Ok in Hswap as (ex & w4 & Hex & Hul).
        unfold local_exists in Hex. apply call_inv_Ok in Hex as (w5 & Hsem & ->).
        injection Hsem as _ <-.
        destruct ex; [|injection Hul as <-; exact H1].
        destruct (local_unlink_cases faults l (log_call (LocalExists l) None w1))
          as [[e He']| He']; rewrite He' in Hul; [discriminate|].
        injection Hul as <-. simpl. split; [|reflexivity].
        rewrite lookup_delete_ne by congruence. apply lookup_insert_eq.
      - injection Hswap as <-. exact H1. }
    destruct H2 as [Htmp Hd2].
    pose proof (touches_local_mkdir faults l (Some tmp) w2) as K.
    rewrite Hmk in K. simpl in K. destruct K as (_ & U & _).
    assert (Hl3 : l ∉ local_dirs w3).
    { intros Hin. apply U in Hin. apply elem_of_union in Hin as [Hin|Hin].
      - rewrite Hd2 in Hin. exact (Hl Hin).
      - exact (self_not_above_parent l Hne Hin). }
    assert (Htmp3 : local_files w3 !! tmp = Some (Complete data)).
    { destruct (local_mkdir_cases faults (parent l) true true w2)
        as [[e He']|[dirs He']]; rewrite He' in Hmk; [discriminate|].
      injection Hmk as <-. exact Htmp. }
    destruct (local_move_cases faults tmp l w3) as [[e He']|(d & Hd & He')];
      rewrite He' in Hmv; [discriminate|].
    injection Hmv as <-. simpl.
    rewrite (bool_decide_false _ Hl3). rewrite lookup_insert_eq.
    rewrite Htmp3 in Hd. injection Hd as <-. reflexivity.
  - intros H.
    destruct (conn_download_file_cases faults f l replace w)
      as [[e He]|[[e He]|(nm & st & data & Hsrc & He)]]; rewrite He in H;
      try discriminate.
    injection H as <-. exists nm, st, data. split; [exact Hsrc|].
    simpl. apply lookup_insert_eq.
Qed.

(** One candidate: either [successful] is as it was, or the target was
    added to it and holds the whole content the source had. *)
Lemma download_file_puts_source faults self s l t result file_hwm w r w' :
  l ∉ local_dirs w -> parts l <> [] -> t <> Some l ->
  FileDownloader._download_file faults self s l t result file_hwm w = Ok r w' ->
  successful r = successful result
  \/ successful r = oset_add l (successful result)
     /\ exists nm st data,
          rlookup (parts s) (remote w) = Some (RFile nm st data)
          /\ local_files w' !! l = Some (Complete data).
Proof.
  intros Hl Hne Ht H. unfold FileDownloader._download_file in H.
  apply bind_inv_Ok in H as (ex & w1 & Hex & H).
  unfold conn_path_exists in Hex. apply call_inv_Ok in Hex as (w0 & Hsem & ->).
  injection Hsem as _ <-.
  destruct ex; simpl in H; [|injection H as <- _; left; reflexivity].
  match type of H with
  | context [conn_get_file faults s ?wa] =>
      destruct (conn_get_file faults s wa) as [f w2|e w2] eqn:Hget; [|discriminate]
  end.
  apply conn_get_file_path in Hget as Hp.
  unfold conn_get_file in Hget. apply call_inv_Ok in Hget as (w3 & Hsem & ->).
  assert (w3 = log_call (ConnPathExists s) None w) as ->.
  { destruct (rlookup _ _) as [[]|]; try discriminate. injection Hsem as _ <-. reflexivity. }
  clear Hsem.
  unfold try_except in H.
  match type of H with
  | match ?o with _ => _ end = _ => destruct o as [r2 w4|e w4] eqn:Hbody
  end; [|injection H as <- _; left; reflexivity].
  injection H as <- <-.
  unfold FileDownloader.try_body in Hbody.
  apply bind_inv_Ok in Hbody as (c & w5 & Hc & Hbody).
  apply check_conflict_Ok in Hc as ->.
  destruct c as [|replace]; [injection Hbody as <- _; left; reflexivity|].
  apply bind_inv_Ok in Hbody as ([] & w6 & Htr & Hbody).
  apply bind_inv_Ok in Hbody as ([] & w7 & Haft & Hbody).
  injection Hbody as <- <-.
  right. split; [reflexivity|].
  apply transfer_Ok_target in Htr as (nm & st & data & Hsrc & Hdst);
    [|exact Hl|exact Hne|exact Ht].
  simpl in Hsrc. rewrite Hp in Hsrc.
  exists nm, st, data. split; [exact Hsrc|].
  pose proof (keeps_after_transfer faults self f file_hwm w6) as K.
  rewrite Haft in K. simpl in K. destruct K as [K _]. rewrite K. exact Hdst.
Qed.

Lemma above_parent_is_parent (x l : path) :
  parts l <> [] -> x ∈ self_and_parents (parent l) -> x ∈ parents l.
Proof.
  intros Hne Hin. unfold parents.
  assert (Hpar : parent l = Path (is_absolute l) (take (length (parts l) - 1) (parts l))).
  { unfold parent. destruct (parts l) as [|y k] eqn:Hp; [contradiction|].
    rewrite <- Hp. rewrite removelast_firstn_len. rewrite Nat.sub_1_r. reflexivity. }
  assert (Hlen : 0 < length (parts l)).
  { destruct (parts l); [contradiction|simpl; lia]. }
  unfold self_and_parents in Hin. apply elem_of_cons in Hin as [->|Hin].
  - rewrite Hpar. apply list_elem_of_fmap. exists (length (parts l) - 1).
    split; [reflexivity|]. apply list_elem_of_In. rewrite <- in_rev. apply in_seq. lia.
  - unfold parents in Hin. apply list_elem_of_fmap in Hin as (k & -> & Hk).
    apply list_elem_of_In in Hk. rewrite <- in_rev in Hk. apply in_seq in Hk.
    rewrite Hpar in *. simpl in *. rewrite length_take in Hk.
    apply list_elem_of_fmap. exists k. split.
    + rewrite take_take. f_equal. f_equal. lia.
    + apply list_elem_of_In. rewrite <- in_rev. apply in_seq. lia.
Qed.

Lemma download_loop_puts_sources faults self file_hwm w0 items :
  forall done result w r w',
    NoDup (map FileDownloader.item_target (done ++ items)) ->
    (forall i j, i ∈ done ++ items -> j ∈ done ++ items ->
                 FileDownloader.item_temp j <> Some (FileDownloader.item_target i)) ->
    (forall i j, i ∈ done ++ items -> j ∈ done ++ items ->
                 FileDownloader.item_target i ∉ parents (FileDownloader.item_target j)) ->
    (forall i, i ∈ done ++ items -> parts (FileDownloader.item_target i) <> []) ->
    (forall i, i ∈ items -> FileDownloader.item_target i ∉ local_dirs w) ->
    (FileDownloader.delete_source (FileDownloader.options self) = false ->
     remote w = remote w0) ->
    (forall p, p ∈ successful result ->
               exists i, i ∈ done /\ FileDownloader.item_target i = p) ->
    (forall i, i ∈ done -> FileDownloader.item_target i ∈ successful result ->
               holds_source self w0 w i) ->
    FileDownloader.download_loop faults self items result file_hwm w = Ok r w' ->
    forall i, i ∈ done ++ items -> FileDownloader.item_target i ∈ successful r ->
              holds_source self w0 w' i.
Proof.
  induction items as [|[[s l] t] rest IH];
    intros done result w r w' Hnd Htmp Hpar Hne Hdirs Hrem Hsucc Hinv Hrun; simpl in Hrun.
  - injection Hrun as <- <-. rewrite app_nil_r. exact Hinv.
  - apply bind_inv_Ok in Hrun as (r1 & w1 & Hone & Hrun).
    assert (Hk : (s, l, t) ∈ done ++ (s, l, t) :: rest).
    { apply elem_of_app. right. apply list_elem_of_here. }
    assert (Hl : l ∉ local_dirs w) by (apply (Hdirs (s, l, t)), list_elem_of_here).
    assert (Hlne : parts l <> []) by exact (Hne _ Hk).
    assert (Htl : t <> Some l) by exact (Htmp _ _ Hk Hk).
    pose proof (touches_download_file faults self s l t result file_hwm w) as T.
    rewrite Hone in T. simpl in T. destruct T as (_ & U & F).
    pose proof (download_file_puts_source _ _ _ _ _ _ _ _ _ _ Hl Hlne Htl Hone) as B.
    assert (Hfresh : forall i, i ∈ done -> FileDownloader.item_target i <> l).
    { intros i Hi Heq. rewrite map_app in Hnd. apply NoDup_app in Hnd as (_ & Hdis & _).
      apply (Hdis l).
      - rewrite <- Heq. apply list_elem_of_fmap. exists i. split; [reflexivity|exact Hi].
      - simpl. apply list_elem_of_here. }
    assert (Hlnew : l ∉ successful result).
    { intros Hin. destruct (Hsucc l Hin) as (i & Hi & Heq). exact (Hfresh i Hi Heq). }
    pose proof (IH (done ++ [(s, l, t)]) r1 w1 r w') as IH'.
    rewrite <- app_assoc in IH'. simpl in IH'.
    apply IH'; clear IH'; try assumption.
    + intros i Hi Hin. apply U in Hin. apply elem_of_union in Hin as [Hin|Hin].
      * apply (Hdirs i); [apply list_elem_of_further, Hi|exact Hin].
      * apply elem_of_list_to_set in Hin.
        apply (above_parent_is_parent _ _ Hlne) in Hin.
        apply (Hpar i (s, l, t)); [|exact Hk|exact Hin].
        apply elem_of_app. right. apply list_elem_of_further, Hi.
    + intros Hd.
      pose proof (no_remove_download_file faults self s l t result file_hwm Hd w) as K.
      rewrite Hone in K. simpl in K. destruct K as (_ & _ & R & _).
      rewrite R; [exact (Hrem Hd)|]. intros p H. exact (H p eq_refl).
    + intros p Hp. destruct B as [Heq|[Heq _]]; rewrite Heq in Hp.
      * destruct (Hsucc p Hp) as (i & Hi & Hti). exists i.
        split; [apply elem_of_app; left; exact Hi|exact Hti].
      * apply elem_of_oset_add in Hp as [Hp| ->].
        -- destruct (Hsucc p Hp) as (i & Hi & Hti). exists i.
           split; [apply elem_of_app; left; exact Hi|exact Hti].
        -- exists (s, l, t). split; [|reflexivity].
           apply elem_of_app. right. apply list_elem_of_here.
    + intros i Hi Hin. apply elem_of_app in Hi as [Hi|Hi].
      * (* an earlier candidate: its target was not touched *)
        assert (Hold : FileDownloader.item_target i ∈ successful result).
        { destruct B as [Heq|[Heq _]]; rewrite Heq in Hin; [exact Hin|].
          apply elem_of_oset_add in Hin as [Hin|Heq']; [exact Hin|].
          destruct (Hfresh i Hi Heq'). }
        destruct (Hinv i Hi Hold) as (data & Hfile & Hsrc).
        exists data. split; [|exact Hsrc].
        rewrite (F Hl Hlne); [exact Hfile|exact (Hfresh i Hi)|].
        apply (Htmp i (s, l, t)); [apply elem_of_app; left; exact Hi|exact Hk].
      * apply list_elem_of_singleton in Hi as ->.
        unfold FileDownloader.item_target in Hin. simpl in Hin.
        destruct B as [Heq|[_ (nm & st & data & Hsrc & Hfile)]];
          [rewrite Heq in Hin; destruct (Hlnew Hin)|].
        exists data. split; [exact Hfile|].
        intros Hd. exists nm, st. rewrite <- (Hrem Hd). exact Hsrc.
Qed.

(** X20. Take candidates with pairwise distinct targets, none of them a
    directory, an ancestor of another target or the temporary file of a
    candidate. When [_download_files] returns, whatever failed on the way,
    every target it lists in [successful] holds a whole file, and without
    [delete_source] that file is the content its source had. *)
Theorem successful_targets_hold_their_source (faults : Faults) (self : FileDownloader.t)
    (items : list FileDownloader.item) (file_hwm : option FileDownloader.hwm_ref)
    (w : World) (r : DownloadResult) (w' : World) :
  NoDup (map FileDownloader.item_target items) ->
  (forall i j, i ∈ items -> j ∈ items ->
               FileDownloader.item_temp j <> Some (FileDownloader.item_target i)
               /\ FileDownloader.item_target i ∉ parents (FileDownloader.item_target j)) ->
  (forall i, i ∈ items ->
             parts (FileDownloader.item_target i) <> []
             /\ FileDownloader.item_target i ∉ local_dirs w) ->
  FileDownloader._download_files faults self items file_hwm w = Ok r w' ->
  forall i, i ∈ items -> FileDownloader.item_target i ∈ successful r ->
            holds_source self w w' i.
Proof.
  intros Hnd Hpair Hone Hrun. unfold FileDownloader._download_files in Hrun.
  apply (download_loop_puts_sources faults self file_hwm w items [] empty_result w r w');
    try assumption.
  - intros i j Hi Hj. exact (proj1 (Hpair i j Hi Hj)).
  - intros i j Hi Hj. exact (proj2 (Hpair i j Hi Hj)).
  - intros i Hi. exact (proj1 (Hone i Hi)).
  - intros i Hi. exact (proj2 (Hone i Hi)).
  - reflexivity.
  - intros p Hp. inversion Hp.
  - intros i Hi. inversion Hi.
Qed.

Lemma successful_targets_hold_their_source_witness :
  let w := set_local_dirs {[ Examples.local_dir ]} Examples.empty_world in
  let i := (Examples.a_txt, Examples.local_a_txt, None) in
  holds_source Examples.mirror w
    (world_of (FileDownloader._download_files no_faults Examples.mirror [i] None w)) i.
Proof.
  intros w i.
  apply (successful_targets_hold_their_source no_faults Examples.mirror [i] None w
           {| successful := [Examples.local_a_txt]; failed := []; skipped := [];
              missing := [] |}
           (world_of (FileDownloader._download_files no_faults Examples.mirror [i] None w))).
  - apply NoDup_singleton.
  - intros a b Ha Hb. apply list_elem_of_singleton in Ha as ->.
    apply list_elem_of_singleton in Hb as ->. split; [discriminate|].
    intros H. apply parents_shorter in H. simpl in H. lia.
  - intros a Ha. apply list_elem_of_singleton in Ha as ->. split; [discriminate|].
    simpl. rewrite elem_of_singleton. discriminate.
  - vm_compute. reflexivity.
  - apply list_elem_of_here.
  - apply list_elem_of_here.
Defined.

(** ** When the loop stops, and the removal of a source *)

(** [_download_file] raises only out of its two look-ups. *)
Lemma download_file_Raise faults self s l t result file_hwm w e w' :
  FileDownloader._download_file faults self s l t result file_hwm w = Raise e w' ->
  exists e0,
    last_call w' = Some (ConnPathExists s, Some e0) /\ e = e0
    \/ last_call w' = Some (ConnGetFile s, Some e0) /\ e = UnboundLocalError "remote_file".
Proof.
  unfold FileDownloader._download_file, bind, conn_path_exists.
  match goal with
  | |- context [call faults ?op ?sem w] =>
      destruct (call_cases faults op sem w) as [[e0 ->]|(ex & w1 & _ & ->)]
  end.
  - intros [= <- <-]. exists e0. left. split; reflexivity.
  - destruct ex; simpl; [|discriminate].
    unfold conn_get_file.
    match goal with
    | |- context [call faults ?op ?sem ?wa] =>
        destruct (call_cases faults op sem wa) as [[e0 ->]|(f & w2 & _ & ->)]
    end.
    + intros [= <- <-]. exists e0. right. split; reflexivity.
    + unfold try_except. destruct (FileDownloader.try_body _ _ _ _ _ _ _ _); discriminate.
Qed.

(** X17. [_download_files] raises only when [path_exists] or [get_file]
    raised for a candidate: with the exception of [path_exists] itself, or
    with [UnboundLocalError] after [get_file]. Whatever else fails for a
    candidate is kept in the result and the loop goes on. *)
Theorem download_files_raises_only_from_lookups (faults : Faults)
    (self : FileDownloader.t) (items : list FileDownloader.item)
    (file_hwm : option FileDownloader.hwm_ref) (w : World) (e : exn) (w' : World) :
  FileDownloader._download_files faults self items file_hwm w = Raise e w' ->
  exists i e0,
    i ∈ items
    /\ (last_call w' = Some (ConnPathExists (FileDownloader.item_source i), Some e0)
        /\ e = e0
        \/ last_call w' = Some (ConnGetFile (FileDownloader.item_source i), Some e0)
           /\ e = UnboundLocalError "remote_file").
Proof.
  unfold FileDownloader._download_files. generalize empty_result. revert w.
  induction items as [|[[s l] t] rest IH]; intros w result; simpl; [discriminate|].
  unfold bind.
  destruct (FileDownloader._download_file faults self s l t result file_hwm w)
    as [r1 w1|e1 w1] eqn:Hone.
  - intros H. destruct (IH _ _ H) as (i & e0 & Hi & Hcase).
    exists i, e0. split; [apply list_elem_of_further, Hi|exact Hcase].
  - intros [= <- <-]. apply download_file_Raise in Hone as [e0 Hcase].
    exists (s, l, t), e0. split; [apply list_elem_of_here|exact Hcase].
Qed.

Lemma download_files_raises_only_from_lookups_witness :
  let out := FileDownloader._download_files get_file_fails Examples.mirror
               Examples.scenario_b_items None Examples.empty_world in
  exists i e0,
    i ∈ Examples.scenario_b_items
    /\ (last_call (world_of out)
        = Some (ConnPathExists (FileDownloader.item_source i), Some e0)
        /\ UnboundLocalError "remote_file" = e0
        \/ last_call (world_of out)
           = Some (ConnGetFile (FileDownloader.item_source i), Some e0)
           /\ UnboundLocalError "remote_file" = UnboundLocalError "remote_file").
Proof.
  intros out.
  apply (download_files_raises_only_from_lookups get_file_fails Examples.mirror
           Examples.scenario_b_items None Examples.empty_world
           (UnboundLocalError "remote_file") (world_of out)).
  vm_compute. reflexivity.
Defined.

Lemma rname_rremove ps n : rname (rremove ps n) = rname n.
Proof. destruct ps as [|x [|y ps]], n; reflexivity. Qed.

Lemma find_has_name_map x (g : rnode -> rnode) ch :
  (forall c, rname (g c) = rname c) ->
  List.find (has_name x) (map g ch) = g <$> List.find (has_name x) ch.
Proof.
  intros Hg. induction ch as [|c ch IH]; simpl; [reflexivity|].
  unfold has_name at 1 3. rewrite Hg.
  destruct (bool_decide (rname c = x)); [reflexivity|exact IH].
Qed.

Lemma find_has_name_filter x ch :
  List.find (has_name x) (List.filter (fun c => negb (has_name x c)) ch) = None.
Proof.
  induction ch as [|c ch IH]; simpl; [reflexivity|].
  destruct (has_name x c) eqn:Hn; simpl; [exact IH|]. rewrite Hn. exact IH.
Qed.

(** What [rremove] took away is not found any more. *)
Lemma rlookup_rremove ps :
  ps <> [] -> forall n, rlookup ps (rremove ps n) = None.
Proof.
  induction ps as [|x ps IH]; intros Hne n; [contradiction|].
  destruct n as [nm st data|nm ch]; [destruct ps; reflexivity|].
  destruct ps as [|y ps].
  - simpl. rewrite find_has_name_filter. reflexivity.
  - change (rremove (x :: y :: ps) (RDir nm ch))
      with (RDir nm (map (fun c => if has_name x c then rremove (y :: ps) c else c) ch)).
    change (rlookup (x :: y :: ps) (RDir nm ?l))
      with (match List.find (has_name x) l with
            | Some c => rlookup (y :: ps) c
            | None => None
            end).
    rewrite find_has_name_map.
    2:{ intros c. destruct (has_name x c); [apply rname_rremove|reflexivity]. }
    destruct (List.find (has_name x) ch) as [c|] eqn:Hf; simpl; [|reflexivity].
    apply List.find_some in Hf as [_ Hc]. rewrite Hc. apply IH. discriminate.
Qed.

(** X19. With [delete_source], a candidate whose target [_download_file]
    has newly put into [successful] was removed at the source: the last
    call made is the [remove_file] of its source, which returned, and the
    source is not found in the remote tree any more. *)
Theorem successful_candidate_was_removed_at_source (faults : Faults)
    (self : FileDownloader.t) (s l : path) (t : option path) (result : DownloadResult)
    (file_hwm : option FileDownloader.hwm_ref) (w : World) (r : DownloadResult)
    (w' : World) :
  FileDownloader.delete_source (FileDownloader.options self) = true ->
  l ∉ successful result ->
  FileDownloader._download_file faults self s l t result file_hwm w = Ok r w' ->
  l ∈ successful r ->
  last_call w' = Some (ConnRemoveFile s, None)
  /\ (parts s <> [] -> rlookup (parts s) (remote w') = None).
Proof.
  intros Hd Hnew H Hin. unfold FileDownloader._download_file in H.
  apply bind_inv_Ok in H as (ex & w1 & _ & H).
  destruct ex; simpl in H; [|injection H as <- _; contradiction].
  destruct (conn_get_file faults s w1) as [f w2|e w2] eqn:Hget; [|discriminate].
  apply conn_get_file_path in Hget as Hp.
  unfold try_except in H.
  destruct (FileDownloader.try_body faults self f l t result file_hwm w2)
    as [r2 w3|e w3] eqn:Hbody; [|injection H as <- _; contradiction].
  injection H as <- <-.
  unfold FileDownloader.try_body in Hbody.
  apply bind_inv_Ok in Hbody as (c & w4 & _ & Hbody).
  destruct c as [|replace]; [injection Hbody as <- _; contradiction|].
  apply bind_inv_Ok in Hbody as ([] & w5 & _ & Hbody).
  apply bind_inv_Ok in Hbody as ([] & w6 & Haft & Hbody).
  injection Hbody as _ <-.
  unfold FileDownloader.after_transfer in Haft. rewrite Hd in Haft.
  apply bind_inv_Ok in Haft as ([] & w7 & _ & Hrm).
  unfold conn_remove_file in Hrm. apply call_inv_Ok in Hrm as (w8 & Hsem & ->).
  rewrite Hp in *.
  destruct (rlookup (parts s) (remote w7)) as [[nm st data|nm ch]|]; try discriminate.
  injection Hsem as <-. split; [reflexivity|].
  intros Hne. simpl. apply rlookup_rremove, Hne.
Qed.

Lemma successful_candidate_was_removed_at_source_witness :
  let w := set_local_dirs {[ Examples.local_dir ]} Examples.empty_world in
  let out := FileDownloader._download_file no_faults moving_downloader Examples.a_txt
               Examples.local_a_txt None empty_result None w in
  last_call (world_of out) = Some (ConnRemoveFile Examples.a_txt, None)
  /\ rlookup (parts Examples.a_txt) (remote (world_of out)) = None.
Proof.
  intros w out.
  destruct (successful_candidate_was_removed_at_source no_faults moving_downloader
              Examples.a_txt Examples.local_a_txt None empty_result None w
              {| successful := [Examples.local_a_txt]; failed := []; skipped := [];
                 missing := [] |}
              (world_of out)) as [H1 H2].
  - reflexivity.
  - intros H. inversion H.
  - vm_compute. reflexivity.
  - apply list_elem_of_here.
  - split; [exact H1|]. apply H2. discriminate.
Defined.
